(** * KabeNaki: character part extraction and sprite compositing

    A shallow embedding of the core of [Source/Tkinter/tkinter_app_fix_RGBA.py]
    (classes [CharacterExtractor] and [SpriteCompositor]) and of the
    compositor of [Source/Streamlit/web.py], with the properties the
    specification states about them.

    Conventions of the embedding:
    - Python [dict]s that are iterated ([game_objects], [transforms],
      [sprite_renderers]) are insertion-ordered association lists; dicts
      that are only looked up ([sprite_mapping], [custom_depths],
      [custom_colors]) are [gmap]s.
    - Python [float]s (positions, colour factors) are IEEE 754 binary64
      numbers and the elements of a NumPy [float32] array binary32
      numbers, with the correctly rounded arithmetic of the Standard
      Library's [SpecFloat]; infinities and NaN are values, and the
      exceptions [int()] raises on them are outcomes.
    - Images are a width, a height and a pixel function; Pillow's
      operations are written per pixel in its 8-bit integer arithmetic. *)

From Stdlib Require Import ZArith QArith Qabs Qround Ascii String Sorting.Sorted Permutation Lia.
From Stdlib Require SpecFloat.
From stdpp Require Import gmap strings list.

Local Open Scope Z_scope.
Set Warnings "-register-all".

(** ** Part names and categories ([CharacterExtractor.categorize_part]) *)

Module Category.

Inductive category : Set :=
  | body | head | arm_left | arm_right | arms
  | eyes | mouth | hair | effects | other.

(** The string literal the source returns for each category. *)
Definition category_name (c : category) : string :=
  match c with
  | body => "body" | head => "head" | arm_left => "arm_left"
  | arm_right => "arm_right" | arms => "arms" | eyes => "eyes"
  | mouth => "mouth" | hair => "hair" | effects => "effects"
  | other => "other"
  end.

(** [str.lower] on the ASCII range. *)
Definition lower_ascii (c : ascii) : ascii :=
  let n := nat_of_ascii c in
  if (65 <=? n)%nat && (n <=? 90)%nat then ascii_of_nat (n + 32) else c.

Fixpoint lower (s : string) : string :=
  match s with
  | EmptyString => EmptyString
  | String c s' => String (lower_ascii c) (lower s')
  end.

(** [word in s]: substring test. *)
Fixpoint contains (s word : string) : bool :=
  String.prefix word s ||
  match s with
  | EmptyString => false
  | String _ s' => contains s' word
  end.

(** [any(word in s for word in words)]. *)
Definition any_in (s : string) (words : list string) : bool :=
  existsb (contains s) words.

Definition categorize_part (part_name : string) : category :=
  let name_lower := lower part_name in
  if any_in name_lower ["body"; "torso"] then body
  else if any_in name_lower ["head"; "face"] then head
  else if contains name_lower "arml" || contains name_lower "leftarm" then arm_left
  else if contains name_lower "armr" || contains name_lower "rightarm" then arm_right
  else if contains name_lower "arm" then arms
  else if contains name_lower "eye" then eyes
  else if contains name_lower "mouth" then mouth
  else if contains name_lower "hair" then hair
  else if any_in name_lower ["blend"; "effect"; "shadow"] then effects
  else other.

(** The specification's rule table: keyword alternatives and the category
    they assign, in priority order. *)
Definition spec_rules : list (list string * category) :=
  [ (["body"; "torso"], body);
    (["head"; "face"], head);
    (["arml"; "leftarm"], arm_left);
    (["armr"; "rightarm"], arm_right);
    (["arm"], arms);
    (["eye"], eyes);
    (["mouth"], mouth);
    (["hair"], hair);
    (["blend"; "effect"; "shadow"], effects) ].

(** First rule with a keyword occurring in [s], else [other]. *)
Fixpoint first_match (rules : list (list string * category)) (s : string) : category :=
  match rules with
  | [] => other
  | (words, c) :: rest => if any_in s words then c else first_match rest s
  end.

Definition spec_categorize (part_name : string) : category :=
  first_match spec_rules (lower part_name).

End Category.

(** ** Insertion-ordered dictionaries keyed by [path_id] *)

Module Dict.
Section dict.
Context {V : Type}.

Definition dict : Type := list (Z * V).

(** [d.get(k)]. *)
Fixpoint get (d : dict) (k : Z) : option V :=
  match d with
  | [] => None
  | (k', v) :: d' => if k' =? k then Some v else get d' k
  end.

(** [d[k] = v]: an existing key keeps its place, a new one goes last. *)
Fixpoint set (d : dict) (k : Z) (v : V) : dict :=
  match d with
  | [] => [(k, v)]
  | (k', v') :: d' => if k' =? k then (k, v) :: d' else (k', v') :: set d' k v
  end.

Definition keys (d : dict) : list Z := map fst d.
Definition values (d : dict) : list V := map snd d.

(** [for v in d.values(): if test(v): found = v; break]. *)
Definition first_value (test : V -> bool) (d : dict) : option V :=
  List.find test (values d).
End dict.
Arguments dict : clear implicits.
End Dict.

(** ** Floating-point numbers *)

Module Float.
Import SpecFloat.

(** A Python [float] is a binary64 number (53 bits of precision) and an
    element of a [float32] array a binary32 number (24 bits): values of
    [spec_float], with the operations the Standard Library specifies for
    the two formats, rounding to nearest with ties to even. *)
Definition float : Set := spec_float.
Definition float32 : Set := spec_float.

Definition infinity : float := S754_infinity false.
Definition neg_infinity : float := S754_infinity true.
Definition nan : float := S754_nan.

(** [float(n)] of an integer, as the mixed operations [x * n], [x + n]
    and [x - n] convert their integer operand. *)
Definition of_int (n : Z) : float := binary_normalize 53 1024 n 0 false.

Definition mul (x y : float) : float := SFmul 53 1024 x y.
Definition add (x y : float) : float := SFadd 53 1024 x y.
Definition sub (x y : float) : float := SFsub 53 1024 x y.
Definition div (x y : float) : float := SFdiv 53 1024 x y.
Definition abs (x : float) : float := SFabs x.

(** The float nearest to [n / d], for integers that are floats: what
    Python reads from a literal such as [0.001]. *)
Definition of_ratio (n d : Z) : float := div (of_int n) (of_int d).

(** The literals [0.0], [1.0] and [0.001]. *)
Definition zero : float := of_int 0.
Definition one : float := of_int 1.
Definition milli : float := of_ratio 1 1000.

Definition is_nan (x : float) : bool :=
  match x with S754_nan => true | _ => false end.

Definition is_finite (x : float) : bool :=
  match x with S754_zero _ | S754_finite _ _ _ => true | _ => false end.

(** The number a finite float stands for: its signed mantissa times 2 to
    its exponent. *)
Definition value (x : float) : Q :=
  match x with
  | S754_finite s m (Zneg k) => (if s then Zneg m else Zpos m) # 2 ^ k
  | S754_finite s m e => inject_Z ((if s then Zneg m else Zpos m) * 2 ^ e)
  | _ => 0
  end.

(** The place of a float on the extended line: the numbers between the
    two infinities; NaN has none. *)
Definition place (x : float) : option (Z * Q) :=
  match x with
  | S754_nan => None
  | S754_infinity true => Some (-1, 0%Q)
  | S754_infinity false => Some (1, 0%Q)
  | _ => Some (0, value x)
  end.

(** The order of two places. *)
Definition place_lt (p q : Z * Q) : Prop :=
  fst p < fst q \/ (fst p = fst q /\ (snd p < snd q)%Q).
Definition place_le (p q : Z * Q) : Prop :=
  fst p < fst q \/ (fst p = fst q /\ (snd p <= snd q)%Q).

(** Comparison is the comparison of the places; NaN compares with
    nothing. On the numbers of a format this is the comparison
    [SFcompare] of the Standard Library (lemma [compare_SFcompare]). *)
Definition compare (x y : float) : option comparison :=
  match place x, place y with
  | Some (a, v), Some (b, w) =>
      Some match a ?= b with
           | Eq => (v ?= w)%Q
           | c => c
           end
  | _, _ => None
  end.

(** [x < y], [x <= y] and [x == y]. *)
Definition ltb (x y : float) : bool :=
  match compare x y with Some Lt => true | _ => false end.
Definition leb (x y : float) : bool :=
  match compare x y with Some (Lt | Eq) => true | _ => false end.
Definition eqb (x y : float) : bool :=
  match compare x y with Some Eq => true | _ => false end.

(** A rational with its fractional part dropped. *)
Definition truncate (v : Q) : Z := Z.quot (Qnum v) (Zpos (Qden v)).

Inductive exception : Set := OverflowError | ValueError.

Inductive result (A : Type) : Type :=
  | Ok (a : A)
  | Raise (e : exception).
Arguments Ok {A} a.
Arguments Raise {A} e.

(** [int(x)]: truncation towards zero; an infinity raises
    [OverflowError] and NaN raises [ValueError]. *)
Definition py_int (x : float) : result Z :=
  match x with
  | S754_infinity _ => Raise OverflowError
  | S754_nan => Raise ValueError
  | _ => Ok (truncate (value x))
  end.

(** The conversion of a Python float to [float32] that an in-place
    operation on a [float32] array makes of its scalar operand. *)
Definition to_float32 (x : float) : float32 :=
  match x with
  | S754_finite s m e => binary_round 24 128 s m e
  | _ => x
  end.

(** An 8-bit channel as a [float32]. *)
Definition of_uint8 (n : Z) : float32 := binary_normalize 24 128 n 0 false.

Definition mul32 (x y : float32) : float32 := SFmul 24 128 x y.

End Float.

(** ** Raster images and the Pillow operations the compositor calls *)

Module Raster.

Record pixel : Set := Pixel { red : Z; green : Z; blue : Z; alpha : Z }.

Definition channel_ok (c : Z) : Prop := 0 <= c <= 255.

Definition pixel_ok (p : pixel) : Prop :=
  channel_ok (red p) /\ channel_ok (green p) /\ channel_ok (blue p) /\ channel_ok (alpha p).

Definition transparent : pixel := Pixel 0 0 0 0.
Definition white : pixel := Pixel 255 255 255 255.

Inductive image_mode : Set := RGBA | RGB | L | P.

(** [pixel_at x y] is the pixel as [convert('RGBA')] reads it; only the
    coordinates inside [0, width) x [0, height) are part of the image. *)
Record image : Type := Image {
  mode : image_mode;
  width : Z;
  height : Z;
  pixel_at : Z -> Z -> pixel
}.

Definition inside (img : image) (x y : Z) : bool :=
  (0 <=? x) && (x <? width img) && (0 <=? y) && (y <? height img).

(** Same mode, same size, same pixels inside the bounds. *)
Definition same_image (i1 i2 : image) : Prop :=
  mode i1 = mode i2 /\ width i1 = width i2 /\ height i1 = height i2 /\
  forall x y, inside i1 x y = true -> pixel_at i1 x y = pixel_at i2 x y.

(** [Image.new('RGBA', size, color)]. *)
Definition new (size : Z * Z) (color : pixel) : image :=
  Image RGBA (fst size) (snd size) (fun _ _ => color).

(** [img.convert('RGBA')]. *)
Definition convert_rgba (img : image) : image :=
  Image RGBA (width img) (height img) (pixel_at img).

Definition is_rgba (img : image) : bool :=
  match mode img with RGBA => true | _ => false end.

Definition range (n : Z) : list Z := map Z.of_nat (seq 0 (Z.to_nat n)).

(** [img.getchannel('A').getbbox() is not None]: some pixel has a
    non-zero alpha. *)
Definition alpha_bbox_nonempty (img : image) : bool :=
  existsb (fun y => existsb (fun x => negb (alpha (pixel_at img x y) =? 0))
                            (range (width img)))
          (range (height img)).

(** Pillow's [SHIFTFORDIV255], [DIV255] and [BLEND] macros. *)
Definition shift_for_div255 (a : Z) : Z := Z.shiftr (Z.shiftr a 8 + a) 8.
Definition div255 (a : Z) : Z := shift_for_div255 (a + 128).
Definition blend (mask in1 in2 : Z) : Z := div255 (in1 * (255 - mask) + in2 * mask).

(** One pixel of [dst.paste(src, box, src)]: every band of the
    destination is blended towards the source by the source's alpha. *)
Definition paste_mask_pixel (dst src : pixel) : pixel :=
  let m := alpha src in
  Pixel (blend m (red dst) (red src)) (blend m (green dst) (green src))
        (blend m (blue dst) (blue src)) (blend m (alpha dst) (alpha src)).

Definition precision_bits : Z := 7.

Definition over_channel (coef1 coef2 s d : Z) : Z :=
  Z.shiftr (shift_for_div255 (s * coef1 + d * coef2 + Z.shiftl 128 precision_bits))
           precision_bits.

(** One pixel of [Image.alpha_composite(dst_image, src_image)]: the
    "over" operator on straight alpha, in Pillow's fixed-point form. *)
Definition alpha_composite_pixel (dst src : pixel) : pixel :=
  if alpha src =? 0 then dst
  else
    let blend_ := alpha dst * (255 - alpha src) in
    let outa255 := alpha src * 255 + blend_ in
    let coef1 := alpha src * 255 * 255 * Z.shiftl 1 precision_bits / outa255 in
    let coef2 := 255 * Z.shiftl 1 precision_bits - coef1 in
    Pixel (over_channel coef1 coef2 (red src) (red dst))
          (over_channel coef1 coef2 (green src) (green dst))
          (over_channel coef1 coef2 (blue src) (blue dst))
          (shift_for_div255 (outa255 + 128)).

(** Whether canvas coordinate [(x, y)] is covered by a [w] x [h] sprite
    pasted with its top-left corner at [(px, py)]. *)
Definition covers (px py w h x y : Z) : bool :=
  (px <=? x) && (x <? px + w) && (py <=? y) && (y <? py + h).

(** [dst.paste(src, (px, py))]: covered pixels are replaced. *)
Definition paste (dst src : image) (box : Z * Z) : image :=
  let '(px, py) := box in
  Image (mode dst) (width dst) (height dst)
    (fun x y => if covers px py (width src) (height src) x y
                then pixel_at src (x - px) (y - py)
                else pixel_at dst x y).

(** [dst.paste(src, (px, py), src)]: covered pixels are blended by the
    source's own alpha band. *)
Definition paste_masked (dst src : image) (box : Z * Z) : image :=
  let '(px, py) := box in
  Image (mode dst) (width dst) (height dst)
    (fun x y => if covers px py (width src) (height src) x y
                then paste_mask_pixel (pixel_at dst x y) (pixel_at src (x - px) (y - py))
                else pixel_at dst x y).

(** [Image.alpha_composite(dst, src)] for two images of one size. *)
Definition alpha_composite (dst src : image) : image :=
  Image (mode dst) (width dst) (height dst)
    (fun x y => alpha_composite_pixel (pixel_at dst x y) (pixel_at src x y)).

End Raster.

(** ** Colour factors and the per-pixel tint *)

Module Tint.
Import Raster Float.

(** A colour dict [{"r": .., "g": .., "b": .., "a": ..}]. *)
Record color : Set := Color { cr : float; cg : float; cb : float; ca : float }.

Definition identity_color : color := Color one one one one.

(** [abs(c - 1.0) < 0.001]. *)
Definition near_one (c : float) : bool := ltb (abs (sub c one)) milli.

(** [abs(c - 1.0) > 0.001]. *)
Definition far_from_one (c : float) : bool := ltb milli (abs (sub c one)).

(** [CharacterExtractor.is_default_color]. *)
Definition is_default_color (c : color) : bool :=
  near_one (cr c) && near_one (cg c) && near_one (cb c) && near_one (ca c).

(** The guard of the compositor before it tints with a custom colour. *)
Definition color_changed (c : color) : bool :=
  far_from_one (cr c) || far_from_one (cg c) || far_from_one (cb c) || far_from_one (ca c).

(** [np.clip(v, 0, 255)] on a [float32]: the smaller of 255 and the
    larger of [v] and 0, NaN being kept. *)
Definition clip (v : float32) : float32 :=
  if is_nan v then v
  else
    let low := if ltb (of_uint8 0) v then v else of_uint8 0 in
    if ltb low (of_uint8 255) then low else of_uint8 255.

(** [astype(np.uint8)] on a clipped value: the fraction is dropped. The
    cast of NaN is left undefined by C; it gives 0 on x86-64 and on
    AArch64. *)
Definition to_uint8 (v : float32) : Z :=
  if is_finite v then truncate (value v) mod 256 else 0.

(** One channel: to [float32], times the factor as a [float32], clipped,
    back to 8 bits. (A finite factor beyond the [float32] range becomes
    an infinity here, as NumPy 2 converts it; no theorem below is about
    such a factor.) *)
Definition tint_channel (factor : float) (c : Z) : Z :=
  to_uint8 (clip (mul32 (of_uint8 c) (to_float32 factor))).

Definition tint_pixel (f : color) (p : pixel) : pixel :=
  Pixel (tint_channel (cr f) (red p)) (tint_channel (cg f) (green p))
        (tint_channel (cb f) (blue p)) (tint_channel (ca f) (alpha p)).

(** The image [apply_color_correction] / [apply_color_adjustment] return,
    as a value (the object-level account is in [Numpy] below). *)
Definition tinted (img : image) (f : color) : image :=
  Image RGBA (width img) (height img) (fun x y => tint_pixel f (pixel_at img x y)).

End Tint.

(** ** [CharacterExtractor.extract_character_parts] *)

Module Extractor.
Import Raster Tint Category.
Import Float (float).

Record vec3 : Set := Vec3 { vx : float; vy : float; vz : float }.
Record quat : Set := Quat { qx : float; qy : float; qz : float; qw : float }.

(** What [obj.read()] yields, after the source's [getattr] defaults. A
    PPtr is kept as its [m_PathID] (0 when absent). *)
Inductive object_data : Type :=
  | GameObjectData (m_Name : string) (m_Component : list Z) (m_IsActive : bool)
  | TransformData (m_GameObject : Z) (m_LocalPosition : vec3) (m_LocalRotation : quat)
                  (m_LocalScale : vec3) (m_Children : list Z) (m_Father : Z)
  | SpriteRendererData (m_GameObject : Z) (m_Sprite : Z) (m_SortingOrder : Z) (m_Color : color)
  | SpriteData (m_Name : string) (sprite_image : option image)
  | OtherData.

(** One entry of [env.objects]; [read = None] when [obj.read()] raises. *)
Record raw_object : Type := RawObject { path_id : Z; read : option object_data }.

Record game_object : Set := GameObject {
  go_id : Z; go_name : string; go_components : list Z; go_is_active : bool }.

Record transform : Set := Transform {
  t_id : Z; t_game_object : Z; t_local_position : vec3; t_local_rotation : quat;
  t_local_scale : vec3; t_children : list Z; t_parent : Z }.

Record sprite_renderer : Set := SpriteRenderer {
  r_id : Z; r_game_object : Z; r_sprite : Z; r_sorting_order : Z; r_color : color }.

Record object_maps : Type := ObjectMaps {
  game_objects : Dict.dict game_object;
  transforms : Dict.dict transform;
  sprite_renderers : Dict.dict sprite_renderer }.

Definition empty_maps : object_maps := ObjectMaps [] [] [].

(** The body of the first loop over [all_objects]. *)
Definition index_object (m : object_maps) (obj : raw_object) : object_maps :=
  let id := path_id obj in
  match read obj with
  | None => m
  | Some (GameObjectData name comps active) =>
      ObjectMaps (Dict.set (game_objects m) id (GameObject id name comps active))
                 (transforms m) (sprite_renderers m)
  | Some (TransformData go pos rot scale children father) =>
      ObjectMaps (game_objects m)
                 (Dict.set (transforms m) id (Transform id go pos rot scale children father))
                 (sprite_renderers m)
  | Some (SpriteRendererData go sprite order col) =>
      ObjectMaps (game_objects m) (transforms m)
                 (Dict.set (sprite_renderers m) id (SpriteRenderer id go sprite order col))
  | Some _ => m
  end.

Definition build_object_maps (all_objects : list raw_object) : object_maps :=
  fold_left index_object all_objects empty_maps.

(** An entry of the local list [character_parts]. *)
Record joined_part : Set := JoinedPart {
  jp_name : string; jp_game_object_id : Z; jp_transform_id : Z;
  jp_sprite_renderer_id : Z; jp_position : vec3; jp_sorting_order : Z;
  jp_sprite_id : Z; jp_is_active : bool; jp_initial_color : color;
  jp_color_corrected : bool }.

Definition find_transform (m : object_maps) (go : Z) : option transform :=
  Dict.first_value (fun t => t_game_object t =? go) (transforms m).

Definition find_renderer (m : object_maps) (go : Z) : option sprite_renderer :=
  Dict.first_value (fun r => r_game_object r =? go) (sprite_renderers m).

(** The body of the second loop: the part of one game object, if it has
    both a transform and a sprite renderer. *)
Definition join_object (m : object_maps) (entry : Z * game_object) : list joined_part :=
  let '(id, go_data) := entry in
  match find_transform m id, find_renderer m id with
  | Some transform_data, Some sprite_renderer_data =>
      [ JoinedPart (go_name go_data) id (t_id transform_data) (r_id sprite_renderer_data)
                   (t_local_position transform_data) (r_sorting_order sprite_renderer_data)
                   (r_sprite sprite_renderer_data) (go_is_active go_data)
                   (r_color sprite_renderer_data) false ]
  | _, _ => []
  end.

Definition join_components (m : object_maps) : list joined_part :=
  flat_map (join_object m) (game_objects m).

(** A node of the hierarchy report. *)
Inductive node : Set := Node {
  n_name : string; n_game_object_id : Z; n_transform_id : Z; n_level : nat;
  n_position : vec3; n_has_sprite : bool; n_sorting_order : Z;
  n_children : list node }.

(** The outcome of a call that may exhaust Python's recursion limit. *)
Inductive outcome (A : Type) : Type :=
  | Done (a : A)
  | RecursionError.
Arguments Done {A} a.
Arguments RecursionError {A}.

(** The loop over [transform["children"]]: each non-zero child id is
    built by [build_child]; a child that does not resolve is left out. *)
Fixpoint children_loop (build_child : Z -> outcome (option node)) (refs : list Z)
    (acc : list node) : outcome (list node) :=
  match refs with
  | [] => Done acc
  | child_id :: refs' =>
      if child_id =? 0 then children_loop build_child refs' acc
      else
        match build_child child_id with
        | RecursionError => RecursionError
        | Done None => children_loop build_child refs' acc
        | Done (Some child_node) => children_loop build_child refs' (acc ++ [child_node])
        end
  end.

(** The nested function [build_hierarchy]. [fuel] is the number of stack
    frames still available; the source recurses on every non-zero child
    id and keeps no record of the transforms already visited. *)
Fixpoint build_hierarchy (m : object_maps) (fuel : nat) (transform_id : Z) (level : nat)
  : outcome (option node) :=
  match fuel with
  | O => RecursionError
  | S fuel' =>
      match Dict.get (transforms m) transform_id with
      | None => Done None
      | Some transform =>
          let go_id := t_game_object transform in
          let name := match Dict.get (game_objects m) go_id with
                      | Some go => go_name go
                      | None => "Unknown"
                      end in
          let sprite_renderer := find_renderer m go_id in
          match children_loop (fun child_id => build_hierarchy m fuel' child_id (S level))
                              (t_children transform) [] with
          | RecursionError => RecursionError
          | Done children =>
              Done (Some (Node name go_id transform_id level (t_local_position transform)
                               (match sprite_renderer with Some _ => true | None => false end)
                               (match sprite_renderer with
                                | Some r => r_sorting_order r
                                | None => 0
                                end)
                               children))
          end
      end
  end.

(** [root_transforms]: the transforms whose [parent] is 0. *)
Definition root_transforms (m : object_maps) : list transform :=
  List.filter (fun t => t_parent t =? 0) (Dict.values (transforms m)).

(** The loop over [root_transforms] filling [extraction_results["hierarchy"]]. *)
Fixpoint assemble_roots (m : object_maps) (fuel : nat) (roots : list transform)
  : outcome (list node) :=
  match roots with
  | [] => Done []
  | root :: roots' =>
      match build_hierarchy m fuel (t_id root) 0 with
      | RecursionError => RecursionError
      | Done h =>
          match assemble_roots m fuel roots' with
          | RecursionError => RecursionError
          | Done rest => Done (match h with Some n => n :: rest | None => rest end)
          end
      end
  end.

Definition assemble_hierarchy (m : object_maps) (fuel : nat) : outcome (list node) :=
  assemble_roots m fuel (root_transforms m).

(** An entry of [sprite_mapping]. *)
Record sprite_info : Set := SpriteInfo {
  si_name : string; si_file_path : string; si_size : Z * Z }.

(** An entry of [transform_data], the part list the compositor consumes
    (the content of [sprite_data.json]). *)
Record part : Set := Part {
  name : string; sprite_name : string; sprite_path : string; sprite_size : Z * Z;
  position : vec3; sorting_order : Z; selected : bool; category : Category.category;
  initial_color : color; color_corrected : bool; custom_color : color }.

(** The characters [re.sub] replaces by an underscore in a file name. *)
Definition unsafe_codes : list nat := [60; 62; 58; 34; 47; 92; 124; 63; 42]%nat.

Definition safe_ascii (c : ascii) : ascii :=
  if existsb (Nat.eqb (nat_of_ascii c)) unsafe_codes then "_"%char else c.

Fixpoint safe_name (s : string) : string :=
  match s with
  | EmptyString => EmptyString
  | String c s' => String (safe_ascii c) (safe_name s')
  end.

Definition output_dir : string := "extraction".

Definition sprite_output_path (sprite_name : string) : string :=
  (output_dir ++ "/sprites/" ++ safe_name sprite_name ++ ".png")%string.

(** [for part in character_parts: if part["sprite_id"] == id:
    part["color_corrected"] = True; break]. *)
Fixpoint mark_corrected (id : Z) (parts : list joined_part) : list joined_part :=
  match parts with
  | [] => []
  | p :: parts' =>
      if jp_sprite_id p =? id
      then JoinedPart (jp_name p) (jp_game_object_id p) (jp_transform_id p)
                      (jp_sprite_renderer_id p) (jp_position p) (jp_sorting_order p)
                      (jp_sprite_id p) (jp_is_active p) (jp_initial_color p) true :: parts'
      else p :: mark_corrected id parts'
  end.

(** The state the sprite loop updates: the joined parts, the sprite
    mapping and the files written under the output directory. *)
Record sprite_state : Type := SpriteState {
  st_parts : list joined_part;
  st_mapping : gmap Z sprite_info;
  st_files : gmap string image }.

(** The body of the loop over the sprite objects. *)
Definition extract_sprite (st : sprite_state) (obj : raw_object) : sprite_state :=
  match read obj with
  | Some (SpriteData sprite_name (Some img)) =>
      let output_path := sprite_output_path sprite_name in
      let sprite_renderer_color :=
        option_map jp_initial_color
          (List.find (fun p => jp_sprite_id p =? path_id obj) (st_parts st)) in
      let info := SpriteInfo sprite_name output_path (width img, height img) in
      match sprite_renderer_color with
      | Some c =>
          if negb (is_default_color c)
          then SpriteState (mark_corrected (path_id obj) (st_parts st))
                           (<[path_id obj := info]> (st_mapping st))
                           (<[output_path := tinted img c]> (st_files st))
          else SpriteState (st_parts st) (<[path_id obj := info]> (st_mapping st))
                           (<[output_path := img]> (st_files st))
      | None => SpriteState (st_parts st) (<[path_id obj := info]> (st_mapping st))
                            (<[output_path := img]> (st_files st))
      end
  | _ => st
  end.

(** The body of the last loop: the output part of a joined part whose
    sprite id is in the sprite mapping, nothing otherwise. *)
Definition emit_part (mapping : gmap Z sprite_info) (p : joined_part) : list part :=
  match mapping !! jp_sprite_id p with
  | Some sprite_info =>
      [ Part (jp_name p) (si_name sprite_info) (si_file_path sprite_info)
             (si_size sprite_info) (jp_position p) (jp_sorting_order p) false
             (categorize_part (jp_name p)) (jp_initial_color p) (jp_color_corrected p)
             (jp_initial_color p) ]
  | None => []
  end.

Record extraction_results : Type := ExtractionResults {
  character_parts : list joined_part;
  hierarchy : list node;
  sprite_mapping : gmap Z sprite_info;
  transform_data : list part }.

(** [extract_character_parts], from the decoded objects of the bundle and
    the files present; the key ["character_parts"] of the result is
    initialised empty and never assigned. *)
Definition extract_character_parts (fuel : nat) (files : gmap string image)
    (all_objects : list raw_object)
  : outcome (extraction_results * gmap string image) :=
  let m := build_object_maps all_objects in
  let joined := join_components m in
  match assemble_hierarchy m fuel with
  | RecursionError => RecursionError
  | Done hierarchy =>
      let st := fold_left extract_sprite all_objects (SpriteState joined ∅ files) in
      let parts := flat_map (emit_part (st_mapping st)) (st_parts st) in
      Done (ExtractionResults [] hierarchy (st_mapping st) parts, st_files st)
  end.

End Extractor.

(** ** [SpriteCompositor] of the Tkinter application *)

Module Compositor.
Import Raster Tint Extractor.
Import Float (float, result, Ok, Raise).

Definition ratio : Z := 100.
Definition base_canvas_size : Z * Z := (2000, 4000).

(** [name in selected_sprites] on a list of names. *)
Definition name_in (n : string) (names : list string) : bool :=
  existsb (String.eqb n) names.

(** [Image.open(path)]: the image stored under the path, or an exception. *)
Definition open_image (files : gmap string image) (path : string) : option image :=
  files !! path.

(** The running bounding box [(min_x, min_y, max_x, max_y)]. *)
Definition bounds : Set := float * float * float * float.

Definition initial_bounds : bounds :=
  (Float.infinity, Float.infinity, Float.neg_infinity, Float.neg_infinity).

(** [min(a, b)] and [max(a, b)] of Python on two numbers: [b] when it is
    smaller, or larger, than [a], and [a] otherwise. *)
Definition py_min (a b : float) : float := if Float.ltb b a then b else a.
Definition py_max (a b : float) : float := if Float.ltb a b then b else a.

(** The body of the loop of [calculate_canvas_size]. *)
Definition grow_bounds (files : gmap string image) (selected_sprites : list string)
    (b : bounds) (p : part) : bounds :=
  if name_in (name p) selected_sprites then
    match open_image files (sprite_path p) with
    | None => b
    | Some sprite_img =>
        let sprite_width := width sprite_img in
        let sprite_height := height sprite_img in
        let pos_x := Float.mul (vx (position p)) (Float.of_int ratio) in
        let pos_y := Float.mul (vy (position p)) (Float.of_int (- ratio)) in
        let left := Float.sub pos_x (Float.of_int (sprite_width / 2)) in
        let right := Float.add pos_x (Float.of_int (sprite_width / 2)) in
        let top := Float.sub pos_y (Float.of_int (sprite_height / 2)) in
        let bottom := Float.add pos_y (Float.of_int (sprite_height / 2)) in
        let '(min_x, min_y, max_x, max_y) := b in
        (py_min min_x left, py_min min_y top, py_max max_x right, py_max max_y bottom)
    end
  else b.

Definition is_empty {A} (l : list A) : bool :=
  match l with [] => true | _ => false end.

(** [calculate_canvas_size]; the two calls of [int] are outside the
    [try] of the loop, so what they raise leaves the function. *)
Definition calculate_canvas_size (files : gmap string image) (sprite_data : list part)
    (selected_sprites : list string) : result (Z * Z) :=
  if is_empty sprite_data || is_empty selected_sprites then Ok base_canvas_size
  else
    let '(min_x, min_y, max_x, max_y) :=
      fold_left (grow_bounds files selected_sprites) sprite_data initial_bounds in
    if Float.eqb min_x Float.infinity then Ok base_canvas_size
    else
      match Float.py_int (Float.sub max_x min_x) with
      | Raise e => Raise e
      | Ok span_x =>
          match Float.py_int (Float.sub max_y min_y) with
          | Raise e => Raise e
          | Ok span_y => Ok (Z.max 2000 (span_x + 400), Z.max 4000 (span_y + 400))
          end
      end.

(** Python's [sorted(l, key=key)]: the stable sort, as an insertion
    sort that puts an element before the first later one whose key is
    not smaller. *)
Section sorted.
Context {A : Type} (key : A -> Z).

Fixpoint insert_by (x : A) (l : list A) : list A :=
  match l with
  | [] => [x]
  | y :: l' => if key x <=? key y then x :: y :: l' else y :: insert_by x l'
  end.

Fixpoint py_sorted (l : list A) : list A :=
  match l with
  | [] => []
  | x :: l' => insert_by x (py_sorted l')
  end.
End sorted.

(** [any(custom_depths.values())]: some override is not zero (an empty
    dict has none, so this is also the whole test
    [custom_depths and any(custom_depths.values())]). *)
Definition any_value (custom_depths : gmap string Z) : bool :=
  existsb (fun kv => negb (snd kv =? 0)) (map_to_list custom_depths).

(** [custom_depths.get(x["name"], x["sorting_order"])]. *)
Definition depth_or_order (custom_depths : gmap string Z) (p : part) : Z :=
  default (sorting_order p) (custom_depths !! name p).

(** [sorted_parts]: the selected parts in painting order. *)
Definition sorted_parts (sprite_data : list part) (selected_sprites : list string)
    (custom_depths : option (gmap string Z)) : list part :=
  let chosen := List.filter (fun p => name_in (name p) selected_sprites) sprite_data in
  match custom_depths with
  | Some depths =>
      if any_value depths then py_sorted (depth_or_order depths) chosen
      else py_sorted sorting_order chosen
  | None => py_sorted sorting_order chosen
  end.

(** The sprite of a part as it is painted: opened, converted, and tinted
    when the part has a custom colour that is not the identity. *)
Definition load_sprite (files : gmap string image)
    (custom_colors : option (gmap string color)) (p : part) : option image :=
  match open_image files (sprite_path p) with
  | None => None
  | Some file_img =>
      let sprite_img := convert_rgba file_img in
      Some match custom_colors with
           | Some colors =>
               match colors !! name p with
               | Some custom_color =>
                   if color_changed custom_color then tinted sprite_img custom_color
                   else sprite_img
               | None => sprite_img
               end
           | None => sprite_img
           end
  end.

(** [(pos_x, pos_y)] of a part on a canvas of the given size. *)
Definition screen_position (canvas_size : Z * Z) (p : part) : result (Z * Z) :=
  let center_x := fst canvas_size / 2 in
  let center_y := snd canvas_size / 2 in
  match Float.py_int (Float.add (Float.mul (vx (position p)) (Float.of_int ratio))
                                (Float.of_int center_x)) with
  | Raise e => Raise e
  | Ok pos_x =>
      match Float.py_int (Float.add (Float.mul (vy (position p)) (Float.of_int (- ratio)))
                                    (Float.of_int center_y)) with
      | Raise e => Raise e
      | Ok pos_y => Ok (pos_x, pos_y)
      end
  end.

(** [(placement_x, placement_y)]: the top-left corner of the sprite. *)
Definition placement (canvas_size : Z * Z) (p : part) (sprite_img : image)
  : result (Z * Z) :=
  match screen_position canvas_size p with
  | Raise e => Raise e
  | Ok (pos_x, pos_y) => Ok (pos_x - width sprite_img / 2, pos_y - height sprite_img / 2)
  end.

(** The body of the painting loop, a [try] block: a part whose sprite
    cannot be opened, or whose position [int] refuses, is reported and
    the canvas is left as it is. *)
Definition paint_part (files : gmap string image)
    (custom_colors : option (gmap string color)) (canvas_size : Z * Z)
    (composite : image) (p : part) : image :=
  match load_sprite files custom_colors p with
  | None => composite
  | Some sprite_img =>
      match placement canvas_size p sprite_img with
      | Raise _ => composite
      | Ok box =>
          if is_rgba sprite_img && alpha_bbox_nonempty sprite_img then
            let temp_canvas := paste (new canvas_size transparent) sprite_img box in
            alpha_composite composite temp_canvas
          else paste_masked composite sprite_img box
      end
  end.

(** [create_composite_image]; [None] is Python's [None], for the result
    and for an argument left out. What canvas sizing raises leaves the
    function. *)
Definition create_composite_image (files : gmap string image) (sprite_data : list part)
    (selected_sprites : option (list string)) (custom_depths : option (gmap string Z))
    (custom_colors : option (gmap string color)) : result (option image) :=
  if is_empty sprite_data then Ok None
  else
    let selected_sprites :=
      match selected_sprites with
      | None => map name sprite_data
      | Some names => names
      end in
    match calculate_canvas_size files sprite_data selected_sprites with
    | Raise e => Raise e
    | Ok canvas_size =>
        let sorted_parts := sorted_parts sprite_data selected_sprites custom_depths in
        let composite := new canvas_size transparent in
        Ok (Some (fold_left (paint_part files custom_colors canvas_size) sorted_parts
                    composite))
    end.

(** The pixel of a render at a canvas coordinate, when there is one. *)
Definition rendered_pixel (r : result (option image)) (x y : Z) : option pixel :=
  match r with
  | Ok (Some img) => Some (pixel_at img x y)
  | _ => None
  end.

End Compositor.

(** ** [SpriteCompositor] of the Streamlit application ([web.py]) *)

Module WebCompositor.
Import Raster Tint Extractor.
Import Float (result, Ok, Raise).

(** The body of the painting loop: always the masked paste. *)
Definition paint_part (files : gmap string image) (canvas_size : Z * Z)
    (composite : image) (p : part) : image :=
  match Compositor.open_image files (sprite_path p) with
  | None => composite
  | Some file_img =>
      let sprite_img := convert_rgba file_img in
      match Compositor.placement canvas_size p sprite_img with
      | Raise _ => composite
      | Ok box => paste_masked composite sprite_img box
      end
  end.

(** [create_composite_image] of [web.py]: same sizing and sorting, an
    opaque white canvas. *)
Definition create_composite_image (files : gmap string image) (sprite_data : list part)
    (selected_sprites : option (list string)) (custom_depths : option (gmap string Z))
  : result (option image) :=
  if Compositor.is_empty sprite_data then Ok None
  else
    let selected_sprites :=
      match selected_sprites with
      | None => map name sprite_data
      | Some names => names
      end in
    match Compositor.calculate_canvas_size files sprite_data selected_sprites with
    | Raise e => Raise e
    | Ok canvas_size =>
        let sorted_parts :=
          Compositor.sorted_parts sprite_data selected_sprites custom_depths in
        let composite := new canvas_size white in
        Ok (Some (fold_left (paint_part files canvas_size) sorted_parts composite))
    end.

End WebCompositor.

(** ** [apply_color_adjustment] on the objects it allocates and updates *)

Module Numpy.
Import Raster Tint.
Import Float (float, float32).

(** A [float32] array of shape (height, width, 4), by pixel and channel. *)
Record floats : Set := Floats { f0 : float32; f1 : float32; f2 : float32; f3 : float32 }.

Inductive object : Type :=
  | ImageObj (img : image)
  | FloatArray (w h : Z) (data : Z -> Z -> floats)
  | ByteArray (w h : Z) (data : Z -> Z -> pixel).

(** The objects alive, by address; a new object takes the next address. *)
Definition heap : Type := list object.

(** A computation on the heap that may raise. *)
Definition M (A : Type) : Type := heap -> option (A * heap).

Definition ret {A} (a : A) : M A := fun h => Some (a, h).

Definition bind {A B} (c : M A) (k : A -> M B) : M B :=
  fun h => match c h with
           | Some (a, h') => k a h'
           | None => None
           end.

Notation "'let*' x := c 'in' k" := (bind c (fun x => k))
  (at level 10, x pattern, c at level 100, k at level 200).

Definition alloc (o : object) : M nat := fun h => Some (length h, h ++ [o]).

Definition load (l : nat) : M object := fun h => option_map (fun o => (o, h)) (h !! l).

Definition store (l : nat) (o : object) : M unit :=
  fun h => match h !! l with
           | Some _ => Some (tt, <[l := o]> h)
           | None => None
           end.

Definition raise {A} : M A := fun _ => None.

(** [image.convert('RGBA')] when the mode is not RGBA, else the image. *)
Definition ensure_rgba (image : nat) : M nat :=
  let* o := load image in
  match o with
  | ImageObj img => if is_rgba img then ret image else alloc (ImageObj (convert_rgba img))
  | _ => raise
  end.

(** [np.array(image, dtype=np.float32)]: a fresh array holding a copy. *)
Definition np_array (image : nat) : M nat :=
  let* o := load image in
  match o with
  | ImageObj img =>
      alloc (FloatArray (width img) (height img)
               (fun x y => let p := pixel_at img x y in
                           Floats (Float.of_uint8 (red p)) (Float.of_uint8 (green p))
                                  (Float.of_uint8 (blue p)) (Float.of_uint8 (alpha p))))
  | _ => raise
  end.

(** One element of [img_array[:, :, channel] *= factor]: the product of
    two [float32], rounded to [float32]. *)
Definition scale_channel (channel : nat) (factor : float) (v : floats) : floats :=
  let factor32 := Float.to_float32 factor in
  match channel with
  | 0%nat => Floats (Float.mul32 (f0 v) factor32) (f1 v) (f2 v) (f3 v)
  | 1%nat => Floats (f0 v) (Float.mul32 (f1 v) factor32) (f2 v) (f3 v)
  | 2%nat => Floats (f0 v) (f1 v) (Float.mul32 (f2 v) factor32) (f3 v)
  | _ => Floats (f0 v) (f1 v) (f2 v) (Float.mul32 (f3 v) factor32)
  end.

(** [img_array[:, :, channel] *= factor]: the array is updated in place. *)
Definition imul_channel (arr : nat) (channel : nat) (factor : float) : M unit :=
  let* o := load arr in
  match o with
  | FloatArray w h data => store arr (FloatArray w h (fun x y => scale_channel channel factor (data x y)))
  | _ => raise
  end.

(** [np.clip(img_array, 0, 255)]: a fresh array. *)
Definition np_clip (arr : nat) : M nat :=
  let* o := load arr in
  match o with
  | FloatArray w h data =>
      alloc (FloatArray w h (fun x y => let v := data x y in
                                        Floats (clip (f0 v)) (clip (f1 v)) (clip (f2 v)) (clip (f3 v))))
  | _ => raise
  end.

(** [img_array.astype(np.uint8)]: a fresh byte array. *)
Definition astype_uint8 (arr : nat) : M nat :=
  let* o := load arr in
  match o with
  | FloatArray w h data =>
      alloc (ByteArray w h (fun x y => let v := data x y in
                                       Pixel (to_uint8 (f0 v)) (to_uint8 (f1 v))
                                             (to_uint8 (f2 v)) (to_uint8 (f3 v))))
  | _ => raise
  end.

(** [Image.fromarray(array, 'RGBA')]: a fresh image. *)
Definition fromarray (arr : nat) : M nat :=
  let* o := load arr in
  match o with
  | ByteArray w h data => alloc (ImageObj (Image RGBA w h data))
  | _ => raise
  end.

(** [SpriteCompositor.apply_color_adjustment] (and, line for line,
    [CharacterExtractor.apply_color_correction]). *)
Definition apply_color_adjustment (image : nat) (color_factors : color) : M nat :=
  let* image := ensure_rgba image in
  let* img_array := np_array image in
  let* _ := imul_channel img_array 0 (cr color_factors) in
  let* _ := imul_channel img_array 1 (cg color_factors) in
  let* _ := imul_channel img_array 2 (cb color_factors) in
  let* _ := imul_channel img_array 3 (ca color_factors) in
  let* img_array := np_clip img_array in
  let* adjusted_array := astype_uint8 img_array in
  fromarray adjusted_array.

End Numpy.

(** ** The notions the properties are stated with *)

Module Spec.
Import Raster Tint Extractor.

(** *** Hierarchy *)

(** [child] is a non-zero entry of the child list of the transform
    stored under [parent]. *)
Definition child_of (m : object_maps) (parent child : Z) : Prop :=
  exists t, Dict.get (transforms m) parent = Some t /\ In child (t_children t) /\ child <> 0.

(** The transform [id] leads, through child links, to a transform that is
    its own descendant. *)
Definition reaches_cycle (m : object_maps) (id : Z) : Prop :=
  exists a, rtc (child_of m) id a /\ tc (child_of m) a a.

(** [rank] decreases along every child link of the table, which therefore
    has no cycle. *)
Definition ranked (m : object_maps) (rank : Z -> nat) : bool :=
  forallb (fun entry : Z * transform =>
             forallb (fun c => (c =? 0) || (rank c <? rank (fst entry))%nat)
                     (t_children (snd entry)))
          (transforms m).

(** *** Part resolution *)

(** Two joined parts that differ at most in the [color_corrected] mark. *)
Definition same_part (p q : joined_part) : Prop :=
  jp_name p = jp_name q /\ jp_position p = jp_position q /\
  jp_sorting_order p = jp_sorting_order q /\ jp_sprite_id p = jp_sprite_id q /\
  jp_initial_color p = jp_initial_color q.

(** What one game object contributes to the output part list: a single
    part carrying its name, the position of its transform and the sorting
    order of its renderer when it has both and the renderer's sprite id
    is in the sprite mapping, nothing otherwise. *)
Definition object_yield (m : object_maps) (mapping : gmap Z sprite_info)
    (entry : Z * game_object) (group : list part) : Prop :=
  match find_transform m (fst entry), find_renderer m (fst entry) with
  | Some t, Some rd =>
      match mapping !! r_sprite rd with
      | Some info =>
          exists p, group = [p] /\ name p = go_name (snd entry) /\
                    position p = t_local_position t /\
                    sorting_order p = r_sorting_order rd /\
                    sprite_path p = si_file_path info
      | None => group = []
      end
  | _, _ => group = []
  end.

(** *** Depth order *)

(** "An effective depth key: [depth_overrides[name]] if present, else
    [sorting_order]". *)
Definition effective_depth (depth_overrides : gmap string Z) (p : part) : Z :=
  match depth_overrides !! name p with
  | Some depth => depth
  | None => sorting_order p
  end.

(** A painting order that is ascending in the effective depth. *)
Definition depth_ordered (depth_overrides : gmap string Z) (l : list part) : Prop :=
  StronglySorted (fun p q => effective_depth depth_overrides p <= effective_depth depth_overrides q) l.

(** *** Rounding *)

(** [n] is [v] with its fractional part dropped (rounding towards zero). *)
Definition truncated (v : Q) (n : Z) : Prop :=
  ((0 <= v -> inject_Z n <= v /\ v < inject_Z n + 1) /\
   (v <= 0 -> inject_Z n - 1 < v /\ v <= inject_Z n))%Q.

(** [n] is an integer nearest to [v], whatever the rule for ties. *)
Definition nearest_integer (v : Q) (n : Z) : Prop :=
  (Qabs (v - inject_Z n) <= 1 # 2)%Q.

(** "[position.x * RATIO + canvas_width/2]" in exact arithmetic, before
    any rounding. *)
Definition screen_x (canvas_size : Z * Z) (p : part) : Q :=
  (Float.value (vx (position p)) * 100 + inject_Z (fst canvas_size) / 2)%Q.

(** The floats [position.x * 100 + canvas_width // 2] and
    [position.y * -100 + canvas_height // 2] that the code hands to
    [int]: a rounded product and a rounded sum. *)
Definition scaled_x (canvas_size : Z * Z) (p : part) : Float.float :=
  Float.add (Float.mul (vx (position p)) (Float.of_int 100))
            (Float.of_int (fst canvas_size / 2)).
Definition scaled_y (canvas_size : Z * Z) (p : part) : Float.float :=
  Float.add (Float.mul (vy (position p)) (Float.of_int (-100)))
            (Float.of_int (snd canvas_size / 2)).

(** *** Canvas sizing *)

(** A part that counts for the canvas size: selected, and its sprite
    file opens. *)
Definition usable (files : gmap string image) (selected : list string) (p : part) : bool :=
  Compositor.name_in (name p) selected &&
  match Compositor.open_image files (sprite_path p) with Some _ => true | None => false end.

Definition sprite_dims (files : gmap string image) (p : part) : Z * Z :=
  match Compositor.open_image files (sprite_path p) with
  | Some img => (width img, height img)
  | None => (0, 0)
  end.

(** The edges the code gives a sprite: the position scaled by 100 (y
    inverted), minus and plus the floor-halved dimension, in floating
    point. *)
Definition left_edge (files : gmap string image) (p : part) : Float.float :=
  Float.sub (Float.mul (vx (position p)) (Float.of_int 100))
            (Float.of_int (fst (sprite_dims files p) / 2)).
Definition right_edge (files : gmap string image) (p : part) : Float.float :=
  Float.add (Float.mul (vx (position p)) (Float.of_int 100))
            (Float.of_int (fst (sprite_dims files p) / 2)).
Definition top_edge (files : gmap string image) (p : part) : Float.float :=
  Float.sub (Float.mul (vy (position p)) (Float.of_int (-100)))
            (Float.of_int (snd (sprite_dims files p) / 2)).
Definition bottom_edge (files : gmap string image) (p : part) : Float.float :=
  Float.add (Float.mul (vy (position p)) (Float.of_int (-100)))
            (Float.of_int (snd (sprite_dims files p) / 2)).

(** The four edges of the part are numbers (no infinity, no NaN). *)
Definition finite_edges (files : gmap string image) (p : part) : bool :=
  Float.is_finite (left_edge files p) && Float.is_finite (right_edge files p) &&
  Float.is_finite (top_edge files p) && Float.is_finite (bottom_edge files p).

(** [m] is the least, or the greatest, value of [f] on the list. *)
Definition least (f : part -> Float.float) (ps : list part) (m : Float.float) : Prop :=
  (exists p, In p ps /\ f p = m) /\ forall p, In p ps -> Float.leb m (f p) = true.
Definition greatest (f : part -> Float.float) (ps : list part) (m : Float.float) : Prop :=
  (exists p, In p ps /\ f p = m) /\ forall p, In p ps -> Float.leb (f p) m = true.

(** What the running bounding box holds after the parts [ps]. *)
Definition bounds_describe (files : gmap string image) (selected : list string)
    (ps : list part) (b : Compositor.bounds) : Prop :=
  let us := List.filter (usable files selected) ps in
  match us with
  | [] => b = Compositor.initial_bounds
  | _ =>
      let '(min_x, min_y, max_x, max_y) := b in
      least (left_edge files) us min_x /\ least (top_edge files) us min_y /\
      greatest (right_edge files) us max_x /\ greatest (bottom_edge files) us max_y
  end.

(** "Sprite extents after applying the position transform": a sprite of
    width [w] centred on its screen abscissa spans [w] pixels, in exact
    arithmetic. *)
Definition extent_left (files : gmap string image) (p : part) : Q :=
  (Float.value (vx (position p)) * 100 - inject_Z (fst (sprite_dims files p)) / 2)%Q.
Definition extent_right (files : gmap string image) (p : part) : Q :=
  (Float.value (vx (position p)) * 100 + inject_Z (fst (sprite_dims files p)) / 2)%Q.

(** A rectangle [w] pixels wide encloses the horizontal extents of the
    usable parts. *)
Definition encloses_width (files : gmap string image) (selected : list string)
    (sprite_data : list part) (w : Z) : Prop :=
  forall p q, In p sprite_data -> In q sprite_data ->
    usable files selected p = true -> usable files selected q = true ->
    (extent_right files q - extent_left files p <= inject_Z w)%Q.

(** *** Blending and tint *)

(** A colour channel [c] between the channels [a] and [b], bounds
    included, and strictly between them. *)
Definition between (a b c : Z) : Prop := Z.min a b <= c <= Z.max a b.
Definition strictly_between (a b c : Z) : Prop := Z.min a b < c < Z.max a b.

(** The [float32] product of a channel and a factor. *)
Definition product32 (factor : Float.float) (c : Z) : Float.float32 :=
  Float.mul32 (Float.of_uint8 c) (Float.to_float32 factor).

(** The 8-bit channel [c'] is the channel [c] "multiplied by the
    corresponding factor and clamped to [0, 255]": 0 for a product below
    0, 255 for a product above 255, and otherwise the product cut to its
    integer part. *)
Definition scaled_clamped (factor : Float.float) (c c' : Z) : Prop :=
  let v := product32 factor c in
  (Float.ltb v (Float.of_uint8 0) = true -> c' = 0) /\
  (Float.ltb (Float.of_uint8 255) v = true -> c' = 255) /\
  (Float.leb (Float.of_uint8 0) v = true -> Float.leb v (Float.of_uint8 255) = true ->
   truncated (Float.value v) c').

Definition pixel_scaled_clamped (f : color) (p p' : pixel) : Prop :=
  scaled_clamped (cr f) (red p) (red p') /\ scaled_clamped (cg f) (green p) (green p') /\
  scaled_clamped (cb f) (blue p) (blue p') /\ scaled_clamped (ca f) (alpha p) (alpha p').

End Spec.

(** ** Concrete inputs *)

Module Examples.
Import Raster Tint Extractor.

Definition origin : vec3 := Vec3 Float.zero Float.zero Float.zero.

(** A part with the given name, sprite file, position and sorting order. *)
Definition mk_part (n path : string) (x y : Float.float) (order : Z) : part :=
  Part n n path (0, 0) (Vec3 x y Float.zero) order false (Category.categorize_part n)
       identity_color false identity_color.

(** A part on the origin. *)
Definition centred (n path : string) (order : Z) : part :=
  mk_part n path Float.zero Float.zero order.

(** A [w] x [h] sprite of one colour. *)
Definition plain (w h : Z) (p : pixel) : image := Image RGBA w h (fun _ _ => p).

(** Two selected parts and an override that moves the first to depth 0. *)
Definition part_a : part := centred "a" "a.png" 5.
Definition part_b : part := centred "b" "b.png" 3.
Definition zero_override : gmap string Z := {[ "a" := 0 ]}.

Definition no_rotation : quat := Quat Float.zero Float.zero Float.zero Float.one.
Definition unit_scale : vec3 := Vec3 Float.one Float.one Float.one.

(** A root transform 1 whose child 2 lists the root as its own child. *)
Definition cyclic_objects : list raw_object :=
  [ RawObject 10 (Some (GameObjectData "root" [] true));
    RawObject 11 (Some (GameObjectData "limb" [] true));
    RawObject 1 (Some (TransformData 10 origin no_rotation unit_scale [2] 0));
    RawObject 2 (Some (TransformData 11 origin no_rotation unit_scale [1] 1)) ].

(** The same objects with the back link removed; the root also lists a
    null reference and a transform that is not in the bundle. *)
Definition tree_objects : list raw_object :=
  [ RawObject 10 (Some (GameObjectData "root" [] true));
    RawObject 11 (Some (GameObjectData "limb" [] true));
    RawObject 1 (Some (TransformData 10 origin no_rotation unit_scale [2; 0; 99] 0));
    RawObject 2 (Some (TransformData 11 origin no_rotation unit_scale [] 1)) ].

Definition tree_rank (id : Z) : nat := if id =? 1 then 2%nat else if id =? 2 then 1%nat else 0%nat.

Definition half : Float.float := Float.of_ratio 1 2.

Definition grey : color := Color half half half Float.one.

(** An object with a transform and a renderer whose sprite reference is
    null, and an object with a transform only. *)
Definition spriteless_objects : list raw_object :=
  [ RawObject 10 (Some (GameObjectData "Body" [] true));
    RawObject 11 (Some (GameObjectData "Pivot" [] true));
    RawObject 1 (Some (TransformData 10 origin no_rotation unit_scale [2] 0));
    RawObject 2 (Some (TransformData 11 origin no_rotation unit_scale [] 1));
    RawObject 5 (Some (SpriteRendererData 10 0 3 identity_color)) ].

(** The same with a sprite for the renderer, tinted grey. *)
Definition sprite_objects : list raw_object :=
  [ RawObject 10 (Some (GameObjectData "Body" [] true));
    RawObject 11 (Some (GameObjectData "Pivot" [] true));
    RawObject 1 (Some (TransformData 10 origin no_rotation unit_scale [2] 0));
    RawObject 2 (Some (TransformData 11 origin no_rotation unit_scale [] 1));
    RawObject 5 (Some (SpriteRendererData 10 7 3 grey));
    RawObject 7 (Some (SpriteData "body_sprite" (Some (plain 2 2 (Pixel 200 100 50 255))))) ].

(** Two 1 x 1 sprites at the origin, "bottom" painted before "top". *)
Definition two_parts : list part :=
  [ centred "bottom" "bottom.png" 1; centred "top" "top.png" 2 ].

Definition two_files (bottom top : pixel) : gmap string image :=
  {[ "bottom.png" := plain 1 1 bottom; "top.png" := plain 1 1 top ]}.

(** An opaque bottom under a top of alpha 128. *)
Definition opaque_under_half : gmap string image :=
  two_files (Pixel 200 40 40 255) (Pixel 40 40 200 128).

(** Two translucent pixels, both dark. *)
Definition both_translucent : gmap string image :=
  two_files (Pixel 10 0 0 128) (Pixel 0 0 0 128).

(** Two reds one step apart, the top one of alpha 128. *)
Definition adjacent_reds : gmap string image :=
  two_files (Pixel 10 0 0 255) (Pixel 11 0 0 128).

(** A part 1/128 of a unit right of the origin, with a 1 x 1 sprite. *)
Definition offset_part : part := mk_part "dot" "dot.png" (Float.of_ratio 1 128) Float.zero 0.
Definition offset_files : gmap string image := {[ "dot.png" := plain 1 1 (Pixel 9 9 9 255) ]}.

(** One sprite 2001 pixels wide at the origin. *)
Definition wide_part : part := centred "wide" "wide.png" 0.
Definition wide_files : gmap string image := {[ "wide.png" := plain 2001 10 (Pixel 9 9 9 255) ]}.

(** Two sprites 2000 pixels wide, the second 1/128 of a unit to the
    right, and a third part whose file is missing. *)
Definition shifted_parts : list part :=
  [ centred "left" "bar.png" 0;
    mk_part "right" "bar.png" (Float.of_ratio 1 128) Float.zero 1;
    mk_part "ghost" "missing.png" (Float.of_int 50) (Float.of_int 50) 2 ].
Definition shifted_files : gmap string image := {[ "bar.png" := plain 2000 10 (Pixel 9 9 9 255) ]}.

(** A heap holding one RGBA image and one palette image. *)
Definition small_heap : Numpy.heap :=
  [ Numpy.ImageObj (plain 2 2 (Pixel 200 100 50 255));
    Numpy.ImageObj (Image P 2 2 (fun _ _ => Pixel 7 7 7 255)) ].

End Examples.

(** ** Further notions: what the object maps and the hierarchy hold *)

Module Graph.
Import Raster Tint Extractor.

(** The game object, transform and sprite renderer that the last readable
    record of the bundle under path id [id] gives, if any. *)
Definition last_game_object (objs : list raw_object) (id : Z) : option game_object :=
  fold_left (fun acc o =>
               if path_id o =? id then
                 match read o with
                 | Some (GameObjectData n comps active) => Some (GameObject id n comps active)
                 | _ => acc
                 end
               else acc) objs None.

Definition last_transform (objs : list raw_object) (id : Z) : option transform :=
  fold_left (fun acc o =>
               if path_id o =? id then
                 match read o with
                 | Some (TransformData go pos rot scale children father) =>
                     Some (Transform id go pos rot scale children father)
                 | _ => acc
                 end
               else acc) objs None.

Definition last_renderer (objs : list raw_object) (id : Z) : option sprite_renderer :=
  fold_left (fun acc o =>
               if path_id o =? id then
                 match read o with
                 | Some (SpriteRendererData go sprite order col) =>
                     Some (SpriteRenderer id go sprite order col)
                 | _ => acc
                 end
               else acc) objs None.

(** Every key occurs once and each record is stored under its own id. *)
Definition keyed {V} (id_of : V -> Z) (d : Dict.dict V) : Prop :=
  NoDup (Dict.keys d) /\ Forall (fun kv => id_of (snd kv) = fst kv) d.

Definition well_keyed (m : object_maps) : Prop :=
  keyed go_id (game_objects m) /\ keyed t_id (transforms m) /\
  keyed r_id (sprite_renderers m).

(** The joined part [p] is made of the game object, the transform and the
    sprite renderer it names, the latter two owned by the game object. *)
Definition joined_from (m : object_maps) (p : joined_part) : Prop :=
  exists go t r,
    Dict.get (game_objects m) (jp_game_object_id p) = Some go /\
    Dict.get (transforms m) (jp_transform_id p) = Some t /\
    Dict.get (sprite_renderers m) (jp_sprite_renderer_id p) = Some r /\
    t_game_object t = jp_game_object_id p /\ r_game_object r = jp_game_object_id p /\
    jp_name p = go_name go /\ jp_is_active p = go_is_active go /\
    jp_position p = t_local_position t /\
    jp_sorting_order p = r_sorting_order r /\ jp_sprite_id p = r_sprite r /\
    jp_initial_color p = r_color r.

(** A child reference the assembler follows: not null, and a transform
    of the table. *)
Definition resolvable (m : object_maps) (child_id : Z) : bool :=
  negb (child_id =? 0) &&
  match Dict.get (transforms m) child_id with Some _ => true | None => false end.

(** What a node reports of the transform [t]: its game object and the
    name of that object ("Unknown" without one), its position, and
    whether a sprite renderer is owned by the game object, with the
    sorting order of the first such renderer. *)
Definition reports (m : object_maps) (t : transform) (n : node) : Prop :=
  n_game_object_id n = t_game_object t /\
  n_name n = match Dict.get (game_objects m) (t_game_object t) with
             | Some go => go_name go
             | None => "Unknown"
             end /\
  n_position n = t_local_position t /\
  n_has_sprite n = match find_renderer m (t_game_object t) with
                   | Some _ => true
                   | None => false
                   end /\
  n_sorting_order n = match find_renderer m (t_game_object t) with
                      | Some r => r_sorting_order r
                      | None => 0
                      end.

(** A node at depth [level] that reports a transform of the table, with
    one child node per resolvable child reference, in order, each a
    sound node one level deeper. *)
Fixpoint sound_node (m : object_maps) (level : nat) (n : node) {struct n} : Prop :=
  n_level n = level /\
  (exists t, Dict.get (transforms m) (n_transform_id n) = Some t /\
             reports m t n /\
             map n_transform_id (n_children n) = List.filter (resolvable m) (t_children t)) /\
  (fix all (cs : list node) : Prop :=
     match cs with
     | [] => True
     | c :: cs' => sound_node m (S level) c /\ all cs'
     end) (n_children n).

End Graph.

(** ** Further notions: sprites and their files *)

Module Sprites.
Import Raster Tint Extractor.

(** A sprite object that reads and has an image. *)
Definition sprite_with_image (o : raw_object) : bool :=
  match read o with
  | Some (SpriteData _ (Some _)) => true
  | _ => false
  end.

(** Some character of the string is one that [safe_name] replaces. *)
Fixpoint has_unsafe (s : string) : bool :=
  match s with
  | EmptyString => false
  | String c s' => existsb (Nat.eqb (nat_of_ascii c)) unsafe_codes || has_unsafe s'
  end.

(** The directory the extractor writes sprite files to. *)
Definition sprites_dir : string := "extraction/sprites/".

(** A joined part is marked as colour-corrected only if its colour is
    not the default. *)
Definition mark_sound (p : joined_part) : Prop :=
  jp_color_corrected p = true -> is_default_color (jp_initial_color p) = false.

End Sprites.

(** ** Further notions: what the canvas holds *)

Module Canvas.
Import Raster Tint Extractor.

(** Every stored image has 8-bit channels inside its bounds. *)
Definition valid_files (files : gmap string image) : Prop :=
  forall path img, files !! path = Some img ->
  forall i j, 0 <= i < width img -> 0 <= j < height img -> pixel_ok (pixel_at img i j).

(** The pixel that the sprite of a part puts over canvas coordinate
    [(x, y)], if the sprite opens, is placed and reaches there. *)
Definition layer_pixel (files : gmap string image) (custom_colors : option (gmap string color))
    (canvas_size : Z * Z) (p : part) (x y : Z) : option pixel :=
  match Compositor.load_sprite files custom_colors p with
  | None => None
  | Some sprite_img =>
      match Compositor.placement canvas_size p sprite_img with
      | Float.Raise _ => None
      | Float.Ok box =>
          if covers (fst box) (snd box) (width sprite_img) (height sprite_img) x y
          then Some (pixel_at sprite_img (x - fst box) (y - snd box))
          else None
      end
  end.

End Canvas.

(** ** Further notions: the sort key in use *)

Module Order.
Import Raster Tint Extractor.

(** The key the compositor sorts a part by: the override or the sorting
    order when some override is not zero, the sorting order otherwise. *)
Definition key_in_use (custom_depths : option (gmap string Z)) (p : part) : Z :=
  match custom_depths with
  | Some depths =>
      if Compositor.any_value depths then Compositor.depth_or_order depths p
      else sorting_order p
  | None => sorting_order p
  end.

End Order.

(** ** [CharacterExtractor.is_creature_file] and [extract_sprites_only] *)

Module Bundle.
Import Raster Tint Extractor.

Definition slash : ascii := ascii_of_nat 47.

Fixpoint has_slash (s : string) : bool :=
  match s with
  | EmptyString => false
  | String c s' => Ascii.eqb c slash || has_slash s'
  end.

(** [os.path.basename] on a POSIX path: what follows the last slash. *)
Fixpoint basename (path : string) : string :=
  match path with
  | EmptyString => EmptyString
  | String c path' => if has_slash path then basename path' else path
  end.

Definition creature_indicators : list string :=
  ["creature"; "monster"; "enemy"; "animal"; "pet"].

Definition is_creature_file (bundle_path : string) : bool :=
  let filename := Category.lower (basename bundle_path) in
  Category.any_in filename creature_indicators.

(** The mode chosen in the list box, and the mode the extraction runs in. *)
Inductive force_mode : Set := AutoDetect | ForceSpritesOnly | ForceFull.
Inductive extraction_mode : Set := sprites_only | full.

(** The choice made in [start_extraction] and in [main] of [web.py]. *)
Definition choose_mode (force : force_mode) (bundle_path : string) : extraction_mode :=
  match force with
  | ForceSpritesOnly => sprites_only
  | ForceFull => full
  | AutoDetect => if is_creature_file bundle_path then sprites_only else full
  end.

(** An entry of the list [extract_sprites_only] returns. *)
Record sprite_entry : Set := SpriteEntry {
  se_name : string; se_file_path : string; se_path_id : Z; se_size : Z * Z }.

(** The body of the loop over the sprite objects: the image is saved as
    it is and the sprite is listed. *)
Definition save_sprite (st : list sprite_entry * gmap string image) (obj : raw_object)
  : list sprite_entry * gmap string image :=
  match read obj with
  | Some (SpriteData sprite_name (Some img)) =>
      let output_path := sprite_output_path sprite_name in
      (fst st ++ [SpriteEntry sprite_name output_path (path_id obj) (width img, height img)],
       <[output_path := img]> (snd st))
  | _ => st
  end.

Definition extract_sprites_only (files : gmap string image) (all_objects : list raw_object)
  : list sprite_entry * gmap string image :=
  fold_left save_sprite all_objects ([], files).

(** The sprite of a readable sprite object with an image. *)
Definition sprite_of (o : raw_object) : option (string * image) :=
  match read o with
  | Some (SpriteData n (Some img)) => Some (n, img)
  | _ => None
  end.

End Bundle.

(** ** The state kept by [UnityExtractorGUI] and its handlers *)

Module Gui.
Import Raster Tint Extractor.

Inductive channel : Set := R | G | B | A.

(** [color[channel] = value] on a copy of the colour. *)
Definition set_channel (ch : channel) (value : Float.float) (c : color) : color :=
  match ch with
  | R => Color value (cg c) (cb c) (ca c)
  | G => Color (cr c) value (cb c) (ca c)
  | B => Color (cr c) (cg c) value (ca c)
  | A => Color (cr c) (cg c) (cb c) value
  end.

Definition get_channel (ch : channel) (c : color) : Float.float :=
  match ch with R => cr c | G => cg c | B => cb c | A => ca c end.

(** The attributes of the window the handlers read and write;
    [extraction_results] is the part list of a full extraction, [None]
    before any extraction and after a sprites-only one. *)
Record state : Type := State {
  extraction_results : option (list part);
  selected_sprites : list string;
  custom_depths : gmap string Z;
  custom_colors : gmap string color;
  composite_image : option image }.

Definition initial : state := State None [] ∅ ∅ None.

(** [l.remove(n)]: the first occurrence goes. *)
Fixpoint remove_first (n : string) (l : list string) : list string :=
  match l with
  | [] => []
  | x :: l' => if String.eqb x n then l' else x :: remove_first n l'
  end.

(** What [start_extraction] stores after a full extraction. *)
Definition on_full_extraction (parts : list part) (st : state) : state :=
  State (Some parts) [] ∅ ∅ None.

Definition on_sprite_toggle (p : part) (checked : bool) (st : state) : state :=
  let sel := selected_sprites st in
  let sel' :=
    if checked then
      if Compositor.name_in (name p) sel then sel else sel ++ [name p]
    else
      if Compositor.name_in (name p) sel then remove_first (name p) sel else sel in
  State (extraction_results st) sel' (custom_depths st) (custom_colors st) (composite_image st).

(** [entered] is [int(var.get())], [None] when it raises [ValueError]. *)
Definition on_depth_change (p : part) (entered : option Z) (st : state) : state :=
  match entered with
  | Some new_depth =>
      State (extraction_results st) (selected_sprites st)
            (<[name p := new_depth]> (custom_depths st)) (custom_colors st)
            (composite_image st)
  | None => st
  end.

Definition on_color_change (p : part) (ch : channel) (value : Float.float) (st : state)
  : state :=
  let current :=
    match custom_colors st !! name p with
    | Some c => c
    | None => initial_color p
    end in
  State (extraction_results st) (selected_sprites st) (custom_depths st)
        (<[name p := set_channel ch value current]> (custom_colors st)) (composite_image st).

Definition reset_part_color (p : part) (st : state) : state :=
  State (extraction_results st) (selected_sprites st) (custom_depths st)
        (delete (name p) (custom_colors st)) (composite_image st).

Definition reset_colors (st : state) : state :=
  State (extraction_results st) (selected_sprites st) (custom_depths st) ∅ (composite_image st).

Definition select_all (st : state) : state :=
  match extraction_results st with
  | Some parts =>
      State (extraction_results st) (map name parts) (custom_depths st) (custom_colors st)
            (composite_image st)
  | None => st
  end.

Definition deselect_all (st : state) : state :=
  State (extraction_results st) [] (custom_depths st) (custom_colors st) (composite_image st).

Definition reset_depths (st : state) : state :=
  State (extraction_results st) (selected_sprites st) ∅ (custom_colors st) (composite_image st).

(** [generate_composite]: nothing is rendered without a part list or
    without a selection; what the render raises is caught and reported,
    and the window keeps the image it had. *)
Definition generate_composite (files : gmap string image) (st : state) : state :=
  match extraction_results st with
  | None => st
  | Some parts =>
      if Compositor.is_empty (selected_sprites st) then st
      else
        match Compositor.create_composite_image files parts (Some (selected_sprites st))
                (Some (custom_depths st)) (Some (custom_colors st)) with
        | Float.Raise _ => st
        | Float.Ok composite =>
            State (extraction_results st) (selected_sprites st) (custom_depths st)
                  (custom_colors st) composite
        end
  end.

End Gui.

(** ** The category frames of the selection tab ([setup_sprite_selection],
    and the expanders of [main] in [web.py]) *)

Module Grouping.
Import Extractor.

(** [categories]: a dict from the category string to the parts filed
    under it, in insertion order. *)
Definition groups : Type := list (string * list part).

Definition key_of (p : part) : string := Category.category_name (category p).

(** [if category not in categories: categories[category] = []]
    followed by [categories[category].append(part)]. *)
Fixpoint file_part (p : part) (g : groups) : groups :=
  match g with
  | [] => [(key_of p, [p])]
  | (k, ps) :: g' =>
      if String.eqb k (key_of p) then (k, ps ++ [p]) :: g' else (k, ps) :: file_part p g'
  end.

Definition group_by_category (transform_data : list part) : groups :=
  fold_left (fun g p => file_part p g) transform_data [].

(** The parts of [transform_data] filed under the key [k]. *)
Definition filed_under (k : string) (transform_data : list part) : list part :=
  List.filter (fun p => String.eqb k (key_of p)) transform_data.

(** The state of [categories] after the parts of [l] are filed. *)
Definition filed (g : groups) (l : list part) : Prop :=
  NoDup (map fst g) /\
  (forall k ps, In (k, ps) g -> ps <> [] /\ ps = filed_under k l) /\
  (forall p, In p l -> In (key_of p) (map fst g)).

End Grouping.

(** ** [extract_character_parts] called with a progress callback, as the
    window calls it *)

Module Progress.
Import Raster Tint Extractor.

Inductive exception : Set := Recursion | UnboundLocal.

Inductive call_result (A : Type) : Type :=
  | Returns (a : A)
  | Raises (e : exception).
Arguments Returns {A} a.
Arguments Raises {A} e.

(** An entry of [sprite_objects] that reads. *)
Definition is_sprite (obj : raw_object) : bool :=
  match read obj with
  | Some (SpriteData _ _) => true
  | _ => false
  end.

Definition first_sprite (all_objects : list raw_object) : option raw_object :=
  List.find is_sprite all_objects.

(** The sprite loop with its local [output_path], unbound ([None]) until
    a sprite with an image is met, and the file names sent to the
    callback. *)
Record loop_state : Type := LoopState {
  ls_sprites : sprite_state;
  ls_output_path : option string;
  ls_reported : list string }.

(** One iteration: an object that does not read leaves the loop body by
    [continue]; otherwise the callback is sent
    [os.path.basename(output_path)] after the [try] block. *)
Definition extract_sprite (st : loop_state) (obj : raw_object) : call_result loop_state :=
  match read obj with
  | Some (SpriteData sprite_name sprite_image) =>
      let output_path :=
        match sprite_image with
        | Some _ => Some (sprite_output_path sprite_name)
        | None => ls_output_path st
        end in
      match output_path with
      | Some path =>
          Returns (LoopState (Extractor.extract_sprite (ls_sprites st) obj) output_path
                             (ls_reported st ++ [Bundle.basename path]))
      | None => Raises UnboundLocal
      end
  | _ => Returns st
  end.

Fixpoint sprite_loop (objs : list raw_object) (st : loop_state) : call_result loop_state :=
  match objs with
  | [] => Returns st
  | obj :: objs' =>
      match extract_sprite st obj with
      | Returns st' => sprite_loop objs' st'
      | Raises e => Raises e
      end
  end.

(** The result, the files and the file names reported. *)
Definition extract_character_parts (fuel : nat) (files : gmap string image)
    (all_objects : list raw_object)
  : call_result (extraction_results * gmap string image * list string) :=
  let m := build_object_maps all_objects in
  let joined := join_components m in
  match assemble_hierarchy m fuel with
  | RecursionError => Raises Recursion
  | Done hierarchy =>
      match sprite_loop all_objects (LoopState (SpriteState joined ∅ files) None []) with
      | Raises e => Raises e
      | Returns ls =>
          let st := ls_sprites ls in
          let parts := flat_map (emit_part (st_mapping st)) (st_parts st) in
          Returns (ExtractionResults [] hierarchy (st_mapping st) parts, st_files st,
                   ls_reported ls)
      end
  end.

End Progress.

(** * Properties *)

(** ** Floating-point numbers *)

Section floats.
Import SpecFloat Float.

(** Dropping the fractional part rounds towards zero. *)
Lemma truncate_truncated (v : Q) : Spec.truncated v (truncate v).
Proof.
  destruct v as [n d]. unfold Spec.truncated, truncate, Qle, Qlt. simpl.
  pose proof (Z.quot_rem' n (Zpos d)) as Hqr.
  pose proof (Pos2Z.is_pos d) as Hd.
  split; intros Hn.
  - assert (0 <= n) by lia.
    pose proof (Z.rem_bound_pos n (Zpos d)). nia.
  - assert (n <= 0) by lia.
    pose proof (Z.rem_nonpos n (Zpos d)).
    pose proof (Z.rem_bound_abs n (Zpos d)). nia.
Qed.

Lemma truncate_nonneg (v : Q) (n : Z) :
  (0 <= v)%Q -> (v <= inject_Z n)%Q -> 0 <= truncate v <= n.
Proof.
  destruct v as [a d]. unfold truncate, Qle. simpl. intros Ha Hn.
  assert (0 <= a) by lia.
  pose proof (Z.quot_rem' a (Zpos d)). pose proof (Z.rem_bound_pos a (Zpos d)).
  pose proof (Pos2Z.is_pos d). split; [apply Z.quot_pos; lia|nia].
Qed.

Lemma place_finite (x : float) : is_finite x = true -> place x = Some (0, value x).
Proof. now destruct x as [s|s| |s m e]. Qed.

Lemma place_is_finite (x : float) (v : Q) : place x = Some (0, v) -> is_finite x = true.
Proof. now destruct x as [s|[|]| |s m e]. Qed.

Lemma ltb_iff (x y : float) :
  ltb x y = true <-> exists p q, place x = Some p /\ place y = Some q /\ place_lt p q.
Proof.
  unfold ltb, compare, place_lt.
  destruct (place x) as [[a v]|]; [|split; [discriminate|now intros (p & q & [=] & _)]].
  destruct (place y) as [[b w]|]; [|split; [discriminate|now intros (p & q & _ & [=] & _)]].
  simpl. destruct (Z.compare_spec a b) as [Heq|Hlt|Hgt].
  - destruct (Qcompare_spec v w) as [He|Hl|Hg].
    + split; [discriminate|]. intros (p & q & [= <-] & [= <-] & [H|[_ H]]); simpl in H; [lia|].
      rewrite He in H. now apply Qlt_irrefl in H.
    + split; [|reflexivity]. intros _. exists (a, v), (b, w). simpl. auto.
    + split; [discriminate|]. intros (p & q & [= <-] & [= <-] & [H|[_ H]]); simpl in H; [lia|].
      exfalso. apply (Qlt_irrefl v). now apply Qlt_trans with w.
  - split; [|reflexivity]. intros _. exists (a, v), (b, w). simpl. auto.
  - split; [discriminate|]. intros (p & q & [= <-] & [= <-] & [H|[H _]]); simpl in H; lia.
Qed.

Lemma leb_iff (x y : float) :
  leb x y = true <-> exists p q, place x = Some p /\ place y = Some q /\ place_le p q.
Proof.
  unfold leb, compare, place_le.
  destruct (place x) as [[a v]|]; [|split; [discriminate|now intros (p & q & [=] & _)]].
  destruct (place y) as [[b w]|]; [|split; [discriminate|now intros (p & q & _ & [=] & _)]].
  simpl. destruct (Z.compare_spec a b) as [Heq|Hlt|Hgt].
  - destruct (Qcompare_spec v w) as [He|Hl|Hg].
    + split; [|reflexivity]. intros _. exists (a, v), (b, w). simpl.
      split; [reflexivity|]. split; [reflexivity|]. right. split; [exact Heq|].
      rewrite He. apply Qle_refl.
    + split; [|reflexivity]. intros _. exists (a, v), (b, w). simpl.
      split; [reflexivity|]. split; [reflexivity|]. right. split; [exact Heq|].
      now apply Qlt_le_weak.
    + split; [discriminate|]. intros (p & q & [= <-] & [= <-] & [H|[_ H]]); simpl in H; [lia|].
      exfalso. apply (Qlt_irrefl v). now apply Qle_lt_trans with w.
  - split; [|reflexivity]. intros _. exists (a, v), (b, w). simpl. auto.
  - split; [discriminate|]. intros (p & q & [= <-] & [= <-] & [H|[H _]]); simpl in H; lia.
Qed.

Lemma eqb_iff (x y : float) :
  eqb x y = true <->
  exists p q, place x = Some p /\ place y = Some q /\ fst p = fst q /\ (snd p == snd q)%Q.
Proof.
  unfold eqb, compare.
  destruct (place x) as [[a v]|]; [|split; [discriminate|now intros (p & q & [=] & _)]].
  destruct (place y) as [[b w]|]; [|split; [discriminate|now intros (p & q & _ & [=] & _)]].
  simpl. destruct (Z.compare_spec a b) as [Heq|Hlt|Hgt].
  - destruct (Qcompare_spec v w) as [He|Hl|Hg].
    + split; [|reflexivity]. intros _. exists (a, v), (b, w). simpl. auto.
    + split; [discriminate|]. intros (p & q & [= <-] & [= <-] & _ & H); simpl in H.
      rewrite H in Hl. now apply Qlt_irrefl in Hl.
    + split; [discriminate|]. intros (p & q & [= <-] & [= <-] & _ & H); simpl in H.
      rewrite H in Hg. now apply Qlt_irrefl in Hg.
  - split; [discriminate|]. intros (p & q & [= <-] & [= <-] & H & _); simpl in H; lia.
  - split; [discriminate|]. intros (p & q & [= <-] & [= <-] & H & _); simpl in H; lia.
Qed.

Lemma place_lt_le (p q : Z * Q) : place_lt p q -> place_le p q.
Proof. intros [H|[H1 H2]]; [now left|right; split; [exact H1|now apply Qlt_le_weak]]. Qed.

Lemma place_lt_le_trans (p q r : Z * Q) : place_lt p q -> place_le q r -> place_lt p r.
Proof.
  unfold place_lt, place_le. intros [H|[H1 H2]] [H'|[H1' H2']]; try (left; lia).
  right. split; [lia|]. now apply Qlt_le_trans with (snd q).
Qed.

Lemma place_le_lt_trans (p q r : Z * Q) : place_le p q -> place_lt q r -> place_lt p r.
Proof.
  unfold place_lt, place_le. intros [H|[H1 H2]] [H'|[H1' H2']]; try (left; lia).
  right. split; [lia|]. now apply Qle_lt_trans with (snd q).
Qed.

Lemma place_le_trans (p q r : Z * Q) : place_le p q -> place_le q r -> place_le p r.
Proof.
  unfold place_le. intros [H|[H1 H2]] [H'|[H1' H2']]; try (left; lia).
  right. split; [lia|]. now apply Qle_trans with (snd q).
Qed.

Lemma place_lt_asym (p q : Z * Q) : place_lt p q -> ~ place_le q p.
Proof.
  unfold place_lt, place_le. intros [H|[H1 H2]] [H'|[H1' H2']]; try lia.
  apply (Qlt_irrefl (snd p)). now apply Qlt_le_trans with (snd q).
Qed.

Lemma place_total (p q : Z * Q) : place_lt p q \/ place_le q p.
Proof.
  unfold place_lt, place_le. destruct (Z.lt_trichotomy (fst p) (fst q)) as [H|[H|H]]; auto.
  destruct (Qlt_le_dec (snd p) (snd q)); auto.
Qed.

(** [x < y] excludes [y <= x]; without NaN one of the two holds. *)
Lemma ltb_not_leb (x y : float) : ltb x y = true -> leb y x = false.
Proof.
  intros (p & q & Hp & Hq & H)%ltb_iff. destruct (leb y x) eqn:Hle; [|reflexivity].
  apply leb_iff in Hle as (q' & p' & Hq' & Hp' & H'). rewrite Hp in Hp'. rewrite Hq in Hq'.
  injection Hp' as <-. injection Hq' as <-. now apply place_lt_asym in H.
Qed.

Lemma not_ltb_leb (x y : float) :
  is_nan x = false -> is_nan y = false -> ltb x y = false -> leb y x = true.
Proof.
  intros Hx Hy Hlt.
  assert (Hp : exists p, place x = Some p) by (destruct x as [s|[|]| |s m e]; eauto; discriminate).
  assert (Hq : exists q, place y = Some q) by (destruct y as [s|[|]| |s m e]; eauto; discriminate).
  destruct Hp as [p Hp], Hq as [q Hq]. apply leb_iff. exists q, p.
  split; [exact Hq|]. split; [exact Hp|].
  destruct (place_total p q) as [H|H]; [|exact H].
  assert (ltb x y = true) by (apply ltb_iff; eauto). congruence.
Qed.

Lemma ltb_leb (x y : float) : ltb x y = true -> leb x y = true.
Proof.
  intros (p & q & Hp & Hq & H)%ltb_iff. apply leb_iff. exists p, q. auto using place_lt_le.
Qed.

Lemma leb_trans (x y z : float) : leb x y = true -> leb y z = true -> leb x z = true.
Proof.
  intros (p & q & Hp & Hq & H)%leb_iff (q' & r & Hq' & Hr & H')%leb_iff.
  rewrite Hq in Hq'. injection Hq' as <-. apply leb_iff. exists p, r.
  eauto using place_le_trans.
Qed.

Lemma ltb_leb_trans (x y z : float) : ltb x y = true -> leb y z = true -> ltb x z = true.
Proof.
  intros (p & q & Hp & Hq & H)%ltb_iff (q' & r & Hq' & Hr & H')%leb_iff.
  rewrite Hq in Hq'. injection Hq' as <-. apply ltb_iff. exists p, r.
  eauto using place_lt_le_trans.
Qed.

Lemma leb_ltb_trans (x y z : float) : leb x y = true -> ltb y z = true -> ltb x z = true.
Proof.
  intros (p & q & Hp & Hq & H)%leb_iff (q' & r & Hq' & Hr & H')%ltb_iff.
  rewrite Hq in Hq'. injection Hq' as <-. apply ltb_iff. exists p, r.
  eauto using place_le_lt_trans.
Qed.

Lemma leb_refl (x : float) : is_nan x = false -> leb x x = true.
Proof.
  intros Hx. apply leb_iff.
  assert (Hp : exists p, place x = Some p) by (destruct x as [s|[|]| |s m e]; eauto; discriminate).
  destruct Hp as [p Hp]. exists p, p. split; [exact Hp|]. split; [exact Hp|].
  right. split; [reflexivity|apply Qle_refl].
Qed.

Lemma finite_not_nan (x : float) : is_finite x = true -> is_nan x = false.
Proof. now destruct x. Qed.

(** A number lies strictly between the two infinities. *)
Lemma finite_below_infinity (x : float) : is_finite x = true -> ltb x infinity = true.
Proof.
  intros Hx. apply ltb_iff. exists (0, value x), (1, 0%Q).
  split; [now apply place_finite|]. split; [reflexivity|]. left. simpl. lia.
Qed.

Lemma finite_above_neg_infinity (x : float) : is_finite x = true -> ltb neg_infinity x = true.
Proof.
  intros Hx. apply ltb_iff. exists (-1, 0%Q), (0, value x).
  split; [reflexivity|]. split; [now apply place_finite|]. left. simpl. lia.
Qed.

Lemma finite_not_infinity (x : float) : is_finite x = true -> eqb x infinity = false.
Proof.
  intros Hx. destruct (eqb x infinity) eqn:He; [|reflexivity].
  apply eqb_iff in He as (p & q & Hp & Hq & H & _).
  rewrite place_finite in Hp by exact Hx. injection Hp as <-. injection Hq as <-.
  discriminate H.
Qed.

(** Comparisons of numbers are comparisons of their values. *)
Lemma ltb_value (x y : float) :
  is_finite x = true -> is_finite y = true -> (ltb x y = true <-> (value x < value y)%Q).
Proof.
  intros Hx Hy. rewrite ltb_iff. split.
  - intros (p & q & Hp & Hq & H). rewrite place_finite in Hp, Hq by assumption.
    injection Hp as <-. injection Hq as <-. destruct H as [H|[_ H]]; [simpl in H; lia|exact H].
  - intros H. exists (0, value x), (0, value y). rewrite !place_finite by assumption.
    split; [reflexivity|]. split; [reflexivity|]. right. now split.
Qed.

Lemma leb_value (x y : float) :
  is_finite x = true -> is_finite y = true -> (leb x y = true <-> (value x <= value y)%Q).
Proof.
  intros Hx Hy. rewrite leb_iff. split.
  - intros (p & q & Hp & Hq & H). rewrite place_finite in Hp, Hq by assumption.
    injection Hp as <-. injection Hq as <-. destruct H as [H|[_ H]]; [simpl in H; lia|exact H].
  - intros H. exists (0, value x), (0, value y). rewrite !place_finite by assumption.
    split; [reflexivity|]. split; [reflexivity|]. right. now split.
Qed.

(** [int] returns on the numbers, and only on them. *)
Lemma py_int_finite (x : float) :
  is_finite x = true -> py_int x = Ok (truncate (value x)).
Proof. now destruct x. Qed.

Lemma py_int_not_finite (x : float) : is_finite x = false -> exists e, py_int x = Raise e.
Proof. destruct x; try discriminate; simpl; eauto. Qed.

(** *** Agreement with the comparison of IEEE 754 *)


Lemma pow2_succ (d : Z) : 0 < d -> 2 ^ d = 2 * 2 ^ (d - 1).
Proof.
  intros Hd. replace d with (Z.succ (d - 1)) at 1 by lia. apply Z.pow_succ_r. lia.
Qed.

(** A mantissa of [d] binary digits lies between [2 ^ (d - 1)] and
    [2 ^ d]. *)
Lemma digits2_pos_bounds (m : positive) :
  2 ^ (Zpos (digits2_pos m) - 1) <= Zpos m < 2 ^ Zpos (digits2_pos m).
Proof.
  induction m as [m IH|m IH|]; simpl digits2_pos; [| |simpl; lia].
  - rewrite Pos2Z.inj_succ, (Pos2Z.inj_xI m).
    pose proof (Pos2Z.is_pos (digits2_pos m)) as Hd.
    remember (Zpos (digits2_pos m)) as d eqn:Ed. clear Ed.
    remember (Zpos m) as z eqn:Ez. clear Ez.
    assert (Hs : 2 ^ Z.succ d = 2 * 2 ^ d) by (apply Z.pow_succ_r; lia).
    replace (Z.succ d - 1) with d by lia. rewrite Hs.
    rewrite (pow2_succ d Hd) in *. lia.
  - rewrite Pos2Z.inj_succ, (Pos2Z.inj_xO m).
    pose proof (Pos2Z.is_pos (digits2_pos m)) as Hd.
    remember (Zpos (digits2_pos m)) as d eqn:Ed. clear Ed.
    remember (Zpos m) as z eqn:Ez. clear Ez.
    assert (Hs : 2 ^ Z.succ d = 2 * 2 ^ d) by (apply Z.pow_succ_r; lia).
    replace (Z.succ d - 1) with d by lia. rewrite Hs.
    rewrite (pow2_succ d Hd) in *. lia.
Qed.

(** Numerator and denominator of the value of a finite float. *)
Lemma value_fraction (s : bool) (m : positive) (e : Z) :
  Qnum (value (S754_finite s m e)) = (if s then Zneg m else Zpos m) * 2 ^ Z.max e 0 /\
  Zpos (Qden (value (S754_finite s m e))) = 2 ^ Z.max (- e) 0.
Proof.
  destruct e as [|k|k]; [split; reflexivity|split; reflexivity|].
  split.
  - change (Qnum (value (S754_finite s m (Zneg k)))) with (if s then Zneg m else Zpos m).
    change (2 ^ Z.max (Zneg k) 0) with 1. now rewrite Z.mul_1_r.
  - change (Zpos (Qden (value (S754_finite s m (Zneg k))))) with (Zpos (2 ^ k)).
    change (Z.max (- Zneg k) 0) with (Zpos k). now rewrite Pos2Z.inj_pow.
Qed.

(** The values of two finite floats compare as their signed mantissas
    do once brought to the smaller exponent. *)
Lemma value_compare (s1 s2 : bool) (m1 m2 : positive) (e1 e2 : Z) :
  (value (S754_finite s1 m1 e1) ?= value (S754_finite s2 m2 e2))%Q =
  ((if s1 then Zneg m1 else Zpos m1) * 2 ^ (e1 - Z.min e1 e2) ?=
   (if s2 then Zneg m2 else Zpos m2) * 2 ^ (e2 - Z.min e1 e2)).
Proof.
  unfold Qcompare.
  destruct (value_fraction s1 m1 e1) as [-> ->].
  destruct (value_fraction s2 m2 e2) as [-> ->].
  set (g := Z.max (- e1) 0 + Z.max (- e2) 0 + Z.min e1 e2).
  assert (Hg : 2 ^ g > 0) by (apply Z.lt_gt, Z.pow_pos_nonneg; lia).
  rewrite (Zmult_compare_compat_r
             ((if s1 then Zneg m1 else Zpos m1) * 2 ^ (e1 - Z.min e1 e2))
             ((if s2 then Zneg m2 else Zpos m2) * 2 ^ (e2 - Z.min e1 e2)) (2 ^ g) Hg).
  rewrite <- !Z.mul_assoc, <- !Z.pow_add_r by lia.
  replace (Z.max e1 0 + Z.max (- e2) 0) with (e1 - Z.min e1 e2 + g) by lia.
  replace (Z.max e2 0 + Z.max (- e1) 0) with (e2 - Z.min e1 e2 + g) by lia.
  reflexivity.
Qed.

(** Of two canonical mantissas, the one with the larger exponent stands
    for the larger number. *)
Lemma bounded_exponent_order (prec emax : Z) (m1 m2 : positive) (e1 e2 : Z) :
  bounded prec emax m1 e1 = true -> bounded prec emax m2 e2 = true -> e1 < e2 ->
  Zpos m1 < Zpos m2 * 2 ^ (e2 - e1).
Proof.
  unfold bounded, canonical_mantissa, fexp. intros H1 H2 He.
  apply andb_prop in H1 as [H1 _]. apply andb_prop in H2 as [H2 _].
  apply Z.eqb_eq in H1, H2.
  pose proof (digits2_pos_bounds m1) as [_ Hm1].
  pose proof (digits2_pos_bounds m2) as [Hm2 _].
  pose proof (Pos2Z.is_pos (digits2_pos m1)) as Hd1.
  assert (Hd2 : Zpos (digits2_pos m2) = prec) by lia.
  assert (Hle : 2 ^ Zpos (digits2_pos m1) <= 2 ^ prec) by (apply Z.pow_le_mono_r; lia).
  assert (Hp : 2 ^ prec = 2 * 2 ^ (prec - 1)) by (apply pow2_succ; lia).
  assert (Ht : 2 ^ 1 <= 2 ^ (e2 - e1)) by (apply Z.pow_le_mono_r; lia).
  rewrite Hd2 in Hm2. change (2 ^ 1) with 2 in Ht.
  assert (0 < 2 ^ (prec - 1)) by (apply Z.pow_pos_nonneg; lia).
  nia.
Qed.

(** The sign of a finite float that is not a zero is the sign of its
    value. *)
Lemma value_sign (s : bool) (m : positive) (e : Z) :
  (value (S754_finite s m e) ?= 0)%Q = (if s then Lt else Gt) /\
  (0 ?= value (S754_finite s m e))%Q = (if s then Gt else Lt).
Proof.
  unfold Qcompare. destruct (value_fraction s m e) as [-> _]. simpl Qnum. simpl Qden.
  assert (0 < 2 ^ Z.max e 0) by (apply Z.pow_pos_nonneg; lia).
  pose proof (Pos2Z.is_pos m).
  rewrite Z.mul_1_r, !Z.mul_0_l.
  destruct s; change (Zneg m) with (- Zpos m); split;
    first [apply Z.compare_lt_iff; nia | apply Z.compare_gt_iff; nia].
Qed.

(** On the numbers of a format, the comparison by value is the
    comparison the Standard Library specifies for IEEE 754. *)
Lemma compare_SFcompare (prec emax : Z) (x y : float) :
  valid_binary prec emax x = true -> valid_binary prec emax y = true ->
  compare x y = SFcompare x y.
Proof.
  destruct x as [s1|[|]| |s1 m1 e1], y as [s2|[|]| |s2 m2 e2]; try reflexivity;
    try (now destruct s1); try (now destruct s2).
  - intros _ _. unfold compare. cbv [place]. change (0 ?= 0) with Eq. cbv iota.
    change (value (S754_zero s1)) with 0%Q.
    now rewrite (proj2 (value_sign s2 m2 e2)).
  - intros _ _. unfold compare. cbv [place]. change (0 ?= 0) with Eq. cbv iota.
    change (value (S754_zero s2)) with 0%Q.
    now rewrite (proj1 (value_sign s1 m1 e1)).
  - simpl valid_binary. intros H1 H2.
    unfold compare. cbv [place]. change (0 ?= 0) with Eq. cbv iota.
    rewrite value_compare. unfold SFcompare. f_equal.
    destruct (Z.compare_spec e1 e2) as [->|He|He].
    + rewrite Z.min_id, Z.sub_diag, !Z.mul_1_r.
      now destruct s1, s2.
    + replace (Z.min e1 e2) with e1 by lia. rewrite Z.sub_diag, Z.mul_1_r.
      pose proof (bounded_exponent_order prec emax m1 m2 e1 e2 H1 H2 He) as Hlt.
      assert (0 < 2 ^ (e2 - e1)) by (apply Z.pow_pos_nonneg; lia).
      pose proof (Pos2Z.is_pos m1). pose proof (Pos2Z.is_pos m2).
      destruct s1, s2; change (Zneg m1) with (- Zpos m1); change (Zneg m2) with (- Zpos m2);
        first [apply Z.compare_lt_iff; nia | apply Z.compare_gt_iff; nia].
    + replace (Z.min e1 e2) with e2 by lia. rewrite Z.sub_diag, Z.mul_1_r.
      pose proof (bounded_exponent_order prec emax m2 m1 e2 e1 H2 H1 He) as Hlt.
      assert (0 < 2 ^ (e1 - e2)) by (apply Z.pow_pos_nonneg; lia).
      pose proof (Pos2Z.is_pos m1). pose proof (Pos2Z.is_pos m2).
      destruct s1, s2; change (Zneg m1) with (- Zpos m1); change (Zneg m2) with (- Zpos m2);
        first [apply Z.compare_lt_iff; nia | apply Z.compare_gt_iff; nia].
Qed.

Lemma ltb_SFltb (prec emax : Z) (x y : float) :
  valid_binary prec emax x = true -> valid_binary prec emax y = true ->
  ltb x y = SFltb x y /\ leb x y = SFleb x y /\ eqb x y = SFeqb x y.
Proof.
  intros Hx Hy. unfold ltb, leb, eqb, SFltb, SFleb, SFeqb.
  now rewrite (compare_SFcompare prec emax x y Hx Hy).
Qed.

End floats.
(** ** Categories *)

Section categories.
Import Category.

Lemma lower_ascii_idempotent (c : ascii) : lower_ascii (lower_ascii c) = lower_ascii c.
Proof. destruct c as [[] [] [] [] [] [] [] []]; reflexivity. Qed.

Lemma lower_idempotent (s : string) : lower (lower s) = lower s.
Proof.
  induction s as [|c s IH]; simpl; [reflexivity|].
  now rewrite lower_ascii_idempotent, IH.
Qed.

Lemma categorize_part_refines_rules (part_name : string) :
  categorize_part part_name = spec_categorize part_name.
Proof.
  unfold categorize_part, spec_categorize.
  cbn [first_match spec_rules any_in existsb].
  rewrite !orb_false_r. reflexivity.
Qed.

(** C9. [categorize_part] is the first-match evaluation of the
    specification's priority-ordered keyword table on the lower-cased
    name, so the category depends on the name alone and not on its
    letter case; "LeftArm_Shadow" is [arm_left], "EyeBrow" is [eyes] and
    "XYZ" is [other]. *)
Theorem categorize_part_priority_rules :
  (forall part_name, categorize_part part_name = spec_categorize part_name) /\
  (forall part_name, categorize_part (lower part_name) = categorize_part part_name) /\
  categorize_part "LeftArm_Shadow" = arm_left /\
  categorize_part "EyeBrow" = eyes /\
  categorize_part "XYZ" = other.
Proof.
  split; [exact categorize_part_refines_rules|].
  split; [|repeat split; reflexivity].
  intros part_name. unfold categorize_part. now rewrite lower_idempotent.
Qed.

End categories.

(** ** Depth sorting *)

Section sorting.
Import Raster Tint Extractor Compositor.
Context {A : Type} (key : A -> Z).

Lemma insert_by_perm (x : A) (l : list A) : Permutation (x :: l) (insert_by key x l).
Proof.
  induction l as [|y l IH]; simpl; [reflexivity|].
  destruct (key x <=? key y); [reflexivity|].
  rewrite perm_swap. now constructor.
Qed.

Lemma py_sorted_perm (l : list A) : Permutation l (py_sorted key l).
Proof.
  induction l as [|x l IH]; simpl; [reflexivity|].
  rewrite <- insert_by_perm. now constructor.
Qed.

Lemma insert_by_sorted (x : A) (l : list A) :
  StronglySorted (fun a b => key a <= key b) l ->
  StronglySorted (fun a b => key a <= key b) (insert_by key x l).
Proof.
  induction 1 as [|y l Hs IH Hy]; simpl.
  - repeat constructor.
  - destruct (Z.leb_spec (key x) (key y)) as [Hle|Hgt].
    + constructor; [now constructor|].
      constructor; [exact Hle|].
      eapply Forall_impl; [exact Hy|]. simpl. intros; lia.
    + constructor; [exact IH|].
      rewrite <- insert_by_perm. constructor; [lia|exact Hy].
Qed.

Lemma py_sorted_sorted (l : list A) :
  StronglySorted (fun a b => key a <= key b) (py_sorted key l).
Proof.
  induction l as [|x l IH]; simpl; [constructor|].
  now apply insert_by_sorted.
Qed.

(** In a sorted list, inserting [x] leaves the elements of any one key
    in their order, with [x] first among those of its own key. *)
Lemma insert_by_filter (x : A) (l : list A) (k : Z) :
  StronglySorted (fun a b => key a <= key b) l ->
  List.filter (fun a => key a =? k) (insert_by key x l) =
  List.filter (fun a => key a =? k) (x :: l).
Proof.
  induction 1 as [|y l Hs IH Hy]; [reflexivity|].
  cbn [insert_by].
  destruct (Z.leb_spec (key x) (key y)) as [Hle|Hgt]; [reflexivity|].
  cbn [List.filter] in *. rewrite IH.
  destruct (Z.eqb_spec (key x) k) as [Hx|Hx], (Z.eqb_spec (key y) k) as [Hyk|Hyk];
    try reflexivity.
  lia.
Qed.

Lemma py_sorted_stable (l : list A) (k : Z) :
  List.filter (fun a => key a =? k) (py_sorted key l) =
  List.filter (fun a => key a =? k) l.
Proof.
  induction l as [|x l IH]; [reflexivity|].
  cbn [py_sorted]. rewrite insert_by_filter by apply py_sorted_sorted.
  cbn [List.filter]. now rewrite IH.
Qed.

End sorting.

Section depth_order.
Import Raster Tint Extractor Compositor.

Lemma any_value_empty : any_value ∅ = false.
Proof. unfold any_value. now rewrite map_to_list_empty. Qed.

(** Whenever some override is not zero, or there is no override at all,
    the painting order is the stable ascending sort of the selected parts
    by effective depth. *)
Lemma sorted_parts_effective_depth (sprite_data : list part) (selected_sprites : list string)
    (depths : gmap string Z) :
  any_value depths = true \/ depths = ∅ ->
  let chosen := List.filter (fun p => name_in (name p) selected_sprites) sprite_data in
  let painted := sorted_parts sprite_data selected_sprites (Some depths) in
  Spec.depth_ordered depths painted /\
  Permutation chosen painted /\
  forall k, List.filter (fun p => Spec.effective_depth depths p =? k) painted =
            List.filter (fun p => Spec.effective_depth depths p =? k) chosen.
Proof.
  intros Hgate chosen painted.
  assert (Hp : painted = py_sorted (Spec.effective_depth depths) chosen).
  { unfold painted, sorted_parts. fold chosen.
    destruct Hgate as [-> | ->].
    - f_equal.
    - rewrite any_value_empty. reflexivity. }
  rewrite Hp. split; [apply py_sorted_sorted|].
  split; [apply py_sorted_perm|]. intros k. apply py_sorted_stable.
Qed.

(** C1 (evaluation at the failing input). With the single override
    [{"a": 0}] the test [any(custom_depths.values())] is false, the
    overrides are ignored and "b" (sorting order 3) is painted before "a"
    (sorting order 5, effective depth 0): the painting order is not
    ascending in the effective depth. *)
Theorem zero_override_not_applied :
  map name (sorted_parts [Examples.part_a; Examples.part_b] ["a"; "b"]
              (Some Examples.zero_override)) = ["b"; "a"] /\
  Spec.effective_depth Examples.zero_override Examples.part_a = 0 /\
  Spec.effective_depth Examples.zero_override Examples.part_b = 3 /\
  ~ Spec.depth_ordered Examples.zero_override
      (sorted_parts [Examples.part_a; Examples.part_b] ["a"; "b"]
         (Some Examples.zero_override)).
Proof.
  assert (He : sorted_parts [Examples.part_a; Examples.part_b] ["a"; "b"]
                 (Some Examples.zero_override) = [Examples.part_b; Examples.part_a])
    by reflexivity.
  rewrite He. repeat split; try reflexivity.
  intros Hs. apply StronglySorted_inv in Hs as [_ Hall].
  apply Forall_inv in Hall. vm_compute in Hall. now apply Hall.
Qed.

End depth_order.

(** ** Hierarchy assembly *)

Section hierarchy.
Import Raster Tint Extractor.

Lemma dict_get_In {V} (d : Dict.dict V) (k : Z) (v : V) :
  Dict.get d k = Some v -> In (k, v) d.
Proof.
  induction d as [|[k' v'] d IH]; simpl; [discriminate|].
  destruct (Z.eqb_spec k' k) as [->|]; [intros [= ->]; now left|].
  intros H; right; now apply IH.
Qed.

(** The child loop only depends on what the recursive calls return. *)
Lemma dict_set_keys {V} (d : Dict.dict V) (k : Z) (v : V) :
  Dict.keys (Dict.set d k v) = if bool_decide (k ∈ Dict.keys d) then Dict.keys d else Dict.keys d ++ [k].
Proof.
  induction d as [|[k' v'] d IH]; simpl; [reflexivity|].
  destruct (Z.eqb_spec k' k) as [->|Hne]; simpl.
  - rewrite bool_decide_eq_true_2; [reflexivity|constructor].
  - rewrite IH. unfold Dict.keys. destruct (bool_decide_reflect (k ∈ map fst d)) as [Hin|Hin].
    + rewrite bool_decide_eq_true_2; [reflexivity|now constructor].
    + rewrite bool_decide_eq_false_2; [reflexivity|].
      rewrite elem_of_cons. intros [->|?]; congruence.
Qed.

Lemma dict_set_NoDup {V} (d : Dict.dict V) (k : Z) (v : V) :
  NoDup (Dict.keys d) -> NoDup (Dict.keys (Dict.set d k v)).
Proof.
  intros Hd. rewrite dict_set_keys. destruct (bool_decide_reflect (k ∈ Dict.keys d)) as [|Hin]; [exact Hd|].
  apply NoDup_app. split; [exact Hd|]. split; [|apply NoDup_singleton].
  intros x Hx Hx'. apply list_elem_of_singleton in Hx'. now subst.
Qed.

Lemma index_object_NoDup (m : object_maps) (obj : raw_object) :
  NoDup (Dict.keys (game_objects m)) -> NoDup (Dict.keys (game_objects (index_object m obj))).
Proof.
  intros Hm. unfold index_object. destruct (read obj) as [[]|]; simpl; try exact Hm.
  now apply dict_set_NoDup.
Qed.

(** Every game object has one entry in the object map. *)
Lemma build_object_maps_NoDup (all_objects : list raw_object) :
  NoDup (Dict.keys (game_objects (build_object_maps all_objects))).
Proof.
  unfold build_object_maps.
  assert (H : NoDup (Dict.keys (game_objects empty_maps))) by constructor.
  revert H. generalize empty_maps.
  induction all_objects as [|obj objs IH]; intros m Hm; simpl; [exact Hm|].
  apply IH. now apply index_object_NoDup.
Qed.

Lemma dict_set_keyed {V} (id_of : V -> Z) (d : Dict.dict V) (k : Z) (v : V) :
  id_of v = k -> Graph.keyed id_of d -> Graph.keyed id_of (Dict.set d k v).
Proof.
  intros Hv [Hnd Hall]. split; [now apply dict_set_NoDup|].
  clear Hnd. induction Hall as [|[k0 v0] d Hkv Hall IH]; simpl.
  - now repeat constructor.
  - destruct (k0 =? k); constructor; assumption.
Qed.

Lemma index_object_well_keyed (m : object_maps) (o : raw_object) :
  Graph.well_keyed m -> Graph.well_keyed (index_object m o).
Proof.
  intros (Hg & Ht & Hr). unfold index_object.
  destruct (read o) as [[]|]; simpl; (split; [|split]); simpl;
    first [assumption | apply dict_set_keyed; [reflexivity|assumption]].
Qed.

Lemma build_object_maps_well_keyed (objs : list raw_object) :
  Graph.well_keyed (build_object_maps objs).
Proof.
  unfold build_object_maps.
  assert (H : Graph.well_keyed empty_maps) by (repeat split; constructor).
  revert H. generalize empty_maps.
  induction objs as [|o objs IH]; intros m Hm; simpl; [exact Hm|].
  apply IH. now apply index_object_well_keyed.
Qed.

Lemma keyed_get_value {V} (id_of : V -> Z) (d : Dict.dict V) (v : V) :
  Graph.keyed id_of d -> In v (Dict.values d) -> Dict.get d (id_of v) = Some v.
Proof.
  intros [Hnd Hall] Hin. induction d as [|[k0 v0] d IH]; [destruct Hin|].
  simpl in *. apply NoDup_cons in Hnd as [Hk0 Hnd]. apply Forall_cons in Hall as [Hkv Hall].
  simpl in Hkv. destruct Hin as [->|Hin].
  - now rewrite Hkv, Z.eqb_refl.
  - destruct (Z.eqb_spec k0 (id_of v)) as [Heq|_]; [|now apply IH].
    exfalso. apply Hk0. rewrite Heq. clear - Hall Hin.
    unfold Dict.keys, Dict.values in *.
    apply in_map_iff in Hin as ([k v'] & Hv & Hin). simpl in Hv. subst v'.
    rewrite Forall_forall in Hall. specialize (Hall _ (proj2 (list_elem_of_In _ _) Hin)).
    simpl in Hall. rewrite Hall. apply list_elem_of_In, in_map_iff.
    exists (k, v). now split.
Qed.

Lemma children_loop_mono (f g : Z -> outcome (option node)) :
  (forall c r, f c = Done r -> g c = Done r) ->
  forall refs acc r, children_loop f refs acc = Done r -> children_loop g refs acc = Done r.
Proof.
  intros Hfg refs. induction refs as [|c refs IH]; intros acc r; simpl; [trivial|].
  destruct (c =? 0); [apply IH|].
  destruct (f c) as [[child|]|] eqn:Hf; try discriminate;
    rewrite (Hfg _ _ Hf); apply IH.
Qed.

Lemma children_loop_done (f : Z -> outcome (option node)) (refs : list Z) :
  (forall c, In c refs -> c <> 0 -> exists r, f c = Done r) ->
  forall acc, exists r, children_loop f refs acc = Done r.
Proof.
  induction refs as [|c refs IH]; intros Hf acc; simpl; [eauto|].
  destruct (Z.eqb_spec c 0) as [|Hc]; [apply IH; intros; apply Hf; simpl; auto|].
  destruct (Hf c (or_introl eq_refl) Hc) as [[child|] ->];
    apply IH; intros; apply Hf; simpl; auto.
Qed.

Lemma children_loop_overflow (f : Z -> outcome (option node)) (refs : list Z) (c : Z) :
  In c refs -> c <> 0 -> f c = RecursionError ->
  forall acc, children_loop f refs acc = RecursionError.
Proof.
  induction refs as [|c' refs IH]; intros Hin Hc Hf acc; simpl; [destruct Hin|].
  destruct (Z.eqb_spec c' 0) as [->|Hc'].
  - destruct Hin as [Heq|Hin]; [congruence|now apply IH].
  - destruct (f c') as [[child|]|] eqn:Hf'; [| |reflexivity];
      (destruct Hin as [Heq|Hin]; [congruence|now apply IH]).
Qed.

(** More stack never changes a result. *)
Lemma build_hierarchy_fuel_mono (m : object_maps) (fuel : nat) :
  forall id level r, build_hierarchy m fuel id level = Done r ->
  forall fuel', (fuel <= fuel')%nat -> build_hierarchy m fuel' id level = Done r.
Proof.
  induction fuel as [|fuel IH]; intros id level r H fuel' Hle; [discriminate|].
  destruct fuel' as [|fuel']; [lia|]. simpl in *.
  destruct (Dict.get (transforms m) id) as [t|]; [|exact H].
  destruct (children_loop _ (t_children t) []) as [children|] eqn:Hloop; [|discriminate].
  erewrite children_loop_mono; [exact H| |exact Hloop].
  intros c r' Hc. apply (IH _ _ _ Hc). lia.
Qed.

Lemma ranked_child (m : object_maps) (rank : Z -> nat) (a b : Z) :
  Spec.ranked m rank = true -> Spec.child_of m a b -> (rank b < rank a)%nat.
Proof.
  unfold Spec.ranked. rewrite forallb_forall.
  intros Hr (t & Hget & Hin & Hb).
  specialize (Hr _ (dict_get_In _ _ _ Hget)). simpl in Hr.
  rewrite forallb_forall in Hr. specialize (Hr _ Hin).
  apply orb_true_iff in Hr as [Hz|Hlt]; [apply Z.eqb_eq in Hz; contradiction|].
  now apply Nat.ltb_lt in Hlt.
Qed.

(** On a table with a rank, a stack deeper than the rank of the
    transform is enough. *)
Lemma build_hierarchy_ranked (m : object_maps) (rank : Z -> nat) :
  Spec.ranked m rank = true ->
  forall fuel id level, (rank id < fuel)%nat ->
  exists r, build_hierarchy m fuel id level = Done r.
Proof.
  intros Hr fuel. induction fuel as [|fuel IH]; intros id level Hlt; [lia|].
  simpl. destruct (Dict.get (transforms m) id) as [t|] eqn:Hget; [|eauto].
  destruct (children_loop_done
              (fun child_id => build_hierarchy m fuel child_id (S level)) (t_children t))
    with (acc := @nil node) as [children ->]; [|eauto].
  intros c Hin Hc. apply IH.
  assert (rank c < rank id)%nat; [|lia].
  apply (ranked_child m); [exact Hr|]. now exists t.
Qed.

Lemma reaches_cycle_step (m : object_maps) (id : Z) :
  Spec.reaches_cycle m id -> exists c, Spec.child_of m id c /\ Spec.reaches_cycle m c.
Proof.
  intros (a & Hpath & Hcyc).
  destruct Hpath as [id|id y a Hstep Hrest].
  - inversion Hcyc as [? ? Hab|? b ? Hab Hbc]; subst.
    + exists id. split; [exact Hab|]. exists id. split; [constructor|exact Hcyc].
    + exists b. split; [exact Hab|]. exists b. split; [constructor|].
      eapply tc_r; eauto.
  - exists y. split; [exact Hstep|]. now exists a.
Qed.

(** From a transform that reaches a cycle the recursion exhausts any
    stack. *)
Lemma build_hierarchy_cycle (m : object_maps) (fuel : nat) :
  forall id level, Spec.reaches_cycle m id -> build_hierarchy m fuel id level = RecursionError.
Proof.
  induction fuel as [|fuel IH]; intros id level Hc; [reflexivity|].
  destruct (reaches_cycle_step _ _ Hc) as (c & (t & Hget & Hin & Hnz) & Hc').
  simpl. rewrite Hget.
  rewrite (children_loop_overflow _ _ c Hin Hnz); [reflexivity|].
  now apply IH.
Qed.

Lemma assemble_roots_cycle (m : object_maps) (fuel : nat) (roots : list transform) (root : transform) :
  In root roots -> Spec.reaches_cycle m (t_id root) ->
  assemble_roots m fuel roots = RecursionError.
Proof.
  induction roots as [|r roots IH]; intros Hin Hc; [destruct Hin|]. simpl.
  destruct Hin as [->|Hin].
  - now rewrite build_hierarchy_cycle.
  - destruct (build_hierarchy m fuel (t_id r) 0); [|reflexivity].
    now rewrite IH.
Qed.

Lemma assemble_roots_ranked (m : object_maps) (rank : Z -> nat) (roots : list transform) :
  Spec.ranked m rank = true ->
  exists fuel forest, forall fuel', (fuel <= fuel')%nat ->
    assemble_roots m fuel' roots = Done forest.
Proof.
  intros Hr. induction roots as [|root roots (fuel & rest & IH)].
  - exists 0%nat, []. reflexivity.
  - destruct (build_hierarchy_ranked m rank Hr (S (rank (t_id root))) (t_id root) 0)
      as [h Hh]; [lia|].
    exists (Nat.max fuel (S (rank (t_id root)))),
           (match h with Some n => n :: rest | None => rest end).
    intros fuel' Hle. simpl.
    rewrite (build_hierarchy_fuel_mono _ _ _ _ _ Hh) by lia.
    rewrite IH by lia. reflexivity.
Qed.

Lemma sound_node_unfold (m : object_maps) (level : nat) (n : node) :
  Graph.sound_node m level n <->
  n_level n = level /\
  (exists t, Dict.get (transforms m) (n_transform_id n) = Some t /\
             Graph.reports m t n /\
             map n_transform_id (n_children n) =
               List.filter (Graph.resolvable m) (t_children t)) /\
  Forall (Graph.sound_node m (S level)) (n_children n).
Proof.
  destruct n as [nm go tid lv pos hs so children]. simpl.
  assert (Hall : (fix all (cs : list node) : Prop :=
                    match cs with
                    | [] => True
                    | c :: cs' => Graph.sound_node m (S level) c /\ all cs'
                    end) children <-> Forall (Graph.sound_node m (S level)) children).
  { induction children as [|c cs IH]; [split; [constructor|trivial]|].
    rewrite Forall_cons. now rewrite IH. }
  now rewrite Hall.
Qed.

(** The child loop appends one node per child reference that the
    recursive call resolves. *)
Lemma children_loop_nodes (m : object_maps) (level : nat)
    (f : Z -> outcome (option node)) (refs : list Z) :
  (forall c n, c <> 0 -> f c = Done (Some n) ->
     Graph.resolvable m c = true /\ n_transform_id n = c /\ Graph.sound_node m level n) ->
  (forall c, c <> 0 -> f c = Done None -> Graph.resolvable m c = false) ->
  forall acc r, children_loop f refs acc = Done r ->
  exists new, r = acc ++ new /\
              map n_transform_id new = List.filter (Graph.resolvable m) refs /\
              Forall (Graph.sound_node m level) new.
Proof.
  intros Hsome Hnone. induction refs as [|c refs IH]; intros acc r; simpl.
  - intros [= <-]. exists []. rewrite app_nil_r. repeat split. constructor.
  - destruct (Z.eqb_spec c 0) as [->|Hc].
    + intros H. destruct (IH _ _ H) as (new & -> & Hids & Hall).
      exists new. repeat split; assumption.
    + destruct (f c) as [[n|]|] eqn:Hf; [| |discriminate].
      * destruct (Hsome c n Hc Hf) as (Hres & Hid & Hn). rewrite Hres.
        intros H. destruct (IH _ _ H) as (new & -> & Hids & Hall).
        exists (n :: new). rewrite <- app_assoc. simpl. repeat split.
        -- now rewrite Hid, Hids.
        -- now constructor.
      * rewrite (Hnone c Hc Hf).
        intros H. destruct (IH _ _ H) as (new & -> & Hids & Hall).
        exists new. repeat split; assumption.
Qed.

Lemma build_hierarchy_none (m : object_maps) (fuel : nat) (id : Z) (level : nat) :
  build_hierarchy m fuel id level = Done None -> Dict.get (transforms m) id = None.
Proof.
  destruct fuel as [|fuel]; [discriminate|]. simpl.
  destruct (Dict.get (transforms m) id) as [t|]; [|reflexivity].
  now destruct (children_loop _ (t_children t) []).
Qed.

(** A node the assembler returns reports the transform it was asked for,
    at the level it was asked for, and is sound all the way down. *)
Lemma build_hierarchy_sound (m : object_maps) (fuel : nat) :
  forall id level n, build_hierarchy m fuel id level = Done (Some n) ->
  n_transform_id n = id /\ Graph.sound_node m level n.
Proof.
  induction fuel as [|fuel IH]; intros id level n; [discriminate|]. simpl.
  destruct (Dict.get (transforms m) id) as [t|] eqn:Hget; [|discriminate].
  destruct (children_loop _ (t_children t) []) as [children|] eqn:Hloop; [|discriminate].
  intros [= <-]. split; [reflexivity|].
  apply children_loop_nodes with (m := m) (level := S level) in Hloop.
  - destruct Hloop as (new & -> & Hids & Hall). simpl app in *.
    apply sound_node_unfold. simpl. split; [reflexivity|]. split; [|exact Hall].
    exists t. now repeat split.
  - intros c n Hc Hn. destruct (IH _ _ _ Hn) as [Hid Hsound].
    split; [|now split]. unfold Graph.resolvable.
    apply sound_node_unfold in Hsound as (_ & (t' & Ht' & _) & _).
    rewrite Hid in Ht'. rewrite Ht'. now destruct (Z.eqb_spec c 0).
  - intros c Hc Hn. apply build_hierarchy_none in Hn. unfold Graph.resolvable.
    rewrite Hn. apply andb_false_r.
Qed.

Lemma assemble_roots_forest (m : object_maps) (fuel : nat) (roots : list transform) :
  (forall root, In root roots -> Dict.get (transforms m) (t_id root) <> None) ->
  forall forest, assemble_roots m fuel roots = Done forest ->
  map n_transform_id forest = map t_id roots /\ Forall (Graph.sound_node m 0) forest.
Proof.
  induction roots as [|root roots IH]; intros Hres forest; simpl.
  - intros [= <-]. split; [reflexivity|constructor].
  - destruct (build_hierarchy m fuel (t_id root) 0) as [h|] eqn:Hb; [|discriminate].
    destruct (assemble_roots m fuel roots) as [rest|] eqn:Hrest; [|discriminate].
    intros [= <-].
    destruct (IH (fun r Hr => Hres r (or_intror Hr)) rest eq_refl) as [Hids Hall].
    destruct h as [n|].
    + destruct (build_hierarchy_sound _ _ _ _ _ Hb) as [Hid Hn].
      simpl. rewrite Hid, Hids. split; [reflexivity|now constructor].
    + apply build_hierarchy_none in Hb. exfalso. apply (Hres root); [now left|exact Hb].
Qed.

(** C2 (amended). On a transform table whose child links admit a rank,
    hence contain no cycle, hierarchy assembly returns once the stack is
    deep enough, and what it returns does not depend on the depth: the
    forest of the root transforms, one tree per root transform in the
    order of the table, in which every node reports its transform (game
    object and its name, position, sprite renderer) at its level and has
    one child node per child reference that is not null and names a
    transform of the table. There is no visited set: when a root
    transform reaches a cycle through child links, the assembly exhausts
    every stack and raises. *)
Theorem assemble_hierarchy_acyclic (all_objects : list raw_object) :
  let m := build_object_maps all_objects in
  (forall rank : Z -> nat,
     Spec.ranked m rank = true ->
     exists fuel forest,
       (forall fuel', (fuel <= fuel')%nat -> assemble_hierarchy m fuel' = Done forest) /\
       map n_transform_id forest = map t_id (root_transforms m) /\
       Forall (Graph.sound_node m 0) forest) /\
  (forall root,
     In root (root_transforms m) -> Spec.reaches_cycle m (t_id root) ->
     forall fuel, assemble_hierarchy m fuel = RecursionError).
Proof.
  intros m. split.
  - intros rank Hr.
    destruct (assemble_roots_ranked m rank (root_transforms m) Hr) as (fuel & forest & H).
    exists fuel, forest. split; [exact H|].
    apply (assemble_roots_forest m fuel (root_transforms m)); [|now apply H].
    intros root Hin. unfold root_transforms in Hin. apply filter_In in Hin as [Hin _].
    destruct (build_object_maps_well_keyed all_objects) as (_ & Ht & _). fold m in Ht.
    now rewrite (keyed_get_value t_id _ _ Ht Hin).
  - intros root Hin Hc fuel. now apply (assemble_roots_cycle m fuel _ root).
Qed.

(** The tree of two transforms, whose root also lists a null and an
    unknown child, is assembled: one root node, for the transform 1,
    whose only child is the node of the transform 2. *)
Lemma assemble_hierarchy_acyclic_witness :
  let m := build_object_maps Examples.tree_objects in
  Spec.ranked m Examples.tree_rank = true /\
  exists fuel forest,
    (forall fuel', (fuel <= fuel')%nat -> assemble_hierarchy m fuel' = Done forest) /\
    map n_transform_id forest = [1] /\
    Forall (Graph.sound_node m 0) forest.
Proof.
  intros m.
  assert (Hr : Spec.ranked m Examples.tree_rank = true) by reflexivity.
  split; [exact Hr|].
  destruct (proj1 (assemble_hierarchy_acyclic Examples.tree_objects) Examples.tree_rank Hr)
    as (fuel & forest & Hf & Hids & Hall).
  exists fuel, forest. split; [exact Hf|]. split; [exact Hids|exact Hall].
Defined.

(** C2 (counterexample). The root transform 1 has the child 2, whose
    child list names 1 again: no stack depth lets the assembly return,
    and with it the whole extraction raises. *)
Lemma cyclic_hierarchy_never_returns :
  ~ (exists fuel forest,
       assemble_hierarchy (build_object_maps Examples.cyclic_objects) fuel = Done forest).
Proof.
  intros (fuel & forest & H). unfold assemble_hierarchy in H.
  rewrite (assemble_roots_cycle _ fuel _
             (Transform 1 10 Examples.origin Examples.no_rotation Examples.unit_scale [2] 0)) in H.
  - discriminate.
  - simpl. now left.
  - exists 1. split; [constructor|].
    apply tc_l with 2.
    + eexists. split; [reflexivity|]. split; [now left|lia].
    + apply tc_once. eexists. split; [reflexivity|]. split; [now left|lia].
Qed.

End hierarchy.
(** ** Part resolution *)

Section resolver.
Import Raster Tint Extractor.

Lemma same_part_refl (p : joined_part) : Spec.same_part p p.
Proof. repeat split. Qed.

Lemma same_part_trans (p q r : joined_part) : Spec.same_part p q -> Spec.same_part q r -> Spec.same_part p r.
Proof. unfold Spec.same_part. intuition congruence. Qed.

Lemma mark_corrected_same (id : Z) (parts : list joined_part) :
  Forall2 Spec.same_part parts (mark_corrected id parts).
Proof.
  induction parts as [|p parts IH]; simpl; [constructor|].
  destruct (jp_sprite_id p =? id).
  - constructor; [repeat split|]. apply Forall2_same_length_lookup_2; [reflexivity|].
    intros i x y Hx Hy. rewrite Hx in Hy. injection Hy as <-. apply same_part_refl.
  - constructor; [apply same_part_refl|exact IH].
Qed.

Lemma Forall2_same_part_refl (parts : list joined_part) : Forall2 Spec.same_part parts parts.
Proof. induction parts; constructor; [apply same_part_refl|assumption]. Qed.

Lemma Forall2_same_part_trans (l1 l2 l3 : list joined_part) :
  Forall2 Spec.same_part l1 l2 -> Forall2 Spec.same_part l2 l3 -> Forall2 Spec.same_part l1 l3.
Proof.
  intros H. revert l3. induction H as [|p q l1 l2 Hpq _ IH]; intros l3 H3.
  - inversion H3. constructor.
  - inversion H3 as [|? r ? l3' Hqr Hrest]; subst. constructor; [|now apply IH].
    now apply (same_part_trans p q r).
Qed.

Lemma extract_sprite_same (st : sprite_state) (obj : raw_object) :
  Forall2 Spec.same_part (st_parts st) (st_parts (extract_sprite st obj)).
Proof.
  unfold extract_sprite.
  destruct (read obj) as [[| | |sprite_name [img|]|]|]; try apply Forall2_same_part_refl.
  destruct (option_map _ _) as [c|]; [|apply Forall2_same_part_refl].
  destruct (negb (is_default_color c)); [apply mark_corrected_same|apply Forall2_same_part_refl].
Qed.

Lemma extract_sprites_same (objs : list raw_object) (st : sprite_state) :
  Forall2 Spec.same_part (st_parts st) (st_parts (fold_left extract_sprite objs st)).
Proof.
  revert st. induction objs as [|obj objs IH]; intros st; simpl; [apply Forall2_same_part_refl|].
  eapply Forall2_same_part_trans; [apply extract_sprite_same|apply IH].
Qed.

(** A list related element by element to a [flat_map] splits into one
    group per element of the mapped list. *)
Lemma Forall2_flat_map_groups {X} (j : X -> list joined_part) (l : list X) :
  forall F, Forall2 Spec.same_part (flat_map j l) F ->
  exists gs, F = concat gs /\ Forall2 (fun x g => Forall2 Spec.same_part (j x) g) l gs.
Proof.
  induction l as [|x l IH]; intros F HF; simpl in HF.
  - inversion HF. exists []. split; [reflexivity|constructor].
  - apply Forall2_app_inv_l in HF as (g & F' & Hg & HF' & ->).
    destruct (IH _ HF') as (gs & -> & Hgs).
    exists (g :: gs). split; [reflexivity|]. now constructor.
Qed.

Lemma object_yield_group (m : object_maps) (mapping : gmap Z sprite_info)
    (entry : Z * game_object) (g : list joined_part) :
  Forall2 Spec.same_part (join_object m entry) g ->
  Spec.object_yield m mapping entry (flat_map (emit_part mapping) g).
Proof.
  unfold join_object, Spec.object_yield. destruct entry as [id go_data]. simpl.
  destruct (find_transform m id) as [t|], (find_renderer m id) as [rd|];
    intros Hg; try (inversion Hg; reflexivity).
  inversion Hg as [|p q ? g' Hpq Hnil]; subst. inversion Hnil; subst.
  destruct Hpq as (Hn & Hpos & Hord & Hid & Hcol). simpl in *.
  unfold emit_part. rewrite <- Hid.
  destruct (mapping !! r_sprite rd) as [info|]; [|reflexivity].
  eexists. split; [reflexivity|]. simpl. repeat split; congruence.
Qed.

Lemma extract_character_parts_groups (fuel : nat) (files : gmap string image)
    (all_objects : list raw_object) (forest : list node) :
  let m := build_object_maps all_objects in
  assemble_hierarchy m fuel = Done forest ->
  exists r files',
    extract_character_parts fuel files all_objects = Done (r, files') /\
    hierarchy r = forest /\
    exists groups : list (list part),
      transform_data r = concat groups /\
      Forall2 (Spec.object_yield m (sprite_mapping r)) (game_objects m) groups.
Proof.
  intros m Hh. unfold extract_character_parts. fold m. rewrite Hh.
  eexists _, _. split; [reflexivity|]. split; [reflexivity|]. simpl.
  set (st := fold_left extract_sprite all_objects _).
  pose proof (extract_sprites_same all_objects (SpriteState (join_components m) ∅ files)) as Hsame.
  fold st in Hsame. simpl in Hsame. unfold join_components in Hsame.
  apply Forall2_flat_map_groups in Hsame as (gs & Hparts & Hgs).
  exists (map (flat_map (emit_part (st_mapping st))) gs). split.
  - rewrite Hparts. rewrite flat_map_concat_map, concat_map, <- concat_map.
    clear. induction gs as [|g gs IH]; simpl; [reflexivity|].
    rewrite map_app, concat_app. f_equal; [|exact IH].
    now rewrite flat_map_concat_map.
  - clear Hparts. induction Hgs as [|x g l gs' Hxg _ IH]; simpl; constructor; [|exact IH].
    now apply object_yield_group.
Qed.

(** C3 (amended). For every record set and every stack depth: when
    hierarchy assembly raises, the extraction raises with it and outputs
    no part list; when hierarchy assembly returns, so does the
    extraction, and the output part list is the concatenation, over the
    game objects (one entry per id), of what each object yields: exactly
    one part when the object has a transform and a sprite renderer owned
    by it and the renderer's sprite id is in the sprite mapping, and none
    when it lacks either or the sprite id is not in the mapping. The
    first case is that of a root transform reaching a cycle, for every
    depth; on a table without cycle some depth gives the second. *)
Theorem transform_data_per_object (files : gmap string image) (all_objects : list raw_object) :
  let m := build_object_maps all_objects in
  NoDup (Dict.keys (game_objects m)) /\
  (forall fuel,
     match assemble_hierarchy m fuel with
     | RecursionError => extract_character_parts fuel files all_objects = RecursionError
     | Done forest =>
         exists r files',
           extract_character_parts fuel files all_objects = Done (r, files') /\
           hierarchy r = forest /\
           exists groups : list (list part),
             transform_data r = concat groups /\
             Forall2 (Spec.object_yield m (sprite_mapping r)) (game_objects m) groups
     end) /\
  (forall rank : Z -> nat,
     Spec.ranked m rank = true ->
     exists fuel r files' groups,
       extract_character_parts fuel files all_objects = Done (r, files') /\
       transform_data r = concat groups /\
       Forall2 (Spec.object_yield m (sprite_mapping r)) (game_objects m) groups) /\
  (forall root,
     In root (root_transforms m) -> Spec.reaches_cycle m (t_id root) ->
     forall fuel, extract_character_parts fuel files all_objects = RecursionError).
Proof.
  intros m. split; [apply build_object_maps_NoDup|]. split; [|split].
  - intros fuel. destruct (assemble_hierarchy m fuel) as [forest|] eqn:Hh.
    + now apply extract_character_parts_groups.
    + unfold extract_character_parts. fold m. now rewrite Hh.
  - intros rank Hr.
    destruct (assemble_roots_ranked m rank (root_transforms m) Hr) as (fuel & forest & H).
    destruct (extract_character_parts_groups fuel files all_objects forest (H fuel (le_n _)))
      as (r & files' & Hrun & _ & groups & Hcat & Hall).
    now exists fuel, r, files', groups.
  - intros root Hin Hc fuel. unfold extract_character_parts. fold m.
    now rewrite (assemble_roots_cycle m fuel _ root Hin Hc : assemble_hierarchy m fuel = _).
Qed.

(** A bundle with one sprite: the object owning the renderer yields one
    part, the object with a transform only yields none. *)
Lemma transform_data_per_object_witness :
  let m := build_object_maps Examples.sprite_objects in
  Spec.ranked m Examples.tree_rank = true /\
  exists fuel r files' groups,
    extract_character_parts fuel ∅ Examples.sprite_objects = Done (r, files') /\
    transform_data r = concat groups /\
    Forall2 (Spec.object_yield m (sprite_mapping r)) (game_objects m) groups.
Proof.
  intros m.
  assert (Hr : Spec.ranked m Examples.tree_rank = true) by reflexivity.
  split; [exact Hr|].
  destruct (transform_data_per_object ∅ Examples.sprite_objects) as (_ & _ & H & _).
  exact (H Examples.tree_rank Hr).
Defined.

(** C3 (counterexample). The game object 10 has a transform and a sprite
    renderer, but the renderer's sprite reference is null: the object is
    joined and then dropped, and the output part list is empty. *)
Lemma renderer_without_sprite_yields_no_part :
  exists r files',
    extract_character_parts 5 ∅ Examples.spriteless_objects = Done (r, files') /\
    let m := build_object_maps Examples.spriteless_objects in
    Dict.get (game_objects m) 10 <> None /\
    find_transform m 10 <> None /\ find_renderer m 10 <> None /\
    length (join_components m) = 1%nat /\
    transform_data r = [] /\ character_parts r = [].
Proof.
  eexists _, _. split; [reflexivity|]. simpl. repeat split; discriminate.
Qed.

(** The cyclic table with a renderer and a sprite for the root object:
    the object has a transform, a renderer and a sprite in the bundle,
    and no stack depth lets the extraction return a part list. *)
Lemma cyclic_bundle_yields_no_part_list :
  let objs := Examples.cyclic_objects ++
              [ RawObject 5 (Some (SpriteRendererData 10 7 3 identity_color));
                RawObject 7 (Some (SpriteData "body_sprite"
                                     (Some (Examples.plain 2 2 (Pixel 200 100 50 255))))) ] in
  let m := build_object_maps objs in
  find_transform m 10 <> None /\ find_renderer m 10 <> None /\
  forall fuel files, extract_character_parts fuel files objs = RecursionError.
Proof.
  intros objs m. split; [discriminate|]. split; [discriminate|]. intros fuel files.
  assert (H : assemble_hierarchy m fuel = RecursionError).
  { apply (assemble_roots_cycle m fuel _
             (Transform 1 10 Examples.origin Examples.no_rotation Examples.unit_scale [2] 0)).
    - simpl. now left.
    - exists 1. split; [constructor|].
      apply tc_l with 2.
      + eexists. split; [reflexivity|]. split; [now left|lia].
      + apply tc_once. eexists. split; [reflexivity|]. split; [now left|lia]. }
  unfold extract_character_parts. fold m. now rewrite H.
Qed.

End resolver.
(** ** Pixel arithmetic of the blend *)

Section pixels.
Import Raster Tint.

Lemma forallb_range (P : Z -> bool) (n : Z) :
  forallb P (range n) = true -> forall k, 0 <= k < n -> P k = true.
Proof.
  unfold range. rewrite forallb_forall. intros H k Hk. apply H.
  apply in_map_iff. exists (Z.to_nat k). split; [lia|].
  apply in_seq. lia.
Qed.

Lemma existsb_range_false (P : Z -> bool) (n : Z) :
  existsb P (range n) = false -> forall k, 0 <= k < n -> P k = false.
Proof.
  intros H k Hk. destruct (P k) eqn:HP; [|reflexivity].
  assert (existsb P (range n) = true); [|congruence].
  apply existsb_exists. exists k. split; [|exact HP].
  apply in_map_iff. exists (Z.to_nat k). split; [lia|]. apply in_seq. lia.
Qed.

Lemma covers_inside (px py w h x y : Z) :
  covers px py w h x y = true -> 0 <= x - px < w /\ 0 <= y - py < h.
Proof. unfold covers. rewrite !andb_true_iff. lia. Qed.

(** A sprite whose alpha band has an empty bounding box is transparent
    at every pixel. *)
Lemma alpha_bbox_empty (img : image) (i j : Z) :
  alpha_bbox_nonempty img = false -> 0 <= i < width img -> 0 <= j < height img ->
  alpha (pixel_at img i j) = 0.
Proof.
  unfold alpha_bbox_nonempty. intros H Hi Hj.
  apply (existsb_range_false _ _ H) in Hj.
  apply (existsb_range_false _ _ Hj) in Hi.
  apply negb_false_iff in Hi. lia.
Qed.

Lemma shift_for_div255_mono (u v : Z) :
  u <= v -> shift_for_div255 u <= shift_for_div255 v.
Proof.
  intros Huv. unfold shift_for_div255. rewrite !Z.shiftr_div_pow2 by lia.
  change (2 ^ 8) with 256.
  apply Z.div_le_mono; [lia|].
  pose proof (Z.div_le_mono u v 256). lia.
Qed.

Lemma scale_down_mono (u v : Z) :
  u <= v -> Z.shiftr (shift_for_div255 u) 7 <= Z.shiftr (shift_for_div255 v) 7.
Proof.
  intros Huv. rewrite !Z.shiftr_div_pow2 by lia.
  apply Z.div_le_mono; [lia|]. now apply shift_for_div255_mono.
Qed.

(** The fixed-point division is exact on the multiples it is used on. *)
Lemma scale_down_unit (k : Z) :
  0 <= k <= 255 -> Z.shiftr (shift_for_div255 (k * 32640 + 16384)) 7 = k.
Proof.
  intros Hk. apply Z.eqb_eq.
  apply (forallb_range (fun k => Z.shiftr (shift_for_div255 (k * 32640 + 16384)) 7 =? k) 256);
    [now vm_compute|lia].
Qed.

Lemma div255_unit (k : Z) : 0 <= k <= 255 -> shift_for_div255 (k * 255 + 128) = k.
Proof.
  intros Hk. apply Z.eqb_eq.
  apply (forallb_range (fun k => shift_for_div255 (k * 255 + 128) =? k) 256);
    [now vm_compute|lia].
Qed.

(** Blending with a zero mask keeps the destination. *)
Lemma blend_zero_mask (d s : Z) : channel_ok d -> blend 0 d s = d.
Proof.
  intros Hd. unfold blend, div255.
  replace (d * (255 - 0) + s * 0) with (d * 255) by lia.
  now apply div255_unit.
Qed.

Lemma paste_mask_pixel_transparent (dst src : pixel) :
  pixel_ok dst -> alpha src = 0 -> paste_mask_pixel dst src = dst.
Proof.
  intros (Hr & Hg & Hb & Ha) Hs. unfold paste_mask_pixel. rewrite Hs.
  rewrite !blend_zero_mask by assumption. now destruct dst.
Qed.

(** A channel of the "over" blend is a convex combination of the two
    channels, so it lies between them. *)
Lemma over_channel_between (coef1 s d : Z) :
  0 <= coef1 <= 32640 -> channel_ok s -> channel_ok d ->
  Spec.between d s (over_channel coef1 (32640 - coef1) s d).
Proof.
  unfold channel_ok, Spec.between, over_channel, precision_bits.
  intros Hc Hs Hd. change (Z.shiftl 128 7) with 16384.
  split.
  - etransitivity; [|apply scale_down_mono with (u := Z.min d s * 32640 + 16384); nia].
    rewrite scale_down_unit; lia.
  - etransitivity; [apply scale_down_mono with (v := Z.max d s * 32640 + 16384); nia|].
    rewrite scale_down_unit; lia.
Qed.

Lemma over_coef_bounds (sa da : Z) :
  0 < sa <= 255 -> 0 <= da <= 255 ->
  0 <= sa * 255 * 255 * 128 / (sa * 255 + da * (255 - sa)) <= 32640.
Proof.
  intros Hs Hd. split.
  - apply Z.div_pos; nia.
  - apply Z.div_le_upper_bound; nia.
Qed.

(** The colour channels of [alpha_composite_pixel] lie between those of
    the destination and of the source. *)
Lemma alpha_composite_pixel_between (dst src : pixel) :
  pixel_ok dst -> pixel_ok src ->
  let out := alpha_composite_pixel dst src in
  Spec.between (red dst) (red src) (red out) /\
  Spec.between (green dst) (green src) (green out) /\
  Spec.between (blue dst) (blue src) (blue out).
Proof.
  intros (Hr & Hg & Hb & Ha) (Hr' & Hg' & Hb' & Ha'). unfold alpha_composite_pixel.
  destruct (Z.eqb_spec (alpha src) 0) as [Hz|Hnz]; simpl.
  - unfold Spec.between, channel_ok in *. lia.
  - unfold precision_bits. change (Z.shiftl 1 7) with 128. change (255 * 128) with 32640.
    pose proof (over_coef_bounds (alpha src) (alpha dst)) as Hc.
    unfold channel_ok in *.
    repeat split; try (apply over_channel_between); unfold channel_ok;
      try apply Hc; try lia.
Qed.

(** On the empty canvas the "over" blend shows the sprite's own pixel. *)
Lemma alpha_composite_pixel_first (src : pixel) :
  pixel_ok src -> alpha src <> 0 -> alpha_composite_pixel transparent src = src.
Proof.
  intros (Hr & Hg & Hb & Ha) Hnz. unfold alpha_composite_pixel, channel_ok in *.
  destruct (Z.eqb_spec (alpha src) 0) as [|_]; [contradiction|].
  unfold precision_bits. change (Z.shiftl 1 7) with 128. simpl alpha at 1.
  replace (0 * (255 - alpha src)) with 0 by lia. rewrite Z.add_0_r.
  replace (alpha src * 255 * 255 * 128 / (alpha src * 255)) with 32640.
  2:{ apply Z.div_unique_exact; lia. }
  unfold over_channel, precision_bits. change (Z.shiftl 128 7) with 16384.
  change (255 * 128 - 32640) with 0. simpl red; simpl green; simpl blue.
  rewrite !Z.mul_0_l, !Z.add_0_r.
  rewrite !scale_down_unit, div255_unit by lia. now destruct src.
Qed.

End pixels.

(** ** Painting one part *)

Section painting.
Import Raster Tint Extractor Compositor.

Lemma load_sprite_rgba (files : gmap string image) (custom_colors : option (gmap string color))
    (p : part) (sprite_img : image) :
  load_sprite files custom_colors p = Some sprite_img -> is_rgba sprite_img = true.
Proof.
  unfold load_sprite. destruct (open_image files (sprite_path p)) as [file_img|]; [|discriminate].
  intros [= <-]. destruct custom_colors as [colors|]; [|reflexivity].
  destruct (colors !! name p) as [c|]; [|reflexivity].
  now destruct (color_changed c).
Qed.

(** C4 (amended). In the Tkinter compositor every sprite, whichever of
    the two branches it takes, is composited by the "over" blend of
    [Image.alpha_composite]: the painted pixel is the blend of the canvas
    pixel beneath with the sprite pixel covering it (with a transparent
    pixel where the sprite does not reach, or when [int] refuses the
    position of the part and the part is skipped), and each colour
    channel of the result lies between the channel beneath and the
    sprite's, bounds included, so it is never darker than the darker of
    the two. *)
Theorem paint_part_src_over (files : gmap string image)
    (custom_colors : option (gmap string color)) (canvas_size : Z * Z)
    (composite : image) (p : part) (sprite_img : image) (x y : Z) :
  load_sprite files custom_colors p = Some sprite_img ->
  pixel_ok (pixel_at composite x y) ->
  (forall i j, 0 <= i < width sprite_img -> 0 <= j < height sprite_img ->
               pixel_ok (pixel_at sprite_img i j)) ->
  let beneath := pixel_at composite x y in
  let layer :=
    match placement canvas_size p sprite_img with
    | Float.Ok box =>
        if covers (fst box) (snd box) (width sprite_img) (height sprite_img) x y
        then pixel_at sprite_img (x - fst box) (y - snd box)
        else transparent
    | Float.Raise _ => transparent
    end in
  let out := pixel_at (paint_part files custom_colors canvas_size composite p) x y in
  out = alpha_composite_pixel beneath layer /\
  Spec.between (red beneath) (red layer) (red out) /\
  Spec.between (green beneath) (green layer) (green out) /\
  Spec.between (blue beneath) (blue layer) (blue out).
Proof.
  intros Hload Hdst Hsrc beneath layer out.
  assert (Hout : out = alpha_composite_pixel beneath layer).
  { unfold out, paint_part. rewrite Hload, (load_sprite_rgba _ _ _ _ Hload).
    unfold layer, beneath.
    destruct (placement canvas_size p sprite_img) as [[px py]|e]; [|reflexivity].
    simpl fst; simpl snd.
    destruct (alpha_bbox_nonempty sprite_img) eqn:Hbbox; simpl.
    - now destruct (covers px py (width sprite_img) (height sprite_img) x y).
    - destruct (covers px py (width sprite_img) (height sprite_img) x y) eqn:Hcov.
      + apply covers_inside in Hcov as [Hi Hj].
        pose proof (alpha_bbox_empty sprite_img _ _ Hbbox Hi Hj) as Hzero.
        rewrite paste_mask_pixel_transparent by assumption.
        unfold alpha_composite_pixel. now rewrite Hzero.
      + reflexivity. }
  split; [exact Hout|]. rewrite Hout.
  apply alpha_composite_pixel_between; [exact Hdst|].
  unfold layer.
  destruct (placement canvas_size p sprite_img) as [box|e];
    [|unfold pixel_ok, channel_ok; simpl; lia].
  destruct (covers (fst box) (snd box) (width sprite_img) (height sprite_img) x y) eqn:Hcov.
  - apply covers_inside in Hcov as [Hi Hj]. now apply Hsrc.
  - unfold pixel_ok, channel_ok; simpl; lia.
Qed.

(** Two overlapping parts, the top one of alpha 128 over an opaque
    bottom: the pixel is the blend of the two part pixels. *)
Lemma paint_part_src_over_witness :
  let files := Examples.opaque_under_half in
  let bottom := Examples.centred "bottom" "bottom.png" 1 in
  let top := Examples.centred "top" "top.png" 2 in
  let canvas := paint_part files None (2000, 4000) (new (2000, 4000) transparent) bottom in
  pixel_at canvas 1000 2000 = Pixel 200 40 40 255 /\
  pixel_at (paint_part files None (2000, 4000) canvas top) 1000 2000 =
    alpha_composite_pixel (Pixel 200 40 40 255) (Pixel 40 40 200 128) /\
  Spec.between 200 40 (red (pixel_at (paint_part files None (2000, 4000) canvas top) 1000 2000)).
Proof.
  intros files bottom top canvas.
  destruct (paint_part_src_over files None (2000, 4000) canvas top
              (convert_rgba (Examples.plain 1 1 (Pixel 40 40 200 128))) 1000 2000)
    as (Hout & Hred & _).
  - reflexivity.
  - vm_compute. repeat split; discriminate.
  - intros i j _ _. vm_compute. repeat split; discriminate.
  - split; [reflexivity|]. split; [exact Hout|exact Hred].
Defined.

(** C4 (counterexample). The Streamlit compositor pastes every sprite
    with its own alpha as mask on an opaque white canvas: over a
    translucent red of 10, a translucent black gives a red of 66, which
    is not between 0 and 10 (the "over" blend of the Tkinter compositor
    gives 3). And a blend cannot lie strictly between two channels one
    step apart: 11 at alpha 128 over an opaque 10 gives 11. *)
Lemma masked_paste_is_not_src_over :
  (rendered_pixel
     (WebCompositor.create_composite_image Examples.both_translucent Examples.two_parts None None)
     1000 2000
   = Some (Pixel 66 63 63 159) /\
   rendered_pixel
     (create_composite_image Examples.both_translucent Examples.two_parts None None None)
     1000 2000
   = Some (Pixel 3 0 0 192) /\
   ~ Spec.between 10 0 66) /\
  (rendered_pixel
     (create_composite_image Examples.adjacent_reds Examples.two_parts None None None)
     1000 2000
   = Some (Pixel 11 0 0 255) /\
   ~ Spec.strictly_between 10 11 11).
Proof.
  repeat split; try (vm_compute; reflexivity); unfold Spec.between, Spec.strictly_between; lia.
Qed.

End painting.

(** ** The composite render *)

Section composite.
Import Raster Tint Extractor Compositor.

Lemma filter_no_selection (sprite_data : list part) :
  List.filter (fun p => name_in (name p) []) sprite_data = [].
Proof. induction sprite_data as [|p l IH]; [reflexivity|exact IH]. Qed.

Lemma sorted_parts_no_selection (sprite_data : list part) (depths : option (gmap string Z)) :
  sorted_parts sprite_data [] depths = [].
Proof.
  unfold sorted_parts. rewrite filter_no_selection.
  destruct depths as [d|]; [|reflexivity]. now destruct (any_value d).
Qed.

Lemma paint_part_unopened (files : gmap string image) (colors : option (gmap string color))
    (canvas_size : Z * Z) (composite : image) (p : part) :
  open_image files (sprite_path p) = None ->
  paint_part files colors canvas_size composite p = composite.
Proof. intros H. unfold paint_part, load_sprite. now rewrite H. Qed.




Lemma name_in_names (p : part) (sprite_data : list part) :
  In p sprite_data -> name_in (name p) (map name sprite_data) = true.
Proof.
  intros Hin. unfold name_in. apply existsb_exists. exists (name p).
  split; [now apply in_map|apply String.eqb_refl].
Qed.

Lemma filter_all_selected (sprite_data : list part) :
  List.filter (fun p => name_in (name p) (map name sprite_data)) sprite_data = sprite_data.
Proof.
  assert (H : forall l, (forall p, In p l -> In p sprite_data) ->
              List.filter (fun p => name_in (name p) (map name sprite_data)) l = l).
  { induction l as [|p l IH]; intros Hl; [reflexivity|]. simpl.
    rewrite name_in_names by (apply Hl; now left).
    f_equal. apply IH. intros q Hq. apply Hl. now right. }
  now apply H.
Qed.


End composite.

(** ** Screen position and placement *)

Section positions.
Import Raster Tint Extractor Compositor.

Lemma screen_position_finite (canvas_size : Z * Z) (p : part) :
  Float.is_finite (Spec.scaled_x canvas_size p) = true ->
  Float.is_finite (Spec.scaled_y canvas_size p) = true ->
  screen_position canvas_size p =
    Float.Ok (Float.truncate (Float.value (Spec.scaled_x canvas_size p)),
              Float.truncate (Float.value (Spec.scaled_y canvas_size p))).
Proof.
  intros Hx Hy. unfold screen_position.
  change (Float.add (Float.mul (vx (position p)) (Float.of_int ratio))
            (Float.of_int (fst canvas_size / 2))) with (Spec.scaled_x canvas_size p).
  change (Float.add (Float.mul (vy (position p)) (Float.of_int (- ratio)))
            (Float.of_int (snd canvas_size / 2))) with (Spec.scaled_y canvas_size p).
  now rewrite !py_int_finite by assumption.
Qed.

Lemma screen_position_not_finite (canvas_size : Z * Z) (p : part) :
  Float.is_finite (Spec.scaled_x canvas_size p) = false \/
  Float.is_finite (Spec.scaled_y canvas_size p) = false ->
  exists e, screen_position canvas_size p = Float.Raise e.
Proof.
  intros H. unfold screen_position.
  change (Float.add (Float.mul (vx (position p)) (Float.of_int ratio))
            (Float.of_int (fst canvas_size / 2))) with (Spec.scaled_x canvas_size p).
  change (Float.add (Float.mul (vy (position p)) (Float.of_int (- ratio)))
            (Float.of_int (snd canvas_size / 2))) with (Spec.scaled_y canvas_size p).
  destruct (Float.is_finite (Spec.scaled_x canvas_size p)) eqn:Hx.
  - destruct H as [H|H]; [discriminate|].
    rewrite (py_int_finite _ Hx). destruct (py_int_not_finite _ H) as [e ->]. eauto.
  - destruct (py_int_not_finite _ Hx) as [e ->]. eauto.
Qed.

(** C7 (amended). The screen position is
    [int(position.x * 100 + canvas_width // 2)] and
    [int(position.y * -100 + canvas_height // 2)], the product and the
    sum being those of floating point: the fractional part of the
    rounded sum is dropped, not rounded, and the centre is the
    floor-halved canvas size. The placement origin is the screen
    position minus the sprite dimensions halved with truncation. When
    one of the two sums is an infinity or NaN, [int] raises, there is no
    screen position and the part is not painted. *)
Theorem screen_position_truncates (canvas_size : Z * Z) (p : part) (sprite_img : image) :
  0 <= width sprite_img -> 0 <= height sprite_img ->
  let fx := Spec.scaled_x canvas_size p in
  let fy := Spec.scaled_y canvas_size p in
  (Float.is_finite fx = true -> Float.is_finite fy = true ->
   exists pos,
     screen_position canvas_size p = Float.Ok pos /\
     Spec.truncated (Float.value fx) (fst pos) /\
     Spec.truncated (Float.value fy) (snd pos) /\
     placement canvas_size p sprite_img =
       Float.Ok (fst pos - Z.quot (width sprite_img) 2,
                 snd pos - Z.quot (height sprite_img) 2)) /\
  (Float.is_finite fx = false \/ Float.is_finite fy = false ->
   (exists e, screen_position canvas_size p = Float.Raise e) /\
   forall files custom_colors composite,
     paint_part files custom_colors canvas_size composite p = composite).
Proof.
  intros Hw Hh fx fy. split.
  - intros Hx Hy. eexists. split; [now apply screen_position_finite|].
    split; [apply truncate_truncated|]. split; [apply truncate_truncated|].
    unfold placement. rewrite screen_position_finite by assumption. simpl.
    now rewrite !Z.quot_div_nonneg by lia.
  - intros H. destruct (screen_position_not_finite canvas_size p H) as [e He].
    split; [now exists e|]. intros files custom_colors composite.
    unfold paint_part, placement. rewrite He.
    now destruct (load_sprite files custom_colors p).
Qed.

(** A 3 x 5 sprite at x = 1/128. *)
Lemma screen_position_truncates_witness :
  let p := Examples.offset_part in
  Float.is_finite (Spec.scaled_x (2000, 4000) p) = true /\
  Float.is_finite (Spec.scaled_y (2000, 4000) p) = true /\
  exists pos,
    screen_position (2000, 4000) p = Float.Ok pos /\
    Spec.truncated (Float.value (Spec.scaled_x (2000, 4000) p)) (fst pos) /\
    placement (2000, 4000) p (Examples.plain 3 5 (Pixel 9 9 9 255)) =
      Float.Ok (fst pos - Z.quot 3 2, snd pos - Z.quot 5 2).
Proof.
  intros p.
  assert (Hx : Float.is_finite (Spec.scaled_x (2000, 4000) p) = true) by reflexivity.
  assert (Hy : Float.is_finite (Spec.scaled_y (2000, 4000) p) = true) by reflexivity.
  split; [exact Hx|]. split; [exact Hy|].
  assert (Hw : 0 <= width (Examples.plain 3 5 (Pixel 9 9 9 255))) by (simpl; lia).
  assert (Hh : 0 <= height (Examples.plain 3 5 (Pixel 9 9 9 255))) by (simpl; lia).
  destruct (proj1 (screen_position_truncates (2000, 4000) p
                     (Examples.plain 3 5 (Pixel 9 9 9 255)) Hw Hh) Hx Hy)
    as (pos & Hpos & Htx & _ & Hpl).
  exists pos. split; [exact Hpos|]. split; [exact Htx|exact Hpl].
Defined.

(** C7 (counterexample). A part at x = 1/128 on the 2000 x 4000 canvas
    has the exact screen abscissa 1000.78125, which floating point
    computes without error; the code puts it at 1000, which is not a
    nearest integer (1001 is), and the sprite is painted at column
    1000. *)
Lemma screen_position_is_not_rounded :
  Qeq (Spec.screen_x (2000, 4000) Examples.offset_part) (128100 # 128) /\
  Qeq (Float.value (Spec.scaled_x (2000, 4000) Examples.offset_part)) (128100 # 128) /\
  screen_position (2000, 4000) Examples.offset_part = Float.Ok (1000, 2000) /\
  ~ Spec.nearest_integer (Spec.screen_x (2000, 4000) Examples.offset_part) 1000 /\
  Spec.nearest_integer (Spec.screen_x (2000, 4000) Examples.offset_part) 1001 /\
  match create_composite_image Examples.offset_files [Examples.offset_part] None None None with
  | Float.Ok (Some img) => Some (pixel_at img 1000 2000, pixel_at img 1001 2000)
  | _ => None
  end = Some (Pixel 9 9 9 255, transparent).
Proof.
  split; [reflexivity|]. split; [reflexivity|]. split; [reflexivity|].
  split; [|split; [|vm_compute; reflexivity]].
  - intros H. vm_compute in H. now apply H.
  - vm_compute. discriminate.
Qed.

(** The products and sums are those of binary64: for x = 0.29 the
    rounded product is 29 and the part is at column 1029, although
    0.29 as a float is below 29/100; for x = -2^-55 the rounded sum is
    1000 and the part is at column 1000, although the exact sum is below
    1000. A NaN abscissa gives no position. *)
Lemma screen_position_in_binary64 :
  screen_position (2000, 4000)
    (Examples.mk_part "p" "p.png" (Float.of_ratio 29 100) Float.zero 0)
    = Float.Ok (1029, 2000) /\
  (Float.value (Float.of_ratio 29 100) < 29 # 100)%Q /\
  screen_position (2000, 4000)
    (Examples.mk_part "p" "p.png"
       (Float.div (Float.of_int (-1)) (Float.of_int (2 ^ 55)))
       (Float.div (Float.of_int 1) (Float.of_int (2 ^ 55))) 0)
    = Float.Ok (1000, 2000) /\
  screen_position (2000, 4000) (Examples.mk_part "p" "p.png" Float.nan Float.zero 0)
    = Float.Raise Float.ValueError.
Proof. repeat split; vm_compute; reflexivity. Qed.

End positions.

(** ** Canvas sizing *)

Section sizing.
Import Raster Tint Extractor Compositor.

Lemma least_not_nan (f : part -> Float.float) (us : list part) (m : Float.float) :
  Spec.least f us m -> Float.is_nan m = false.
Proof.
  intros [(q & Hq & Hfq) Hall]. specialize (Hall q Hq). rewrite Hfq in Hall.
  now destruct m.
Qed.

Lemma greatest_not_nan (f : part -> Float.float) (us : list part) (m : Float.float) :
  Spec.greatest f us m -> Float.is_nan m = false.
Proof.
  intros [(q & Hq & Hfq) Hall]. specialize (Hall q Hq). rewrite Hfq in Hall.
  now destruct m.
Qed.

Lemma least_single (f : part -> Float.float) (p : part) :
  Float.is_finite (f p) = true -> Spec.least f [p] (f p).
Proof.
  intros Hp. split; [exists p; split; [now left|reflexivity]|].
  intros q [<-|[]]. now apply leb_refl, finite_not_nan.
Qed.

Lemma greatest_single (f : part -> Float.float) (p : part) :
  Float.is_finite (f p) = true -> Spec.greatest f [p] (f p).
Proof.
  intros Hp. split; [exists p; split; [now left|reflexivity]|].
  intros q [<-|[]]. now apply leb_refl, finite_not_nan.
Qed.

Lemma least_snoc (f : part -> Float.float) (us : list part) (m : Float.float) (p : part) :
  Float.is_finite (f p) = true ->
  Spec.least f us m -> Spec.least f (us ++ [p]) (py_min m (f p)).
Proof.
  intros Hp Hm. pose proof (least_not_nan _ _ _ Hm) as Hnan.
  destruct Hm as [(q & Hq & Hfq) Hall]. unfold py_min.
  destruct (Float.ltb (f p) m) eqn:Hlt.
  - split.
    + exists p. split; [apply in_or_app; right; now left|reflexivity].
    + intros r Hr. apply in_app_or in Hr as [Hr|[<-|[]]].
      * apply ltb_leb, ltb_leb_trans with m; [exact Hlt|now apply Hall].
      * now apply leb_refl, finite_not_nan.
  - split.
    + exists q. split; [apply in_or_app; now left|exact Hfq].
    + intros r Hr. apply in_app_or in Hr as [Hr|[<-|[]]]; [now apply Hall|].
      apply not_ltb_leb; [now apply finite_not_nan|exact Hnan|exact Hlt].
Qed.

Lemma greatest_snoc (f : part -> Float.float) (us : list part) (m : Float.float) (p : part) :
  Float.is_finite (f p) = true ->
  Spec.greatest f us m -> Spec.greatest f (us ++ [p]) (py_max m (f p)).
Proof.
  intros Hp Hm. pose proof (greatest_not_nan _ _ _ Hm) as Hnan.
  destruct Hm as [(q & Hq & Hfq) Hall]. unfold py_max.
  destruct (Float.ltb m (f p)) eqn:Hlt.
  - split.
    + exists p. split; [apply in_or_app; right; now left|reflexivity].
    + intros r Hr. apply in_app_or in Hr as [Hr|[<-|[]]].
      * apply ltb_leb, leb_ltb_trans with m; [now apply Hall|exact Hlt].
      * now apply leb_refl, finite_not_nan.
  - split.
    + exists q. split; [apply in_or_app; now left|exact Hfq].
    + intros r Hr. apply in_app_or in Hr as [Hr|[<-|[]]]; [now apply Hall|].
      apply not_ltb_leb; [exact Hnan|now apply finite_not_nan|exact Hlt].
Qed.

(** The first number met replaces the initial infinities. *)
Lemma py_min_infinity (x : Float.float) :
  Float.is_finite x = true -> py_min Float.infinity x = x.
Proof. intros Hx. unfold py_min. now rewrite finite_below_infinity. Qed.

Lemma py_max_neg_infinity (x : Float.float) :
  Float.is_finite x = true -> py_max Float.neg_infinity x = x.
Proof. intros Hx. unfold py_max. now rewrite finite_above_neg_infinity. Qed.

Lemma grow_bounds_unopened (files : gmap string image) (selected : list string)
    (b : bounds) (p : part) :
  open_image files (sprite_path p) = None -> grow_bounds files selected b p = b.
Proof. intros H. unfold grow_bounds. rewrite H. now destruct (name_in _ _). Qed.

Lemma grow_bounds_unusable (files : gmap string image) (selected : list string)
    (b : bounds) (p : part) :
  Spec.usable files selected p = false -> grow_bounds files selected b p = b.
Proof.
  unfold Spec.usable, grow_bounds. destruct (name_in (name p) selected); [|reflexivity].
  now destruct (open_image files (sprite_path p)).
Qed.

Lemma grow_bounds_usable (files : gmap string image) (selected : list string)
    (min_x min_y max_x max_y : Float.float) (p : part) :
  Spec.usable files selected p = true ->
  grow_bounds files selected (min_x, min_y, max_x, max_y) p =
    (py_min min_x (Spec.left_edge files p), py_min min_y (Spec.top_edge files p),
     py_max max_x (Spec.right_edge files p), py_max max_y (Spec.bottom_edge files p)).
Proof.
  unfold Spec.usable, grow_bounds, Spec.left_edge, Spec.right_edge, Spec.top_edge,
    Spec.bottom_edge, Spec.sprite_dims.
  destruct (name_in (name p) selected); [|discriminate].
  now destruct (open_image files (sprite_path p)).
Qed.

(** One turn of the loop keeps the bounding box that of the usable parts
    seen so far. *)
Lemma grow_bounds_describe (files : gmap string image) (selected : list string)
    (ps : list part) (b : bounds) (p : part) :
  (Spec.usable files selected p = true -> Spec.finite_edges files p = true) ->
  Spec.bounds_describe files selected ps b ->
  Spec.bounds_describe files selected (ps ++ [p]) (grow_bounds files selected b p).
Proof.
  intros Hfin. unfold Spec.bounds_describe. rewrite List.filter_app. cbn [List.filter].
  destruct (Spec.usable files selected p) eqn:Hu.
  2:{ rewrite app_nil_r, grow_bounds_unusable by exact Hu. auto. }
  specialize (Hfin eq_refl). unfold Spec.finite_edges in Hfin.
  apply andb_prop in Hfin as [Hfin Hbot]. apply andb_prop in Hfin as [Hfin Htop].
  apply andb_prop in Hfin as [Hleft Hright].
  destruct b as [[[min_x min_y] max_x] max_y]. rewrite grow_bounds_usable by exact Hu.
  destruct (List.filter (Spec.usable files selected) ps) as [|u us] eqn:Hus.
  - intros [= -> -> -> ->]. simpl app.
    rewrite !py_min_infinity, !py_max_neg_infinity by assumption.
    repeat split; first [now apply least_single | now apply greatest_single].
  - intros (H1 & H2 & H3 & H4). simpl app.
    change (u :: us ++ [p]) with ((u :: us) ++ [p]).
    split; [now apply least_snoc|]. split; [now apply least_snoc|].
    split; now apply greatest_snoc.
Qed.

Lemma fold_grow_bounds_describe (files : gmap string image) (selected : list string)
    (l ps : list part) (b : bounds) :
  Forall (fun p => Spec.finite_edges files p = true)
         (List.filter (Spec.usable files selected) l) ->
  Spec.bounds_describe files selected ps b ->
  Spec.bounds_describe files selected (ps ++ l) (fold_left (grow_bounds files selected) l b).
Proof.
  revert ps b. induction l as [|p l IH]; intros ps b Hfin Hb; simpl.
  - now rewrite app_nil_r.
  - replace (ps ++ p :: l) with ((ps ++ [p]) ++ l) by now rewrite <- app_assoc.
    simpl in Hfin. apply IH.
    + destruct (Spec.usable files selected p); [now inversion Hfin|exact Hfin].
    + apply grow_bounds_describe; [|exact Hb].
      intros Hu. rewrite Hu in Hfin. now inversion Hfin.
Qed.

Lemma fold_grow_bounds_unusable (files : gmap string image) (selected : list string)
    (l : list part) (b : bounds) :
  List.filter (Spec.usable files selected) l = [] ->
  fold_left (grow_bounds files selected) l b = b.
Proof.
  revert b. induction l as [|p l IH]; intros b Hus; [reflexivity|]. simpl in *.
  destruct (Spec.usable files selected p) eqn:Hu; [discriminate|].
  rewrite grow_bounds_unusable by exact Hu. now apply IH.
Qed.

Lemma no_selection_unusable (files : gmap string image) (sprite_data : list part) :
  List.filter (Spec.usable files []) sprite_data = [].
Proof. induction sprite_data as [|p l IH]; [reflexivity|exact IH]. Qed.

Lemma canvas_size_unusable (files : gmap string image) (sprite_data : list part)
    (selected : list string) :
  List.filter (Spec.usable files selected) sprite_data = [] ->
  calculate_canvas_size files sprite_data selected = Float.Ok (2000, 4000).
Proof.
  intros Hus. unfold calculate_canvas_size.
  destruct (is_empty sprite_data || is_empty selected); [reflexivity|].
  now rewrite fold_grow_bounds_unusable by exact Hus.
Qed.

(** The size returned from a bounding box. *)
Lemma canvas_size_usable (files : gmap string image) (sprite_data : list part)
    (selected : list string) :
  List.filter (Spec.usable files selected) sprite_data <> [] ->
  Forall (fun p => Spec.finite_edges files p = true)
         (List.filter (Spec.usable files selected) sprite_data) ->
  exists min_x min_y max_x max_y,
    Spec.bounds_describe files selected sprite_data (min_x, min_y, max_x, max_y) /\
    calculate_canvas_size files sprite_data selected =
      match Float.py_int (Float.sub max_x min_x) with
      | Float.Raise e => Float.Raise e
      | Float.Ok span_x =>
          match Float.py_int (Float.sub max_y min_y) with
          | Float.Raise e => Float.Raise e
          | Float.Ok span_y =>
              Float.Ok (Z.max 2000 (span_x + 400), Z.max 4000 (span_y + 400))
          end
      end.
Proof.
  intros Hus Hfin. unfold calculate_canvas_size.
  destruct sprite_data as [|p0 l0] eqn:Hsd; [now destruct Hus|]. rewrite <- Hsd in *.
  destruct selected as [|s0 sel0] eqn:Hsel.
  { now rewrite no_selection_unusable in Hus. }
  rewrite <- Hsel in *.
  replace (is_empty sprite_data || is_empty selected) with false
    by (rewrite Hsd, Hsel; reflexivity).
  pose proof (fold_grow_bounds_describe files selected sprite_data [] initial_bounds Hfin
                eq_refl) as Hd.
  simpl in Hd.
  destruct (fold_left (grow_bounds files selected) sprite_data initial_bounds)
    as [[[min_x min_y] max_x] max_y].
  exists min_x, min_y, max_x, max_y. split; [exact Hd|].
  unfold Spec.bounds_describe in Hd.
  destruct (List.filter (Spec.usable files selected) sprite_data) as [|u us] eqn:Hf;
    [now destruct Hus|].
  destruct Hd as ([(q & Hq & Hfq) _] & _).
  assert (Hfinq : Float.is_finite min_x = true).
  { rewrite <- Hfq. rewrite Forall_forall in Hfin. specialize (Hfin q).
    rewrite list_elem_of_In in Hfin. specialize (Hfin Hq). unfold Spec.finite_edges in Hfin.
    apply andb_prop in Hfin as [Hfin _]. apply andb_prop in Hfin as [Hfin _].
    now apply andb_prop in Hfin as [Hfin _]. }
  now rewrite finite_not_infinity by exact Hfinq.
Qed.

Lemma canvas_size_skips_unopened (files : gmap string image) (selected : list string)
    (before after : list part) (p : part) :
  open_image files (sprite_path p) = None ->
  calculate_canvas_size files (before ++ p :: after) selected =
  calculate_canvas_size files (before ++ after) selected.
Proof.
  intros Hp.
  assert (Hfold : forall b, fold_left (grow_bounds files selected) (before ++ p :: after) b =
                            fold_left (grow_bounds files selected) (before ++ after) b).
  { intros b. rewrite !fold_left_app. simpl. now rewrite grow_bounds_unopened. }
  unfold calculate_canvas_size. rewrite Hfold.
  destruct selected as [|s sel]; [now rewrite !orb_true_r|]. cbn [is_empty]. rewrite !orb_false_r.
  destruct before as [|q before]; [|reflexivity]. simpl app.
  destruct after as [|q after]; [|reflexivity]. simpl.
  reflexivity.
Qed.

Lemma canvas_size_at_least (files : gmap string image) (sprite_data : list part)
    (selected : list string) (w h : Z) :
  calculate_canvas_size files sprite_data selected = Float.Ok (w, h) ->
  2000 <= w /\ 4000 <= h.
Proof.
  unfold calculate_canvas_size, base_canvas_size.
  destruct (is_empty sprite_data || is_empty selected); [intros [= <- <-]; lia|].
  destruct (fold_left _ _ _) as [[[min_x min_y] max_x] max_y].
  destruct (Float.eqb min_x Float.infinity); [intros [= <- <-]; lia|].
  destruct (Float.py_int (Float.sub max_x min_x)); [|discriminate].
  destruct (Float.py_int (Float.sub max_y min_y)); [|discriminate].
  intros [= <- <-]. lia.
Qed.




(** The spans are those of binary64. Two 1 x 1 sprites at x = 2^-55 and
    x = 20 lie less than 2000 pixels apart, the difference of their
    edges rounds to 2000 and the canvas is 2400 wide. Two sprites at
    x = -17e305 and x = 17e305 have edges that are numbers and a span
    that is not: sizing raises [OverflowError], and so does the render.
    A part whose ordinate is NaN leaves the vertical bounds at the
    initial infinities, and sizing raises as well. *)
Lemma canvas_size_in_binary64 :
  let dot := {[ "dot.png" := Examples.plain 1 1 (Pixel 9 9 9 255) ]} : gmap string image in
  let at_x x := Examples.mk_part "p" "dot.png" x Float.zero 0 in
  calculate_canvas_size dot
    [at_x (Float.div (Float.of_int 1) (Float.of_int (2 ^ 55))); at_x (Float.of_int 20)] ["p"]
    = Float.Ok (2400, 4000) /\
  Forall (fun p => Spec.finite_edges dot p = true)
    [at_x (Float.of_int (- 17 * 10 ^ 305)); at_x (Float.of_int (17 * 10 ^ 305))] /\
  calculate_canvas_size dot
    [at_x (Float.of_int (- 17 * 10 ^ 305)); at_x (Float.of_int (17 * 10 ^ 305))] ["p"]
    = Float.Raise Float.OverflowError /\
  create_composite_image dot
    [at_x (Float.of_int (- 17 * 10 ^ 305)); at_x (Float.of_int (17 * 10 ^ 305))] None None None
    = Float.Raise Float.OverflowError /\
  calculate_canvas_size dot [Examples.mk_part "p" "dot.png" Float.zero Float.nan 0] ["p"]
    = Float.Raise Float.OverflowError.
Proof.
  intros dot at_x. split; [vm_compute; reflexivity|]. split; [repeat constructor|].
  split; [vm_compute; reflexivity|]. split; vm_compute; reflexivity.
Qed.

End sizing.

(** ** Colour tint *)

Section tint.
Import Raster Tint Numpy.

Lemma place_between_finite (x lo hi : Float.float) :
  Float.is_finite lo = true -> Float.is_finite hi = true ->
  Float.leb lo x = true -> Float.leb x hi = true ->
  Float.is_finite x = true /\
  (Float.value lo <= Float.value x)%Q /\ (Float.value x <= Float.value hi)%Q.
Proof.
  intros Hlo Hhi (p & q & Hp & Hq & H)%leb_iff (q' & r & Hq' & Hr & H')%leb_iff.
  rewrite Hq in Hq'. injection Hq' as <-.
  rewrite place_finite in Hp, Hr by assumption. injection Hp as <-. injection Hr as <-.
  destruct q as [a v]. unfold Float.place_le in H, H'. simpl in H, H'.
  assert (Ha : a = 0) by (destruct H as [H|[H _]], H' as [H'|[H' _]]; lia). subst a.
  assert (Hx : Float.is_finite x = true) by now apply (place_is_finite x v).
  rewrite place_finite in Hq by exact Hx. injection Hq as <-.
  split; [exact Hx|]. split.
  - destruct H as [H|[_ H]]; [lia|exact H].
  - destruct H' as [H'|[_ H']]; [lia|exact H'].
Qed.

Lemma ltb_false_value (x y : Float.float) :
  Float.is_finite x = true -> Float.is_finite y = true ->
  Float.ltb x y = false -> (Float.value y <= Float.value x)%Q.
Proof.
  intros Hx Hy H. apply Qnot_lt_le. intros Hlt. apply (ltb_value x y Hx Hy) in Hlt. congruence.
Qed.

Lemma truncated_eq (v : Q) (n : Z) : (v == inject_Z n)%Q -> Spec.truncated v n.
Proof.
  intros H. unfold Spec.truncated. rewrite H. split; intros _; split;
    unfold Qle, Qlt; simpl; lia.
Qed.

(** One channel of the tint is the [float32] product, clamped and cut to
    its integer part. *)
Lemma tint_channel_scaled_clamped (factor : Float.float) (c : Z) :
  Spec.scaled_clamped factor c (tint_channel factor c).
Proof.
  unfold Spec.scaled_clamped, tint_channel. fold (Spec.product32 factor c).
  set (v := Spec.product32 factor c). unfold clip.
  assert (H0 : Float.is_finite (Float.of_uint8 0) = true) by reflexivity.
  assert (H255 : Float.is_finite (Float.of_uint8 255) = true) by reflexivity.
  split; [|split].
  - intros Hneg.
    assert (Hnan : Float.is_nan v = false) by now destruct v.
    assert (Hlow : Float.ltb (Float.of_uint8 0) v = false).
    { destruct (Float.ltb (Float.of_uint8 0) v) eqn:H; [|reflexivity].
      apply ltb_leb in H. apply ltb_not_leb in Hneg. congruence. }
    rewrite Hnan, Hlow. reflexivity.
  - intros Hbig.
    assert (Hnan : Float.is_nan v = false) by (destruct v; [reflexivity..|discriminate|reflexivity]).
    assert (Hlow : Float.ltb (Float.of_uint8 0) v = true).
    { apply leb_ltb_trans with (Float.of_uint8 255); [reflexivity|exact Hbig]. }
    assert (Hhigh : Float.ltb v (Float.of_uint8 255) = false).
    { destruct (Float.ltb v (Float.of_uint8 255)) eqn:H; [|reflexivity].
      apply ltb_leb in H. apply ltb_not_leb in Hbig. congruence. }
    rewrite Hnan, Hlow, Hhigh. reflexivity.
  - intros Hlo Hhi.
    destruct (place_between_finite v _ _ H0 H255 Hlo Hhi) as (Hfin & Hge & Hle).
    rewrite (finite_not_nan v Hfin).
    assert (Hle' : (Float.value v <= inject_Z 255)%Q).
    { apply Qle_trans with (Float.value (Float.of_uint8 255)); [exact Hle|].
      unfold Qle; simpl; lia. }
    assert (Hge' : (0 <= Float.value v)%Q).
    { apply Qle_trans with (Float.value (Float.of_uint8 0)); [|exact Hge].
      unfold Qle; simpl; lia. }
    destruct (Float.ltb (Float.of_uint8 0) v) eqn:Hlow.
    + destruct (Float.ltb v (Float.of_uint8 255)) eqn:Hhigh.
      * unfold to_uint8. rewrite Hfin.
        pose proof (truncate_nonneg _ 255 Hge' Hle') as Hr.
        rewrite Z.mod_small by lia. apply truncate_truncated.
      * apply (ltb_false_value v _ Hfin H255) in Hhigh.
        change (to_uint8 (Float.of_uint8 255)) with 255. apply truncated_eq.
        apply Qle_antisym; [exact Hle'|].
        apply Qle_trans with (Float.value (Float.of_uint8 255)); [|exact Hhigh].
        unfold Qle; simpl; lia.
    + apply (ltb_false_value _ v H0 Hfin) in Hlow.
      change (to_uint8 (Float.of_uint8 0)) with 0. apply truncated_eq.
      apply Qle_antisym; [|exact Hge'].
      apply Qle_trans with (Float.value (Float.of_uint8 0)); [exact Hlow|].
      vm_compute. discriminate.
Qed.

Lemma tint_pixel_scaled_clamped (f : color) (p : pixel) :
  Spec.pixel_scaled_clamped f p (tint_pixel f p).
Proof.
  unfold Spec.pixel_scaled_clamped, tint_pixel. simpl.
  split; [|split; [|split]]; apply tint_channel_scaled_clamped.
Qed.

(** Every 8-bit channel is a [float32], and its product with 1.0 is the
    channel itself: checked on the 256 channels. *)
Lemma tint_channel_identity (c : Z) : channel_ok c -> tint_channel Float.one c = c.
Proof.
  intros Hc. unfold channel_ok in Hc.
  assert (H : forallb (fun k => tint_channel Float.one k =? k) (range 256) = true)
    by (vm_compute; reflexivity).
  apply Z.eqb_eq. apply (forallb_range _ _ H). lia.
Qed.

Lemma tint_pixel_identity (p : pixel) : pixel_ok p -> tint_pixel identity_color p = p.
Proof.
  intros (Hr & Hg & Hb & Ha). unfold tint_pixel, identity_color. simpl.
  rewrite !tint_channel_identity by assumption. now destruct p.
Qed.

(** The products are those of binary32: with the factor 0.7 the pixel
    (200, 10, 255, 30) becomes (140, 7, 178, 21), although 0.7 as a
    float is below 7/10 and the integer part of the exact product by 200
    is 139. *)
Lemma tint_in_binary32 :
  let f := Float.of_ratio 7 10 in
  tint_pixel (Color f f f f) (Pixel 200 10 255 30) = Pixel 140 7 178 21 /\
  (Float.value f * 200 < 140)%Q /\
  Float.truncate (Float.value f * 200) = 139.
Proof. repeat split; vm_compute; reflexivity. Qed.

Lemma run_bind {A B} (c : M A) (k : A -> M B) (h h' : heap) (a : A) :
  c h = Some (a, h') -> bind c k h = k a h'.
Proof. intros H. unfold bind. now rewrite H. Qed.

Lemma load_run (h : heap) (l : nat) (o : object) :
  h !! l = Some o -> load l h = Some (o, h).
Proof. intros H. unfold load. now rewrite H. Qed.

Lemma np_array_run (h : heap) (l : nat) (img : image) :
  h !! l = Some (ImageObj img) ->
  np_array l h =
    Some (length h,
          h ++ [FloatArray (width img) (height img)
                  (fun x y => let p := pixel_at img x y in
                              Floats (Float.of_uint8 (red p)) (Float.of_uint8 (green p))
                                     (Float.of_uint8 (blue p)) (Float.of_uint8 (alpha p)))]).
Proof. intros H. unfold np_array. now rewrite (run_bind _ _ _ _ _ (load_run _ _ _ H)). Qed.

(** The in-place product rewrites the array where it is and nothing
    else. *)
Lemma imul_channel_run (h : heap) (w ht : Z) (data : Z -> Z -> floats) (ch : nat)
    (factor : Float.float) :
  imul_channel (length h) ch factor (h ++ [FloatArray w ht data]) =
    Some (tt, h ++ [FloatArray w ht (fun x y => scale_channel ch factor (data x y))]).
Proof.
  unfold imul_channel.
  rewrite (run_bind _ _ _ _ _ (load_run _ _ _ (list_lookup_middle h [] _ _ eq_refl))).
  unfold store. rewrite (list_lookup_middle h [] _ _ eq_refl).
  f_equal. f_equal. unfold heap in *.
  rewrite (insert_app_r_alt h) by lia. now rewrite Nat.sub_diag.
Qed.

Lemma np_clip_run (h : heap) (l : nat) (w ht : Z) (data : Z -> Z -> floats) :
  h !! l = Some (FloatArray w ht data) ->
  np_clip l h =
    Some (length h,
          h ++ [FloatArray w ht
                  (fun x y => let v := data x y in
                              Floats (clip (f0 v)) (clip (f1 v)) (clip (f2 v)) (clip (f3 v)))]).
Proof. intros H. unfold np_clip. now rewrite (run_bind _ _ _ _ _ (load_run _ _ _ H)). Qed.

Lemma astype_uint8_run (h : heap) (l : nat) (w ht : Z) (data : Z -> Z -> floats) :
  h !! l = Some (FloatArray w ht data) ->
  astype_uint8 l h =
    Some (length h,
          h ++ [ByteArray w ht
                  (fun x y => let v := data x y in
                              Pixel (to_uint8 (f0 v)) (to_uint8 (f1 v))
                                    (to_uint8 (f2 v)) (to_uint8 (f3 v)))]).
Proof. intros H. unfold astype_uint8. now rewrite (run_bind _ _ _ _ _ (load_run _ _ _ H)). Qed.

Lemma fromarray_run (h : heap) (l : nat) (w ht : Z) (data : Z -> Z -> pixel) :
  h !! l = Some (ByteArray w ht data) ->
  fromarray l h = Some (length h, h ++ [ImageObj (Image RGBA w ht data)]).
Proof. intros H. unfold fromarray. now rewrite (run_bind _ _ _ _ _ (load_run _ _ _ H)). Qed.

(** The steps after the mode check, on a heap holding the image: four
    objects are appended, the last one the tinted image. *)
Lemma tint_steps_run (h : heap) (l : nat) (img : image) (f : color) :
  h !! l = Some (ImageObj img) ->
  exists a1 a2 a3 out,
    (let* img_array := np_array l in
     let* _ := imul_channel img_array 0 (cr f) in
     let* _ := imul_channel img_array 1 (cg f) in
     let* _ := imul_channel img_array 2 (cb f) in
     let* _ := imul_channel img_array 3 (ca f) in
     let* img_array := np_clip img_array in
     let* adjusted_array := astype_uint8 img_array in
     fromarray adjusted_array) h
    = Some ((length h + 3)%nat, h ++ [a1; a2; a3; ImageObj out]) /\
    mode out = RGBA /\ width out = width img /\ height out = height img /\
    forall x y, pixel_at out x y = tint_pixel f (pixel_at img x y).
Proof.
  intros H.
  rewrite (run_bind _ _ _ _ _ (np_array_run _ _ _ H)).
  rewrite !(run_bind _ _ _ _ _ (imul_channel_run _ _ _ _ _ _)).
  rewrite (run_bind _ _ _ _ _ (np_clip_run _ _ _ _ _ (list_lookup_middle h [] _ _ eq_refl))).
  rewrite (run_bind _ _ _ _ _
             (astype_uint8_run _ _ _ _ _ (list_lookup_middle (h ++ [_]) [] _ _ eq_refl))).
  rewrite (fromarray_run _ _ _ _ _ (list_lookup_middle ((h ++ [_]) ++ [_]) [] _ _ eq_refl)).
  rewrite !length_app. simpl length. rewrite <- !app_assoc. simpl app.
  eexists _, _, _, _. split; [f_equal; f_equal; lia|].
  repeat split.
Qed.



End tint.
(** * Further properties *)

(** ** The object maps *)

Section object_maps.
Import Raster Tint Extractor.

Lemma dict_get_set {V} (d : Dict.dict V) (k k' : Z) (v : V) :
  Dict.get (Dict.set d k v) k' = if k =? k' then Some v else Dict.get d k'.
Proof.
  induction d as [|[k0 v0] d IH]; simpl.
  - reflexivity.
  - destruct (Z.eqb_spec k0 k) as [->|Hne]; simpl.
    + now destruct (k =? k').
    + rewrite IH. destruct (Z.eqb_spec k0 k') as [->|Hne'].
      * destruct (Z.eqb_spec k k'); [congruence|reflexivity].
      * reflexivity.
Qed.

Lemma index_object_game_objects (m : object_maps) (o : raw_object) (id : Z) :
  Dict.get (game_objects (index_object m o)) id =
  if path_id o =? id then
    match read o with
    | Some (GameObjectData n comps active) => Some (GameObject id n comps active)
    | _ => Dict.get (game_objects m) id
    end
  else Dict.get (game_objects m) id.
Proof.
  destruct o as [pid rd]. unfold index_object. simpl.
  destruct rd as [[]|]; simpl; rewrite ?dict_get_set;
    destruct (Z.eqb_spec pid id) as [->|]; reflexivity.
Qed.

Lemma index_object_transforms (m : object_maps) (o : raw_object) (id : Z) :
  Dict.get (transforms (index_object m o)) id =
  if path_id o =? id then
    match read o with
    | Some (TransformData go pos rot scale children father) =>
        Some (Transform id go pos rot scale children father)
    | _ => Dict.get (transforms m) id
    end
  else Dict.get (transforms m) id.
Proof.
  destruct o as [pid rd]. unfold index_object. simpl.
  destruct rd as [[]|]; simpl; rewrite ?dict_get_set;
    destruct (Z.eqb_spec pid id) as [->|]; reflexivity.
Qed.

Lemma index_object_renderers (m : object_maps) (o : raw_object) (id : Z) :
  Dict.get (sprite_renderers (index_object m o)) id =
  if path_id o =? id then
    match read o with
    | Some (SpriteRendererData go sprite order col) =>
        Some (SpriteRenderer id go sprite order col)
    | _ => Dict.get (sprite_renderers m) id
    end
  else Dict.get (sprite_renderers m) id.
Proof.
  destruct o as [pid rd]. unfold index_object. simpl.
  destruct rd as [[]|]; simpl; rewrite ?dict_get_set;
    destruct (Z.eqb_spec pid id) as [->|]; reflexivity.
Qed.

(** X1. A lookup in the object maps returns what the last readable
    record of that type under the path id gives: later records replace
    earlier ones, unreadable records and records of other types leave
    the maps as they are. *)
Theorem object_maps_last_write_wins (objs : list raw_object) (id : Z) :
  let m := build_object_maps objs in
  Dict.get (game_objects m) id = Graph.last_game_object objs id /\
  Dict.get (transforms m) id = Graph.last_transform objs id /\
  Dict.get (sprite_renderers m) id = Graph.last_renderer objs id.
Proof.
  unfold build_object_maps, Graph.last_game_object, Graph.last_transform, Graph.last_renderer.
  change (@None game_object) with (Dict.get (game_objects empty_maps) id).
  change (@None transform) with (Dict.get (transforms empty_maps) id).
  change (@None sprite_renderer) with (Dict.get (sprite_renderers empty_maps) id).
  generalize empty_maps.
  induction objs as [|o objs IH]; intros m; simpl; [now repeat split|].
  destruct (IH (index_object m o)) as (Hg & Ht & Hr).
  rewrite Hg, Ht, Hr, index_object_game_objects, index_object_transforms,
    index_object_renderers.
  now repeat split.
Qed.

End object_maps.
Section keyed_maps.
Import Raster Tint Extractor.

(** X2. In the three object maps every path id has one entry, and the
    record stored under a path id carries that id. *)
Theorem object_maps_well_keyed (objs : list raw_object) :
  Graph.well_keyed (build_object_maps objs).
Proof. apply build_object_maps_well_keyed. Qed.

Lemma find_some_value {V} (test : V -> bool) (d : Dict.dict V) (v : V) :
  Dict.first_value test d = Some v -> In v (Dict.values d) /\ test v = true.
Proof. unfold Dict.first_value. apply find_some. Qed.

Lemma join_object_from (m : object_maps) (entry : Z * game_object) (p : joined_part) :
  Graph.well_keyed m -> In entry (game_objects m) -> In p (join_object m entry) ->
  jp_game_object_id p = fst entry /\ Graph.joined_from m p.
Proof.
  intros (Hg & Ht & Hr) Hentry Hp. destruct entry as [id go]. unfold join_object in Hp.
  destruct (find_transform m id) as [t|] eqn:Hft; [|destruct Hp].
  destruct (find_renderer m id) as [r|] eqn:Hfr; [|destruct Hp].
  destruct Hp as [<-|[]]. simpl. split; [reflexivity|].
  apply find_some_value in Hft as [Htin Htest]. apply find_some_value in Hfr as [Hrin Hrtest].
  apply Z.eqb_eq in Htest, Hrtest.
  exists go, t, r. simpl.
  assert (Hgo : Dict.get (game_objects m) id = Some go).
  { assert (go_id go = id).
    { destruct Hg as [_ Hall]. rewrite Forall_forall in Hall.
      now apply (Hall (id, go)), list_elem_of_In. }
    rewrite <- H. apply (keyed_get_value go_id); [exact Hg|].
    apply in_map_iff. exists (id, go). now split. }
  repeat split; try reflexivity; try assumption.
  - now apply (keyed_get_value t_id).
  - now apply (keyed_get_value r_id).
Qed.

(** X3. Every joined part is made of records of the bundle: the game
    object it names, a transform and a sprite renderer whose owner is
    that game object, with the name, position, sorting order, sprite id
    and colour taken from them; and no game object is joined twice. *)
Theorem joined_parts_from_records (objs : list raw_object) :
  let m := build_object_maps objs in
  Forall (Graph.joined_from m) (join_components m) /\
  NoDup (map jp_game_object_id (join_components m)).
Proof.
  intros m. pose proof (build_object_maps_well_keyed objs) as Hk. fold m in Hk.
  unfold join_components.
  assert (Hgen : forall l, (forall e, In e l -> In e (game_objects m)) ->
            NoDup (map fst l) ->
            Forall (Graph.joined_from m) (flat_map (join_object m) l) /\
            NoDup (map jp_game_object_id (flat_map (join_object m) l)) /\
            forall id, In id (map jp_game_object_id (flat_map (join_object m) l)) ->
                       In id (map fst l)).
  { induction l as [|e l IH]; intros Hsub Hnd; simpl.
    - repeat split; [constructor|constructor|tauto].
    - apply NoDup_cons in Hnd as [He Hnd].
      destruct IH as (Hall & Hnd' & Hids); [intros; apply Hsub; now right|exact Hnd|].
      assert (Hhead : forall p, In p (join_object m e) ->
                jp_game_object_id p = fst e /\ Graph.joined_from m p).
      { intros p Hp. apply join_object_from; [exact Hk|apply Hsub; now left|exact Hp]. }
      assert (Hlen : join_object m e = [] \/ exists p, join_object m e = [p]).
      { unfold join_object. destruct e as [id go].
        destruct (find_transform m id), (find_renderer m id); eauto. }
      split; [|split].
      + apply Forall_app. split; [|exact Hall].
        apply Forall_forall. intros p Hp. now apply Hhead, list_elem_of_In.
      + rewrite map_app. destruct Hlen as [->|[p Hp]]; [exact Hnd'|]. rewrite Hp in *. simpl.
        apply NoDup_cons. split; [|exact Hnd'].
        rewrite list_elem_of_In. intros Hin. apply Hids in Hin.
        destruct (Hhead p (or_introl eq_refl)) as [Hid _]. rewrite Hid in Hin.
        apply He. now apply list_elem_of_In.
      + intros id. rewrite map_app, in_app_iff. intros [Hin|Hin]; [|right; now apply Hids].
        left. apply in_map_iff in Hin as (p & <- & Hp). now destruct (Hhead p Hp). }
  destruct (Hgen (game_objects m)) as (H1 & H2 & _); [auto|apply Hk|]. now split.
Qed.

End keyed_maps.
(** ** The shape of the hierarchy *)

Section hierarchy_shape.
Import Raster Tint Extractor.

(** X4. When hierarchy assembly returns, the forest has one tree per
    root transform (parent 0), in the order of the transform map; every
    node reports a transform of the map at one level below its parent
    (roots at level 0), and its children are exactly the child
    references that are not null and name a transform of the map, in
    order: unresolved references are left out, nothing else is. *)
Theorem hierarchy_forest_sound (objs : list raw_object) (fuel : nat) (forest : list node) :
  let m := build_object_maps objs in
  assemble_hierarchy m fuel = Done forest ->
  map n_transform_id forest = map t_id (root_transforms m) /\
  Forall (fun n => n_level n = 0%nat) forest /\
  Forall (Graph.sound_node m 0) forest.
Proof.
  intros m H. destruct (build_object_maps_well_keyed objs) as (_ & Ht & _). fold m in Ht.
  destruct (assemble_roots_forest m fuel (root_transforms m)) with (forest := forest)
    as [Hids Hall]; [|exact H|].
  - intros root Hin. unfold root_transforms in Hin. apply filter_In in Hin as [Hin _].
    now rewrite (keyed_get_value t_id _ _ Ht Hin).
  - split; [exact Hids|]. split; [|exact Hall].
    eapply Forall_impl; [exact Hall|]. intros n Hn.
    now apply sound_node_unfold in Hn.
Qed.

(** The tree of two transforms: one root, whose only child node is the
    transform 2 (the null and the unknown reference are left out). *)
Lemma hierarchy_forest_sound_witness :
  exists forest,
    assemble_hierarchy (build_object_maps Examples.tree_objects) 3 = Done forest /\
    map n_transform_id forest = [1] /\
    map (fun n => map n_transform_id (n_children n)) forest = [[2]] /\
    Forall (Graph.sound_node (build_object_maps Examples.tree_objects) 0) forest.
Proof.
  eexists. split; [reflexivity|].
  destruct (hierarchy_forest_sound Examples.tree_objects 3 _ eq_refl) as (Hids & _ & Hall).
  split; [exact Hids|]. split; [reflexivity|exact Hall].
Defined.

End hierarchy_shape.
(** ** Sprite files and the sprite mapping *)

Section sprite_files.
Import Raster Tint Extractor.

Lemma prefix_append (s t : string) : String.prefix s (s +:+ t) = true.
Proof.
  induction s as [|c s IH]; simpl; [now destruct t|].
  now destruct (ascii_dec c c).
Qed.

Lemma sprite_output_path_in_dir (n : string) :
  String.prefix Sprites.sprites_dir (sprite_output_path n) = true.
Proof.
  change (sprite_output_path n) with (Sprites.sprites_dir +:+ (safe_name n +:+ ".png")).
  apply prefix_append.
Qed.

Lemma mark_corrected_sound (id : Z) (parts : list joined_part) (q : joined_part) :
  List.find (fun p => jp_sprite_id p =? id) parts = Some q ->
  is_default_color (jp_initial_color q) = false ->
  Forall Sprites.mark_sound parts -> Forall Sprites.mark_sound (mark_corrected id parts).
Proof.
  intros Hfind Hq Hall. induction Hall as [|p parts Hp Hall IH]; simpl in *; [constructor|].
  destruct (jp_sprite_id p =? id).
  - injection Hfind as ->. constructor; [|exact Hall]. intros _. exact Hq.
  - constructor; [exact Hp|now apply IH].
Qed.

(** What one turn of the sprite loop keeps true. *)
Lemma extract_sprite_keeps (files : gmap string image) (st : sprite_state) (o : raw_object) :
  let st' := extract_sprite st o in
  ((forall id info, st_mapping st !! id = Some info ->
      is_Some (st_files st !! si_file_path info)) ->
   forall id info, st_mapping st' !! id = Some info ->
      is_Some (st_files st' !! si_file_path info)) /\
  ((forall path, String.prefix Sprites.sprites_dir path = false ->
      st_files st !! path = files !! path) ->
   forall path, String.prefix Sprites.sprites_dir path = false ->
      st_files st' !! path = files !! path) /\
  (forall path, is_Some (st_files st !! path) -> is_Some (st_files st' !! path)) /\
  (Forall Sprites.mark_sound (st_parts st) -> Forall Sprites.mark_sound (st_parts st')).
Proof.
  unfold extract_sprite.
  destruct (read o) as [[| | |sprite_name [img|]|]|];
    try (cbv zeta; repeat split; intros; eauto; fail).
  set (path := sprite_output_path sprite_name).
  set (info := SpriteInfo sprite_name path (width img, height img)).
  assert (Hmap :
    (forall id i, st_mapping st !! id = Some i -> is_Some (st_files st !! si_file_path i)) ->
    forall (x : image) id i, <[path_id o := info]> (st_mapping st) !! id = Some i ->
      is_Some (<[path := x]> (st_files st) !! si_file_path i)).
  { intros H x id i Hi. destruct (decide (path_id o = id)) as [<-|Hne].
    - rewrite lookup_insert_eq in Hi. injection Hi as <-. simpl.
      rewrite lookup_insert_eq. eauto.
    - rewrite lookup_insert_ne in Hi by exact Hne. specialize (H _ _ Hi).
      destruct (decide (path = si_file_path i)) as [<-|Hp].
      + rewrite lookup_insert_eq. eauto.
      + now rewrite lookup_insert_ne. }
  assert (Hout : forall (x : image),
    (forall p, String.prefix Sprites.sprites_dir p = false -> st_files st !! p = files !! p) ->
    forall p, String.prefix Sprites.sprites_dir p = false ->
      <[path := x]> (st_files st) !! p = files !! p).
  { intros x H p Hp. rewrite lookup_insert_ne; [now apply H|].
    intros <-. unfold path in Hp. now rewrite sprite_output_path_in_dir in Hp. }
  assert (Hkeep : forall (x : image) p,
    is_Some (st_files st !! p) -> is_Some (<[path := x]> (st_files st) !! p)).
  { intros x p H. destruct (decide (path = p)) as [<-|Hp].
    - rewrite lookup_insert_eq. eauto.
    - now rewrite lookup_insert_ne. }
  destruct (option_map jp_initial_color (List.find _ (st_parts st))) as [c|] eqn:Hc;
    [destruct (negb (is_default_color c)) eqn:Hdef|]; simpl;
    (split; [intros H; now apply (Hmap H)|]);
    (split; [intros H; now apply Hout|]); (split; [now apply Hkeep|]);
    try (intros H; exact H).
  intros Hall. destruct (List.find _ (st_parts st)) as [q|] eqn:Hfind; [|discriminate].
  injection Hc as <-. apply negb_true_iff in Hdef.
  now apply (mark_corrected_sound _ _ q).
Qed.

Lemma extract_sprites_keep (files : gmap string image) (objs : list raw_object) :
  forall st,
  (forall id info, st_mapping st !! id = Some info ->
      is_Some (st_files st !! si_file_path info)) ->
  (forall path, String.prefix Sprites.sprites_dir path = false ->
      st_files st !! path = files !! path) ->
  (forall path, is_Some (files !! path) -> is_Some (st_files st !! path)) ->
  Forall Sprites.mark_sound (st_parts st) ->
  let st' := fold_left extract_sprite objs st in
  (forall id info, st_mapping st' !! id = Some info ->
      is_Some (st_files st' !! si_file_path info)) /\
  (forall path, String.prefix Sprites.sprites_dir path = false ->
      st_files st' !! path = files !! path) /\
  (forall path, is_Some (files !! path) -> is_Some (st_files st' !! path)) /\
  Forall Sprites.mark_sound (st_parts st').
Proof.
  induction objs as [|o objs IH]; intros st H1 H2 H3 H4; simpl; [now repeat split|].
  destruct (extract_sprite_keeps files st o) as (K1 & K2 & K3 & K4).
  apply IH; [now apply K1|now apply K2|intros path Hp; now apply K3, H3|now apply K4].
Qed.

Lemma join_components_unmarked (m : object_maps) :
  Forall Sprites.mark_sound (join_components m).
Proof.
  unfold join_components. apply Forall_forall. intros p Hp.
  apply list_elem_of_In, in_flat_map in Hp as ([id go] & _ & Hp). unfold join_object in Hp.
  destruct (find_transform m id), (find_renderer m id); try destruct Hp as [<-|[]];
    try destruct Hp. intros H. discriminate.
Qed.



End sprite_files.
Section sprite_mapping.
Import Raster Tint Extractor.

Lemma extract_sprite_mapping (st : sprite_state) (o : raw_object) (id : Z) :
  st_mapping (extract_sprite st o) !! id =
  match read o with
  | Some (SpriteData n (Some img)) =>
      if decide (path_id o = id)
      then Some (SpriteInfo n (sprite_output_path n) (width img, height img))
      else st_mapping st !! id
  | _ => st_mapping st !! id
  end.
Proof.
  unfold extract_sprite.
  destruct (read o) as [[| | |n [img|]|]|]; try reflexivity.
  destruct (option_map _ _) as [c|]; [destruct (negb (is_default_color c))|]; simpl;
    (destruct (decide (path_id o = id)) as [<-|Hne];
     [now rewrite lookup_insert_eq|now rewrite lookup_insert_ne]).
Qed.

(** X6. The sprite mapping has an entry for a path id exactly when some
    sprite object of the bundle with that path id reads and has an
    image; the entry records the name and the size of such a sprite and
    the file path made from its name. *)
Theorem sprite_mapping_entries (fuel : nat) (files files' : gmap string image)
    (objs : list raw_object) (r : extraction_results) :
  extract_character_parts fuel files objs = Done (r, files') ->
  forall id,
    (is_Some (sprite_mapping r !! id) <->
     exists o, In o objs /\ path_id o = id /\ Sprites.sprite_with_image o = true) /\
    (forall info, sprite_mapping r !! id = Some info ->
     exists o n img, In o objs /\ path_id o = id /\ read o = Some (SpriteData n (Some img)) /\
                     info = SpriteInfo n (sprite_output_path n) (width img, height img)).
Proof.
  unfold extract_character_parts.
  destruct (assemble_hierarchy _ fuel) as [forest|]; [|discriminate].
  intros [= <- _] id. simpl.
  set (st0 := SpriteState (join_components (build_object_maps objs)) ∅ files).
  assert (Hgen : forall st,
    (is_Some (st_mapping (fold_left extract_sprite objs st) !! id) <->
     is_Some (st_mapping st !! id) \/
     exists o, In o objs /\ path_id o = id /\ Sprites.sprite_with_image o = true) /\
    (forall info, st_mapping (fold_left extract_sprite objs st) !! id = Some info ->
     st_mapping st !! id = Some info \/
     exists o n img, In o objs /\ path_id o = id /\ read o = Some (SpriteData n (Some img)) /\
                     info = SpriteInfo n (sprite_output_path n) (width img, height img))).
  { induction objs as [|o objs IH]; intros st; simpl.
    - split; [|now left]. split; [now left|]. now intros [H|(o & [] & _)].
    - destruct (IH (extract_sprite st o)) as [Hdom Hval]. clear IH.
      rewrite extract_sprite_mapping in Hdom, Hval. split.
      + rewrite Hdom. unfold Sprites.sprite_with_image. split.
        * intros [H|(o' & Hin & Hid & Hs)]; [|right; exists o'; auto].
          destruct (read o) as [[| | |n [img|]|]|] eqn:Hread; auto.
          destruct (decide (path_id o = id)); auto.
          right. exists o. rewrite Hread. auto.
        * intros [H|(o' & [Heq|Hin] & Hid & Hs)].
          -- left. destruct (read o) as [[| | |n [img|]|]|]; auto.
             destruct (decide (path_id o = id)); eauto.
          -- left. subst o'. destruct (read o) as [[| | |n [img|]|]|]; try discriminate.
             rewrite decide_True by exact Hid. eauto.
          -- right. exists o'. auto.
      + intros info Hinfo. destruct (Hval info Hinfo) as [H|(o' & n & img & Hin & H)].
        * destruct (read o) as [[| | |n [img|]|]|] eqn:Hread; auto.
          destruct (decide (path_id o = id)) as [Hid|]; auto.
          right. exists o, n, img. injection H as <-. auto.
        * right. exists o', n, img. destruct H as (H1 & H2 & H3). auto. }
  destruct (Hgen st0) as [Hdom Hval]. split.
  - rewrite Hdom. simpl. rewrite lookup_empty. split; [|auto].
    intros [[x Hx]|H]; [discriminate|exact H].
  - intros info Hinfo. destruct (Hval info Hinfo) as [H|H]; [|exact H].
    simpl in H. now rewrite lookup_empty in H.
Qed.

(** The bundle with one sprite under path id 7. *)
Lemma sprite_mapping_entries_witness :
  exists r files',
    extract_character_parts 5 ∅ Examples.sprite_objects = Done (r, files') /\
    is_Some (sprite_mapping r !! 7) /\ sprite_mapping r !! 10 = None.
Proof.
  eexists _, _. split; [reflexivity|].
  destruct (sprite_mapping_entries 5 ∅ _ Examples.sprite_objects _ eq_refl 7) as [Hdom _].
  split; [|reflexivity]. apply Hdom.
  eexists. split; [do 5 right; left; reflexivity|]. split; reflexivity.
Defined.

Lemma underscore_safe :
  existsb (Nat.eqb (nat_of_ascii "_")) unsafe_codes = false.
Proof. reflexivity. Qed.

(** X7. The file name made from a sprite name has the length of the
    name and none of the characters that are replaced; a name without
    such characters is kept as it is. *)
Theorem safe_name_is_safe (s : string) :
  String.length (safe_name s) = String.length s /\
  Sprites.has_unsafe (safe_name s) = false /\
  (Sprites.has_unsafe s = false -> safe_name s = s).
Proof.
  induction s as [|c s (Hlen & Hsafe & Hfix)]; [repeat split|].
  cbn [safe_name String.length Sprites.has_unsafe].
  split; [now rewrite Hlen|]. unfold safe_ascii.
  destruct (existsb (Nat.eqb (nat_of_ascii c)) unsafe_codes) eqn:Hc.
  - split; [now rewrite underscore_safe, Hsafe|]. discriminate.
  - split; [now rewrite Hc, Hsafe|]. simpl. intros H. now rewrite Hfix.
Qed.

End sprite_mapping.
(** ** Colour tests and tint *)

Section colour_tests.
Import Raster Tint Extractor Compositor.

Lemma near_not_far (c : Float.float) : near_one c = true -> far_from_one c = false.
Proof.
  unfold near_one, far_from_one. intros H.
  destruct (Float.ltb Float.milli _) eqn:H'; [|reflexivity].
  apply ltb_leb in H'. apply ltb_not_leb in H. congruence.
Qed.

(** X8. A colour the extractor takes for the default (every channel
    within 0.001 of 1) is never a colour the compositor tints with. *)
Theorem default_color_not_changed (c : color) :
  is_default_color c = true -> color_changed c = false.
Proof.
  unfold is_default_color, color_changed. rewrite !andb_true_iff.
  intros (((Hr & Hg) & Hb) & Ha).
  now rewrite !near_not_far.
Qed.

Lemma default_color_not_changed_witness :
  let c := Color Float.one (Float.of_ratio 2001 2000) Float.one (Float.of_ratio 1999 2000) in
  is_default_color c = true /\ color_changed c = false.
Proof.
  intros c. assert (H : is_default_color c = true) by reflexivity.
  split; [exact H|]. now apply default_color_not_changed.
Defined.

End colour_tests.
(** ** The canvas *)

Section canvas.
Import Raster Tint Extractor Compositor.

Lemma tint_pixel_ok (f : color) (p : pixel) : pixel_ok (tint_pixel f p).
Proof.
  assert (H : forall v, channel_ok (to_uint8 v)).
  { intros v. unfold channel_ok, to_uint8. destruct (Float.is_finite v); [|lia].
    pose proof (Z.mod_pos_bound (Float.truncate (Float.value v)) 256). lia. }
  unfold pixel_ok, tint_pixel, tint_channel. simpl. auto.
Qed.

Lemma load_sprite_valid (files : gmap string image) (colors : option (gmap string color))
    (p : part) (s : image) :
  Canvas.valid_files files -> load_sprite files colors p = Some s ->
  forall i j, 0 <= i < width s -> 0 <= j < height s -> pixel_ok (pixel_at s i j).
Proof.
  intros Hv. unfold load_sprite, open_image.
  destruct (files !! sprite_path p) as [img|] eqn:Himg; [|discriminate].
  assert (Hraw : forall i j, 0 <= i < width img -> 0 <= j < height img ->
                  pixel_ok (pixel_at (convert_rgba img) i j))
    by (intros i j Hi Hj; now apply (Hv _ _ Himg)).
  destruct colors as [cs|]; [|intros [= <-]; exact Hraw].
  destruct (cs !! name p) as [c|]; [|intros [= <-]; exact Hraw].
  destruct (color_changed c); intros [= <-]; [|exact Hraw].
  intros i j _ _. apply tint_pixel_ok.
Qed.

Lemma out_alpha_bounds (sa da : Z) :
  channel_ok sa -> channel_ok da ->
  let out := shift_for_div255 (sa * 255 + da * (255 - sa) + 128) in
  channel_ok out /\ sa <= out /\ da <= out.
Proof.
  unfold channel_ok. intros Hs Hd. cbv zeta.
  assert (Hmono : forall k, 0 <= k <= 255 -> k * 255 <= sa * 255 + da * (255 - sa) ->
                    k <= shift_for_div255 (sa * 255 + da * (255 - sa) + 128)).
  { intros k Hk Hle. rewrite <- (div255_unit k Hk) at 1. apply shift_for_div255_mono. lia. }
  split; [split|split].
  - apply (Hmono 0); nia.
  - transitivity (shift_for_div255 (255 * 255 + 128));
      [apply shift_for_div255_mono; nia|now vm_compute].
  - apply Hmono; nia.
  - apply Hmono; nia.
Qed.

(** The blend of two 8-bit pixels is an 8-bit pixel at least as opaque
    as either. *)
Lemma alpha_composite_pixel_ok (dst src : pixel) :
  pixel_ok dst -> pixel_ok src ->
  pixel_ok (alpha_composite_pixel dst src) /\
  alpha dst <= alpha (alpha_composite_pixel dst src) /\
  alpha src <= alpha (alpha_composite_pixel dst src).
Proof.
  intros Hd Hs.
  destruct (alpha_composite_pixel_between dst src Hd Hs) as (Hr & Hg & Hb).
  destruct Hd as (Hdr & Hdg & Hdb & Hda), Hs as (Hsr & Hsg & Hsb & Hsa).
  unfold alpha_composite_pixel in *.
  destruct (Z.eqb_spec (alpha src) 0) as [Hz|Hnz].
  - unfold pixel_ok, channel_ok in *. repeat split; lia.
  - simpl in *. destruct (out_alpha_bounds (alpha src) (alpha dst) Hsa Hda) as (Ha & Ha1 & Ha2).
    unfold pixel_ok, Spec.between, channel_ok in *. simpl. repeat split; lia.
Qed.

(** An opaque pixel replaces what is beneath. *)
Lemma alpha_composite_pixel_opaque (dst src : pixel) :
  pixel_ok dst -> pixel_ok src -> alpha src = 255 -> alpha_composite_pixel dst src = src.
Proof.
  intros (Hdr & Hdg & Hdb & Hda) (Hsr & Hsg & Hsb & Hsa) Ha.
  unfold alpha_composite_pixel, channel_ok in *. rewrite Ha. simpl Z.eqb. cbv iota.
  unfold precision_bits. change (Z.shiftl 1 7) with 128.
  replace (alpha dst * (255 - 255)) with 0 by lia.
  change (255 * 255 * 255 * 128 / (255 * 255 + 0)) with 32640.
  change (255 * 128 - 32640) with 0.
  unfold over_channel, precision_bits. change (Z.shiftl 128 7) with 16384.
  rewrite !Z.mul_0_r, !Z.add_0_r.
  rewrite !scale_down_unit by lia. change (shift_for_div255 (255 * 255 + 128)) with 255.
  destruct src; simpl in *; now subst.
Qed.

(** What painting one part does to one pixel. *)
Lemma paint_part_pixel (files : gmap string image) (colors : option (gmap string color))
    (canvas_size : Z * Z) (composite : image) (p : part) (x y : Z) :
  pixel_ok (pixel_at composite x y) ->
  pixel_at (paint_part files colors canvas_size composite p) x y =
  match Canvas.layer_pixel files colors canvas_size p x y with
  | Some src => alpha_composite_pixel (pixel_at composite x y) src
  | None => pixel_at composite x y
  end.
Proof.
  intros Hdst. unfold paint_part, Canvas.layer_pixel.
  destruct (load_sprite files colors p) as [s|] eqn:Hload; [|reflexivity].
  rewrite (load_sprite_rgba _ _ _ _ Hload).
  destruct (placement canvas_size p s) as [[px py]|e]; [|reflexivity]. simpl fst; simpl snd.
  destruct (alpha_bbox_nonempty s) eqn:Hbbox; simpl.
  - now destruct (covers px py (width s) (height s) x y).
  - destruct (covers px py (width s) (height s) x y) eqn:Hcov; [|reflexivity].
    apply covers_inside in Hcov as [Hi Hj].
    pose proof (alpha_bbox_empty s _ _ Hbbox Hi Hj) as Hzero.
    rewrite paste_mask_pixel_transparent by assumption.
    unfold alpha_composite_pixel. now rewrite Hzero.
Qed.

Lemma paint_part_size (files : gmap string image) (colors : option (gmap string color))
    (canvas_size : Z * Z) (composite : image) (p : part) :
  let painted := paint_part files colors canvas_size composite p in
  mode painted = mode composite /\ width painted = width composite /\
  height painted = height composite.
Proof.
  unfold paint_part. destruct (load_sprite files colors p) as [s|]; [|now repeat split].
  destruct (placement canvas_size p s) as [[px py]|e]; [|now repeat split].
  now destruct (is_rgba s && alpha_bbox_nonempty s).
Qed.

Lemma layer_pixel_ok (files : gmap string image) (colors : option (gmap string color))
    (canvas_size : Z * Z) (p : part) (x y : Z) (src : pixel) :
  Canvas.valid_files files -> Canvas.layer_pixel files colors canvas_size p x y = Some src ->
  pixel_ok src.
Proof.
  intros Hv. unfold Canvas.layer_pixel.
  destruct (load_sprite files colors p) as [s|] eqn:Hload; [|discriminate].
  destruct (placement canvas_size p s) as [box|e]; [|discriminate].
  destruct (covers _ _ _ _ x y) eqn:Hcov; [|discriminate].
  intros [= <-]. apply covers_inside in Hcov as [Hi Hj].
  now apply (load_sprite_valid files colors p s).
Qed.

(** Painting a list of parts keeps every pixel an 8-bit pixel and never
    lowers its alpha. *)
Lemma paint_parts_ok (files : gmap string image) (colors : option (gmap string color))
    (canvas_size : Z * Z) (l : list part) (x y : Z) :
  Canvas.valid_files files ->
  forall composite, pixel_ok (pixel_at composite x y) ->
  let painted := fold_left (paint_part files colors canvas_size) l composite in
  pixel_ok (pixel_at painted x y) /\
  alpha (pixel_at composite x y) <= alpha (pixel_at painted x y) /\
  forall p src, In p l -> Canvas.layer_pixel files colors canvas_size p x y = Some src ->
                alpha src <= alpha (pixel_at painted x y).
Proof.
  intros Hv. induction l as [|q l IH]; intros composite Hok; simpl.
  - split; [exact Hok|]. split; [lia|]. intros p src [].
  - assert (Hstep : pixel_ok (pixel_at (paint_part files colors canvas_size composite q) x y) /\
                    alpha (pixel_at composite x y) <=
                      alpha (pixel_at (paint_part files colors canvas_size composite q) x y) /\
                    forall src, Canvas.layer_pixel files colors canvas_size q x y = Some src ->
                      alpha src <= alpha (pixel_at (paint_part files colors canvas_size composite q) x y)).
    { rewrite paint_part_pixel by exact Hok.
      destruct (Canvas.layer_pixel files colors canvas_size q x y) as [src|] eqn:Hl.
      - pose proof (layer_pixel_ok _ _ _ _ _ _ _ Hv Hl) as Hsrc.
        destruct (alpha_composite_pixel_ok _ _ Hok Hsrc) as (H1 & H2 & H3).
        split; [exact H1|]. split; [exact H2|]. now intros ? [= <-].
      - split; [exact Hok|]. split; [lia|]. discriminate. }
    destruct Hstep as (Hok' & Hmono & Hq).
    destruct (IH _ Hok') as (H1 & H2 & H3).
    split; [exact H1|]. split; [lia|].
    intros p src [<-|Hin] Hl; [|now apply (H3 p)].
    specialize (Hq _ Hl). lia.
Qed.

Lemma paint_parts_size (files : gmap string image) (colors : option (gmap string color))
    (canvas_size : Z * Z) (l : list part) :
  forall composite,
  let painted := fold_left (paint_part files colors canvas_size) l composite in
  mode painted = mode composite /\ width painted = width composite /\
  height painted = height composite.
Proof.
  induction l as [|q l IH]; intros composite; simpl; [now repeat split|].
  destruct (IH (paint_part files colors canvas_size composite q)) as (H1 & H2 & H3).
  destruct (paint_part_size files colors canvas_size composite q) as (K1 & K2 & K3).
  repeat split; congruence.
Qed.

Lemma sorted_parts_In (sprite_data : list part) (sel : list string)
    (depths : option (gmap string Z)) (p : part) :
  In p (sorted_parts sprite_data sel depths) <->
  In p sprite_data /\ name_in (name p) sel = true.
Proof.
  rewrite <- (filter_In (fun p => name_in (name p) sel)).
  unfold sorted_parts. rewrite <- !list_elem_of_In.
  destruct depths as [d|]; [destruct (any_value d)|]; now rewrite <- py_sorted_perm.
Qed.

End canvas.
Section composite_canvas.
Import Raster Tint Extractor Compositor.

Lemma two_files_valid (bottom top : pixel) :
  pixel_ok bottom -> pixel_ok top -> Canvas.valid_files (Examples.two_files bottom top).
Proof.
  intros Hb Ht path img H i j _ _. unfold Examples.two_files in H.
  destruct (decide (path = "bottom.png")) as [->|Hne].
  - rewrite lookup_insert_eq in H. now injection H as <-.
  - rewrite lookup_insert_ne in H by congruence.
    destruct (decide (path = "top.png")) as [->|Hne'].
    + rewrite lookup_singleton_eq in H. now injection H as <-.
    + rewrite lookup_singleton_ne in H by congruence. discriminate.
Qed.

Lemma pixel_ok_values (r g b a : Z) :
  0 <= r <= 255 -> 0 <= g <= 255 -> 0 <= b <= 255 -> 0 <= a <= 255 ->
  pixel_ok (Pixel r g b a).
Proof. now repeat split. Qed.

(** A render that returns an image has painted the sorted parts on a
    transparent canvas of the size that canvas sizing returned. *)
Lemma create_composite_image_painted (files : gmap string image) (sprite_data : list part)
    (selected : option (list string)) (depths : option (gmap string Z))
    (colors : option (gmap string color)) (img : image) :
  create_composite_image files sprite_data selected depths colors = Float.Ok (Some img) ->
  let sel := match selected with Some names => names | None => map name sprite_data end in
  let size := (width img, height img) in
  calculate_canvas_size files sprite_data sel = Float.Ok size /\
  img = fold_left (paint_part files colors size) (sorted_parts sprite_data sel depths)
          (new size transparent).
Proof.
  unfold create_composite_image.
  destruct (is_empty sprite_data); [discriminate|].
  set (sel := match selected with Some names => names | None => map name sprite_data end).
  destruct (calculate_canvas_size files sprite_data sel) as [size|e]; [|discriminate].
  intros [= <-].
  destruct (paint_parts_size files colors size (sorted_parts sprite_data sel depths)
              (new size transparent)) as (_ & Hw & Hh).
  cbv zeta. rewrite Hw, Hh. simpl. now destruct size.
Qed.

(** X9. Whenever the composite render returns an image, it is an RGBA
    image of the size that canvas sizing returns, and, the sprite files
    holding 8-bit pixels, every pixel of it is an 8-bit pixel. *)
Theorem composite_is_valid_canvas (files : gmap string image) (sprite_data : list part)
    (selected : option (list string)) (depths : option (gmap string Z))
    (colors : option (gmap string color)) (img : image) :
  Canvas.valid_files files ->
  create_composite_image files sprite_data selected depths colors = Float.Ok (Some img) ->
  mode img = RGBA /\
  calculate_canvas_size files sprite_data
    (match selected with Some names => names | None => map name sprite_data end)
    = Float.Ok (width img, height img) /\
  forall x y, pixel_ok (pixel_at img x y).
Proof.
  intros Hv H. destruct (create_composite_image_painted _ _ _ _ _ _ H) as [Hsize Himg].
  split; [|split; [exact Hsize|]].
  - rewrite Himg. now destruct (paint_parts_size files colors (width img, height img)
      (sorted_parts sprite_data
         (match selected with Some names => names | None => map name sprite_data end) depths)
      (new (width img, height img) transparent)) as (-> & _).
  - intros x y. rewrite Himg. apply (paint_parts_ok files colors _ _ x y Hv).
    simpl. apply pixel_ok_values; lia.
Qed.

Lemma composite_is_valid_canvas_witness :
  exists img,
    create_composite_image Examples.opaque_under_half Examples.two_parts None None None
      = Float.Ok (Some img) /\
    mode img = RGBA /\ (width img, height img) = (2000, 4000) /\
    forall x y, pixel_ok (pixel_at img x y).
Proof.
  eexists. split; [reflexivity|].
  assert (Hv : Canvas.valid_files Examples.opaque_under_half)
    by (apply two_files_valid; apply pixel_ok_values; lia).
  destruct (composite_is_valid_canvas Examples.opaque_under_half Examples.two_parts
              None None None _ Hv eq_refl) as (Hm & Hs & Hok).
  split; [exact Hm|]. split; [reflexivity|exact Hok].
Defined.

(** X10. In the Tkinter composite a pixel is at least as opaque as the
    sprite pixel that any selected part puts over it, whatever is
    painted before or after; and a pixel that no selected part reaches
    is fully transparent. *)
Theorem composite_alpha_accumulates (files : gmap string image) (sprite_data : list part)
    (names : list string) (depths : option (gmap string Z))
    (colors : option (gmap string color)) (img : image) (x y : Z) :
  Canvas.valid_files files ->
  create_composite_image files sprite_data (Some names) depths colors = Float.Ok (Some img) ->
  let size := (width img, height img) in
  (forall p src, In p sprite_data -> name_in (name p) names = true ->
     Canvas.layer_pixel files colors size p x y = Some src ->
     alpha src <= alpha (pixel_at img x y)) /\
  ((forall p, In p sprite_data -> name_in (name p) names = true ->
      Canvas.layer_pixel files colors size p x y = None) ->
   pixel_at img x y = transparent).
Proof.
  intros Hv H size. destruct (create_composite_image_painted _ _ _ _ _ _ H) as [_ Himg].
  fold size in Himg.
  assert (Hstart : pixel_ok (pixel_at (new size transparent) x y))
    by (simpl; apply pixel_ok_values; lia).
  split.
  - intros p src Hin Hsel Hl. rewrite Himg.
    destruct (paint_parts_ok files colors size (sorted_parts sprite_data names depths) x y Hv
                _ Hstart) as (_ & _ & Hall).
    apply (Hall p); [|exact Hl]. now apply sorted_parts_In.
  - intros Hnone.
    assert (Hgen : forall l composite,
              (forall p, In p l -> Canvas.layer_pixel files colors size p x y = None) ->
              pixel_at composite x y = transparent ->
              pixel_at (fold_left (paint_part files colors size) l composite) x y = transparent).
    { induction l as [|q l IH]; intros composite Hl Hc; simpl; [exact Hc|].
      apply IH; [intros p Hp; apply Hl; now right|].
      rewrite paint_part_pixel by (rewrite Hc; apply pixel_ok_values; lia).
      now rewrite (Hl q (or_introl eq_refl)). }
    rewrite Himg. apply Hgen; [|reflexivity].
    intros p Hp. apply sorted_parts_In in Hp as [Hin Hsel]. now apply Hnone.
Qed.

Lemma composite_alpha_accumulates_witness :
  exists img,
    create_composite_image Examples.opaque_under_half Examples.two_parts
      (Some ["bottom"; "top"]) None None = Float.Ok (Some img) /\
    255 <= alpha (pixel_at img 1000 2000) /\
    pixel_at img 1001 2000 = transparent.
Proof.
  eexists. split; [reflexivity|].
  assert (Hv : Canvas.valid_files Examples.opaque_under_half)
    by (apply two_files_valid; apply pixel_ok_values; lia).
  destruct (composite_alpha_accumulates Examples.opaque_under_half Examples.two_parts
              ["bottom"; "top"] None None _ 1000 2000 Hv eq_refl) as [Hacc _].
  destruct (composite_alpha_accumulates Examples.opaque_under_half Examples.two_parts
              ["bottom"; "top"] None None _ 1001 2000 Hv eq_refl) as [_ Hnone].
  split.
  - apply (Hacc (Examples.centred "bottom" "bottom.png" 1) (Pixel 200 40 40 255));
      [now left|reflexivity|reflexivity].
  - apply Hnone. intros p [<-|[<-|[]]] _; reflexivity.
Defined.

(** X11. The last part, in painting order, that reaches a pixel decides
    it when its own pixel there is opaque: the composite shows that
    pixel unchanged. *)
Theorem composite_topmost_opaque (files : gmap string image) (sprite_data : list part)
    (names : list string) (depths : option (gmap string Z))
    (colors : option (gmap string color)) (img : image) (x y : Z)
    (before after : list part) (p : part) (src : pixel) :
  Canvas.valid_files files ->
  create_composite_image files sprite_data (Some names) depths colors = Float.Ok (Some img) ->
  let size := (width img, height img) in
  sorted_parts sprite_data names depths = before ++ p :: after ->
  Canvas.layer_pixel files colors size p x y = Some src -> alpha src = 255 ->
  (forall q, In q after -> Canvas.layer_pixel files colors size q x y = None) ->
  pixel_at img x y = src.
Proof.
  intros Hv H size. destruct (create_composite_image_painted _ _ _ _ _ _ H) as [_ Himg].
  fold size in Himg. intros Hsorted Hl Ha Hafter.
  rewrite Himg, Hsorted, fold_left_app. cbn [fold_left].
  assert (Hstart : pixel_ok (pixel_at (new size transparent) x y))
    by (simpl; apply pixel_ok_values; lia).
  destruct (paint_parts_ok files colors size before x y Hv _ Hstart) as (Hok & _ & _).
  set (below := fold_left (paint_part files colors size) before (new size transparent)) in *.
  pose proof (layer_pixel_ok _ _ _ _ _ _ _ Hv Hl) as Hsrc.
  assert (Hp : pixel_at (paint_part files colors size below p) x y = src).
  { rewrite paint_part_pixel by exact Hok. rewrite Hl.
    now apply alpha_composite_pixel_opaque. }
  clear Hsorted Himg. revert Hp. generalize (paint_part files colors size below p).
  induction after as [|q after IH]; intros composite Hc; simpl; [exact Hc|].
  apply IH; [intros r Hr; apply Hafter; now right|].
  rewrite paint_part_pixel by (rewrite Hc; exact Hsrc).
  now rewrite (Hafter q (or_introl eq_refl)).
Qed.

Lemma composite_topmost_opaque_witness :
  let files := Examples.two_files (Pixel 10 0 0 128) (Pixel 200 100 50 255) in
  exists img,
    create_composite_image files Examples.two_parts (Some ["bottom"; "top"]) None None
      = Float.Ok (Some img) /\
    pixel_at img 1000 2000 = Pixel 200 100 50 255.
Proof.
  intros files. eexists. split; [reflexivity|].
  apply (composite_topmost_opaque files Examples.two_parts ["bottom"; "top"] None None _
           1000 2000 [Examples.centred "bottom" "bottom.png" 1] []
           (Examples.centred "top" "top.png" 2) (Pixel 200 100 50 255)).
  - apply two_files_valid; apply pixel_ok_values; lia.
  - reflexivity.
  - reflexivity.
  - reflexivity.
  - reflexivity.
  - intros q [].
Defined.

End composite_canvas.
(** ** What the composite depends on *)

Section dependence.
Import Raster Tint Extractor Compositor.

Lemma fold_left_ext {A B} (f g : A -> B -> A) (l : list B) (a : A) :
  (forall a b, In b l -> f a b = g a b) -> fold_left f l a = fold_left g l a.
Proof.
  revert a. induction l as [|b l IH]; intros a H; simpl; [reflexivity|].
  rewrite (H a b) by now left. apply IH. intros a' b' Hb'. apply H. now right.
Qed.

Lemma is_empty_same_members (sel1 sel2 : list string) :
  (forall n, name_in n sel1 = name_in n sel2) -> is_empty sel1 = is_empty sel2.
Proof.
  intros H. destruct sel1 as [|a l1], sel2 as [|b l2]; try reflexivity.
  - specialize (H b). simpl in H. now rewrite String.eqb_refl in H.
  - specialize (H a). simpl in H. now rewrite String.eqb_refl in H.
Qed.

Lemma sorted_parts_same_members (sprite_data : list part) (sel1 sel2 : list string)
    (depths : option (gmap string Z)) :
  (forall n, name_in n sel1 = name_in n sel2) ->
  sorted_parts sprite_data sel1 depths = sorted_parts sprite_data sel2 depths.
Proof.
  intros H. unfold sorted_parts.
  now rewrite (List.filter_ext _ (fun p => name_in (name p) sel2) (fun p => H (name p))).
Qed.

Lemma canvas_size_same_members (files : gmap string image) (sprite_data : list part)
    (sel1 sel2 : list string) :
  (forall n, name_in n sel1 = name_in n sel2) ->
  calculate_canvas_size files sprite_data sel1 = calculate_canvas_size files sprite_data sel2.
Proof.
  intros H. unfold calculate_canvas_size. rewrite (is_empty_same_members _ _ H).
  rewrite (fold_left_ext (grow_bounds files sel1) (grow_bounds files sel2)); [reflexivity|].
  intros b p _. unfold grow_bounds. now rewrite H.
Qed.

(** X12. The selection is used as a set: two lists of names with the
    same members, in any order and with any repetition, give the same
    canvas size and the same composite, in both compositors. *)
Theorem selection_is_a_set (files : gmap string image) (sprite_data : list part)
    (sel1 sel2 : list string) (depths : option (gmap string Z))
    (colors : option (gmap string color)) :
  (forall n, name_in n sel1 = name_in n sel2) ->
  calculate_canvas_size files sprite_data sel1 = calculate_canvas_size files sprite_data sel2 /\
  create_composite_image files sprite_data (Some sel1) depths colors =
    create_composite_image files sprite_data (Some sel2) depths colors /\
  WebCompositor.create_composite_image files sprite_data (Some sel1) depths =
    WebCompositor.create_composite_image files sprite_data (Some sel2) depths.
Proof.
  intros H. pose proof (canvas_size_same_members files sprite_data _ _ H) as Hsize.
  pose proof (sorted_parts_same_members sprite_data _ _ depths H) as Hsort.
  split; [exact Hsize|].
  unfold create_composite_image, WebCompositor.create_composite_image.
  now rewrite Hsize, Hsort.
Qed.

Lemma selection_is_a_set_witness :
  (forall n, name_in n ["top"; "bottom"; "top"] = name_in n ["bottom"; "top"]) /\
  create_composite_image Examples.opaque_under_half Examples.two_parts
    (Some ["top"; "bottom"; "top"]) None None =
  create_composite_image Examples.opaque_under_half Examples.two_parts
    (Some ["bottom"; "top"]) None None.
Proof.
  assert (H : forall n, name_in n ["top"; "bottom"; "top"] = name_in n ["bottom"; "top"]).
  { intros n. simpl. destruct (String.eqb n "top"), (String.eqb n "bottom"); reflexivity. }
  split; [exact H|].
  apply (selection_is_a_set Examples.opaque_under_half Examples.two_parts _ _ None None H).
Defined.

Lemma filter_drop_unselected (sel : list string) (before after : list part) (p : part) :
  name_in (name p) sel = false ->
  List.filter (fun q => name_in (name q) sel) (before ++ p :: after) =
  List.filter (fun q => name_in (name q) sel) (before ++ after).
Proof. intros H. rewrite !List.filter_app. simpl. now rewrite H. Qed.

(** X13. A part that is not selected has no influence: the canvas size
    is the same with and without it, and so is the composite as long as
    another part remains in the list. *)
Theorem unselected_part_is_ignored (files : gmap string image) (sel : list string)
    (before after : list part) (p : part) (depths : option (gmap string Z))
    (colors : option (gmap string color)) :
  name_in (name p) sel = false ->
  calculate_canvas_size files (before ++ p :: after) sel =
    calculate_canvas_size files (before ++ after) sel /\
  (before ++ after <> [] ->
   create_composite_image files (before ++ p :: after) (Some sel) depths colors =
     create_composite_image files (before ++ after) (Some sel) depths colors).
Proof.
  intros Hp.
  assert (Hsize : calculate_canvas_size files (before ++ p :: after) sel =
                  calculate_canvas_size files (before ++ after) sel).
  { assert (Hfold : forall b, fold_left (grow_bounds files sel) (before ++ p :: after) b =
                              fold_left (grow_bounds files sel) (before ++ after) b).
    { intros b. rewrite !fold_left_app. simpl. unfold grow_bounds at 2. now rewrite Hp. }
    unfold calculate_canvas_size. rewrite Hfold.
    destruct sel as [|s sel']; [now rewrite !orb_true_r|]. cbn [is_empty]. rewrite !orb_false_r.
    destruct before as [|q before]; [|reflexivity]. simpl app.
    destruct after as [|q after]; [|reflexivity].
    reflexivity. }
  split; [exact Hsize|]. intros Hne.
  unfold create_composite_image. rewrite Hsize.
  replace (sorted_parts (before ++ p :: after) sel depths)
    with (sorted_parts (before ++ after) sel depths)
    by (unfold sorted_parts; now rewrite filter_drop_unselected).
  destruct before as [|q before]; [|reflexivity].
  destruct after as [|q after]; [now destruct Hne|reflexivity].
Qed.

Lemma unselected_part_is_ignored_witness :
  name_in (name Examples.wide_part) ["bottom"; "top"] = false /\
  create_composite_image Examples.opaque_under_half
    ([Examples.centred "bottom" "bottom.png" 1] ++
       Examples.wide_part :: [Examples.centred "top" "top.png" 2])
    (Some ["bottom"; "top"]) None None =
  create_composite_image Examples.opaque_under_half
    ([Examples.centred "bottom" "bottom.png" 1] ++ [Examples.centred "top" "top.png" 2])
    (Some ["bottom"; "top"]) None None.
Proof.
  split; [reflexivity|].
  apply unselected_part_is_ignored; [reflexivity|discriminate].
Defined.

(** X14. Custom colours within 0.001 of the identity on every channel
    change nothing: the composite is the one rendered without custom
    colours. *)
Theorem unchanged_colors_are_ignored (files : gmap string image) (sprite_data : list part)
    (selected : option (list string)) (depths : option (gmap string Z))
    (colors : gmap string color) :
  (forall n c, colors !! n = Some c -> color_changed c = false) ->
  create_composite_image files sprite_data selected depths (Some colors) =
  create_composite_image files sprite_data selected depths None.
Proof.
  intros H.
  assert (Hload : forall p, load_sprite files (Some colors) p = load_sprite files None p).
  { intros p. unfold load_sprite. destruct (open_image files (sprite_path p)); [|reflexivity].
    destruct (colors !! name p) as [c|] eqn:Hc; [|reflexivity]. now rewrite (H _ _ Hc). }
  unfold create_composite_image. destruct (is_empty sprite_data); [reflexivity|].
  destruct (calculate_canvas_size files sprite_data _) as [size|e]; [|reflexivity].
  do 2 f_equal. apply fold_left_ext. intros composite p _. unfold paint_part.
  now rewrite Hload.
Qed.

Lemma unchanged_colors_are_ignored_witness :
  let colors : gmap string color :=
    {[ "top" := Color Float.one (Float.of_ratio 2001 2000) Float.one Float.one ]} in
  create_composite_image Examples.opaque_under_half Examples.two_parts None None (Some colors) =
  create_composite_image Examples.opaque_under_half Examples.two_parts None None None.
Proof.
  intros colors. apply unchanged_colors_are_ignored.
  intros n c Hc. unfold colors in Hc.
  apply lookup_singleton_Some in Hc as [_ <-]. reflexivity.
Defined.

End dependence.
(** ** Painting order *)

Section painting_order.
Import Raster Tint Extractor Compositor.

(** X15. The painting order is the stable ascending sort of the selected
    parts by the key in use: it is ascending in that key, it holds the
    selected parts and nothing else, and parts of equal key keep the
    order they have in the part list. *)
Theorem painting_order_is_stable_sort (sprite_data : list part) (names : list string)
    (depths : option (gmap string Z)) :
  let chosen := List.filter (fun p => name_in (name p) names) sprite_data in
  let painted := sorted_parts sprite_data names depths in
  StronglySorted (fun p q => Order.key_in_use depths p <= Order.key_in_use depths q) painted /\
  Permutation chosen painted /\
  forall k, List.filter (fun p => Order.key_in_use depths p =? k) painted =
            List.filter (fun p => Order.key_in_use depths p =? k) chosen.
Proof.
  intros chosen painted.
  assert (Hp : painted = py_sorted (Order.key_in_use depths) chosen).
  { unfold painted, sorted_parts, Order.key_in_use. fold chosen.
    destruct depths as [d|]; [destruct (any_value d)|]; reflexivity. }
  rewrite Hp. split; [apply py_sorted_sorted|].
  split; [apply py_sorted_perm|]. intros k. apply py_sorted_stable.
Qed.

End painting_order.

(** ** The Streamlit compositor *)

Section web_canvas.
Import Raster Tint Extractor.

Lemma blend_between (m d s : Z) :
  channel_ok m -> channel_ok d -> channel_ok s -> Spec.between d s (blend m d s).
Proof.
  unfold channel_ok, Spec.between, blend, div255. intros Hm Hd Hs. split.
  - rewrite <- (div255_unit (Z.min d s)) at 1 by lia. apply shift_for_div255_mono. nia.
  - etransitivity; [apply (shift_for_div255_mono _ (Z.max d s * 255 + 128)); nia|].
    rewrite div255_unit; lia.
Qed.

Lemma blend_full_mask (d s : Z) : channel_ok s -> blend 255 d s = s.
Proof.
  intros Hs. unfold blend, div255.
  replace (d * (255 - 255) + s * 255) with (s * 255) by lia. now apply div255_unit.
Qed.

Lemma paste_mask_pixel_ok (dst src : pixel) :
  pixel_ok dst -> pixel_ok src -> pixel_ok (paste_mask_pixel dst src).
Proof.
  intros (Hdr & Hdg & Hdb & Hda) (Hsr & Hsg & Hsb & Hsa). unfold paste_mask_pixel, pixel_ok.
  simpl.
  pose proof (blend_between (alpha src) (red dst) (red src) Hsa Hdr Hsr).
  pose proof (blend_between (alpha src) (green dst) (green src) Hsa Hdg Hsg).
  pose proof (blend_between (alpha src) (blue dst) (blue src) Hsa Hdb Hsb).
  pose proof (blend_between (alpha src) (alpha dst) (alpha src) Hsa Hda Hsa).
  unfold Spec.between, channel_ok in *. repeat split; lia.
Qed.

Lemma paste_mask_pixel_opaque (dst src : pixel) :
  pixel_ok src -> alpha src = 255 -> paste_mask_pixel dst src = src.
Proof.
  intros (Hsr & Hsg & Hsb & Hsa) Ha. unfold paste_mask_pixel. rewrite Ha.
  rewrite !blend_full_mask by (try assumption; unfold channel_ok; lia).
  destruct src; simpl in *; now subst.
Qed.

Lemma web_paint_part_pixel (files : gmap string image) (canvas_size : Z * Z)
    (composite : image) (p : part) (x y : Z) :
  pixel_at (WebCompositor.paint_part files canvas_size composite p) x y =
  match Canvas.layer_pixel files None canvas_size p x y with
  | Some src => paste_mask_pixel (pixel_at composite x y) src
  | None => pixel_at composite x y
  end.
Proof.
  unfold WebCompositor.paint_part, Canvas.layer_pixel, Compositor.load_sprite.
  destruct (Compositor.open_image files (sprite_path p)) as [file_img|]; [|reflexivity].
  destruct (Compositor.placement canvas_size p (convert_rgba file_img)) as [[px py]|e];
    [|reflexivity].
  simpl. now destruct (covers px py (width file_img) (height file_img) x y).
Qed.

Lemma web_paint_part_size (files : gmap string image) (canvas_size : Z * Z)
    (composite : image) (p : part) :
  let painted := WebCompositor.paint_part files canvas_size composite p in
  mode painted = mode composite /\ width painted = width composite /\
  height painted = height composite.
Proof.
  unfold WebCompositor.paint_part.
  destruct (Compositor.open_image files (sprite_path p)) as [file_img|]; [|now repeat split].
  now destruct (Compositor.placement canvas_size p (convert_rgba file_img)) as [[px py]|e].
Qed.

(** X16. Whenever the Streamlit composite render returns an image, it is
    an RGBA image of the size that canvas sizing returns, whose pixels
    are 8-bit pixels (the sprite files holding such pixels); a pixel
    that no selected part reaches is opaque white; and where the last
    part, in painting order, that reaches a pixel is opaque there, the
    composite shows that sprite pixel, as the Tkinter compositor does. *)
Theorem web_composite_canvas (files : gmap string image) (sprite_data : list part)
    (names : list string) (depths : option (gmap string Z)) (img : image) (x y : Z) :
  Canvas.valid_files files ->
  WebCompositor.create_composite_image files sprite_data (Some names) depths
    = Float.Ok (Some img) ->
  let size := (width img, height img) in
  mode img = RGBA /\
  Compositor.calculate_canvas_size files sprite_data names = Float.Ok size /\
  pixel_ok (pixel_at img x y) /\
  ((forall p, In p sprite_data -> Compositor.name_in (name p) names = true ->
      Canvas.layer_pixel files None size p x y = None) ->
   pixel_at img x y = white) /\
  (forall before p after src,
     Compositor.sorted_parts sprite_data names depths = before ++ p :: after ->
     Canvas.layer_pixel files None size p x y = Some src -> alpha src = 255 ->
     (forall q, In q after -> Canvas.layer_pixel files None size q x y = None) ->
     pixel_at img x y = src).
Proof.
  intros Hv. unfold WebCompositor.create_composite_image.
  destruct (Compositor.is_empty sprite_data); [discriminate|].
  destruct (Compositor.calculate_canvas_size files sprite_data names) as [size|e];
    [|discriminate].
  intros [= <-].
  set (paint := WebCompositor.paint_part files size).
  assert (Hsize : forall l c, mode (fold_left paint l c) = mode c /\
                              width (fold_left paint l c) = width c /\
                              height (fold_left paint l c) = height c).
  { induction l as [|q l IH]; intros c; simpl; [now repeat split|].
    destruct (IH (paint c q)) as (H1 & H2 & H3).
    destruct (web_paint_part_size files size c q) as (K1 & K2 & K3).
    unfold paint in *. repeat split; congruence. }
  assert (Hok : forall l c, pixel_ok (pixel_at c x y) ->
                            pixel_ok (pixel_at (fold_left paint l c) x y)).
  { induction l as [|q l IH]; intros c Hc; simpl; [exact Hc|]. apply IH.
    unfold paint. rewrite web_paint_part_pixel.
    destruct (Canvas.layer_pixel files None size q x y) as [src|] eqn:Hl; [|exact Hc].
    apply paste_mask_pixel_ok; [exact Hc|]. now apply (layer_pixel_ok _ _ _ _ _ _ _ Hv Hl). }
  assert (Hkeep : forall l c, (forall q, In q l -> Canvas.layer_pixel files None size q x y = None) ->
                              pixel_at (fold_left paint l c) x y = pixel_at c x y).
  { induction l as [|q l IH]; intros c Hl; simpl; [reflexivity|].
    rewrite IH by (intros r Hr; apply Hl; now right).
    unfold paint. rewrite web_paint_part_pixel. now rewrite (Hl q (or_introl eq_refl)). }
  destruct (Hsize (Compositor.sorted_parts sprite_data names depths) (new size white))
    as (Hm & Hw & Hh).
  cbv zeta. rewrite Hw, Hh. simpl width. simpl height.
  replace (fst size, snd size) with size by now destruct size.
  split; [exact Hm|]. split; [reflexivity|].
  split; [apply Hok; simpl; apply pixel_ok_values; lia|]. split.
  - intros Hnone. rewrite Hkeep; [reflexivity|].
    intros q Hq. apply sorted_parts_In in Hq as [Hin Hsel]. now apply Hnone.
  - intros before p after src Hsorted Hl Ha Hafter.
    rewrite Hsorted, fold_left_app. cbn [fold_left]. rewrite Hkeep by exact Hafter.
    unfold paint at 1. rewrite web_paint_part_pixel, Hl.
    apply paste_mask_pixel_opaque; [|exact Ha]. now apply (layer_pixel_ok _ _ _ _ _ _ _ Hv Hl).
Qed.

Lemma web_composite_canvas_witness :
  let files := Examples.two_files (Pixel 10 0 0 128) (Pixel 200 100 50 255) in
  exists img,
    WebCompositor.create_composite_image files Examples.two_parts (Some ["bottom"; "top"]) None
      = Float.Ok (Some img) /\
    (width img, height img) = (2000, 4000) /\
    pixel_at img 1001 2000 = white /\
    pixel_at img 1000 2000 = Pixel 200 100 50 255.
Proof.
  intros files. eexists. split; [reflexivity|].
  assert (Hv : Canvas.valid_files files)
    by (apply two_files_valid; apply pixel_ok_values; lia).
  destruct (web_composite_canvas files Examples.two_parts ["bottom"; "top"] None _ 1001 2000
              Hv eq_refl) as (_ & Hs & _ & Hwhite & _).
  destruct (web_composite_canvas files Examples.two_parts ["bottom"; "top"] None _ 1000 2000
              Hv eq_refl) as (_ & _ & _ & _ & Htop).
  split; [reflexivity|]. split.
  - apply Hwhite. intros p [<-|[<-|[]]] _; reflexivity.
  - apply (Htop [Examples.centred "bottom" "bottom.png" 1]
                (Examples.centred "top" "top.png" 2) []);
      [reflexivity|reflexivity|reflexivity|intros q []].
Defined.

End web_canvas.
(** ** Creature files and sprite-only extraction *)

Section bundle.
Import Raster Tint Extractor Bundle.

Lemma lower_ascii_slash (c : ascii) :
  Ascii.eqb (Category.lower_ascii c) slash = Ascii.eqb c slash.
Proof. destruct c as [[] [] [] [] [] [] [] []]; reflexivity. Qed.

Lemma has_slash_lower (s : string) : has_slash (Category.lower s) = has_slash s.
Proof.
  induction s as [|c s IH]; [reflexivity|]. simpl. now rewrite lower_ascii_slash, IH.
Qed.

Lemma basename_lower (s : string) :
  basename (Category.lower s) = Category.lower (basename s).
Proof.
  induction s as [|c s IH]; [reflexivity|].
  change (Category.lower (String c s)) with (String (Category.lower_ascii c) (Category.lower s)).
  cbn [basename].
  change (String (Category.lower_ascii c) (Category.lower s)) with (Category.lower (String c s)).
  rewrite has_slash_lower. now destruct (has_slash (String c s)).
Qed.

Lemma basename_no_slash (s : string) : has_slash s = false -> basename s = s.
Proof. destruct s as [|c s]; [reflexivity|]. cbn [basename]. now intros ->. Qed.

Lemma basename_after_slash (dir file : string) :
  has_slash file = false -> basename (dir +:+ String slash file) = file.
Proof.
  intros Hf. induction dir as [|c dir IH].
  - change ("" +:+ String slash file) with (String slash file).
    cbn [basename has_slash]. rewrite Ascii.eqb_refl. cbn [orb].
    now apply basename_no_slash.
  - change (String c dir +:+ String slash file) with (String c (dir +:+ String slash file)).
    cbn [basename].
    assert (Hs : has_slash (String c (dir +:+ String slash file)) = true).
    { cbn [has_slash]. apply orb_true_iff. right. clear IH.
      induction dir as [|c' dir IH'].
      - change ("" +:+ String slash file) with (String slash file).
        cbn [has_slash]. now rewrite Ascii.eqb_refl.
      - change (String c' dir +:+ String slash file)
          with (String c' (dir +:+ String slash file)).
        cbn [has_slash]. apply orb_true_iff. now right. }
    now rewrite Hs.
Qed.

(** X17. Whether a bundle counts as a creature file depends on the file
    name alone, not on the directories before it, and not on its letter
    case. *)
Theorem creature_file_by_name (dir file : string) :
  has_slash file = false ->
  is_creature_file (dir +:+ String slash file) = is_creature_file file /\
  is_creature_file (Category.lower file) = is_creature_file file.
Proof.
  intros Hf. unfold is_creature_file. split.
  - now rewrite basename_after_slash, basename_no_slash.
  - now rewrite basename_lower, lower_idempotent.
Qed.

Lemma creature_file_by_name_witness :
  has_slash "Hero_Pet.bundle" = false /\
  is_creature_file "monsters/enemy/Hero.bundle" = false /\
  is_creature_file ("assets" +:+ String slash "Hero_Pet.bundle") = true.
Proof.
  split; [reflexivity|]. split; [reflexivity|].
  rewrite (proj1 (creature_file_by_name "assets" "Hero_Pet.bundle" eq_refl)). reflexivity.
Defined.

Lemma save_sprite_entries (st : list sprite_entry * gmap string image) (o : raw_object) :
  fst (save_sprite st o) =
  fst st ++ match sprite_of o with
            | Some (n, img) =>
                [SpriteEntry n (sprite_output_path n) (path_id o) (width img, height img)]
            | None => []
            end.
Proof.
  unfold save_sprite, sprite_of.
  destruct (read o) as [[| | |n [img|]|]|]; simpl; now rewrite ?app_nil_r.
Qed.

Lemma save_sprite_files (st : list sprite_entry * gmap string image) (o : raw_object)
    (path : string) :
  snd (save_sprite st o) !! path =
  match sprite_of o with
  | Some (n, img) => if decide (sprite_output_path n = path) then Some img else snd st !! path
  | None => snd st !! path
  end.
Proof.
  unfold save_sprite, sprite_of.
  destruct (read o) as [[| | |n [img|]|]|]; simpl; try reflexivity.
  destruct (decide (sprite_output_path n = path)) as [<-|Hne];
    [now rewrite lookup_insert_eq|now rewrite lookup_insert_ne].
Qed.

(** X18. Sprite-only extraction lists the readable sprites that have an
    image, in bundle order, and writes nothing outside its sprite
    directory; every listed sprite has its file, and when the file names
    are distinct the file of each sprite holds the image of that sprite,
    untinted. *)
Theorem sprites_only_files (files : gmap string image) (objs : list raw_object) :
  let sprites := fst (extract_sprites_only files objs) in
  let files' := snd (extract_sprites_only files objs) in
  map se_path_id sprites =
    map path_id (List.filter (fun o => Sprites.sprite_with_image o) objs) /\
  (forall path, String.prefix Sprites.sprites_dir path = false ->
                files' !! path = files !! path) /\
  Forall (fun e => is_Some (files' !! se_file_path e) /\
                   se_file_path e = sprite_output_path (se_name e)) sprites /\
  (NoDup (map se_file_path sprites) ->
   forall o n img, In o objs -> sprite_of o = Some (n, img) ->
                   files' !! sprite_output_path n = Some img).
Proof.
  unfold extract_sprites_only.
  assert (Hgen : forall l st,
    let st' := fold_left save_sprite l st in
    map se_path_id (fst st') =
      map se_path_id (fst st) ++ map path_id (List.filter (fun o => Sprites.sprite_with_image o) l) /\
    (forall path, String.prefix Sprites.sprites_dir path = false ->
                  snd st' !! path = snd st !! path) /\
    (Forall (fun e => is_Some (snd st !! se_file_path e) /\
                      se_file_path e = sprite_output_path (se_name e)) (fst st) ->
     Forall (fun e => is_Some (snd st' !! se_file_path e) /\
                      se_file_path e = sprite_output_path (se_name e)) (fst st')) /\
    (forall path, is_Some (snd st !! path) -> is_Some (snd st' !! path)) /\
    exists added, fst st' = fst st ++ added /\
      (NoDup (map se_file_path added) ->
       (forall path, ~ In path (map se_file_path added) -> snd st' !! path = snd st !! path) /\
       forall o n img, In o l -> sprite_of o = Some (n, img) ->
                       snd st' !! sprite_output_path n = Some img /\
                       In (sprite_output_path n) (map se_file_path added))).
  { induction l as [|o l IH]; intros st; simpl.
    - rewrite app_nil_r. repeat split; auto. exists []. rewrite app_nil_r. split; [reflexivity|].
      intros _. split; [reflexivity|]. intros o n img [].
    - destruct (IH (save_sprite st o)) as (Hids & Hout & Hall & Hkeep & added & Hadd & Hnd).
      clear IH. rewrite save_sprite_entries in Hids, Hadd.
      assert (Hstep : forall path, is_Some (snd st !! path) ->
                                   is_Some (snd (save_sprite st o) !! path)).
      { intros path H. rewrite save_sprite_files.
        destruct (sprite_of o) as [[n img]|]; [|exact H].
        destruct (decide (sprite_output_path n = path)); eauto. }
      split; [|split; [|split; [|split]]].
      + rewrite Hids, map_app, <- app_assoc. f_equal.
        unfold Sprites.sprite_with_image, sprite_of.
        destruct (read o) as [[| | |n [img|]|]|]; reflexivity.
      + intros path Hp. rewrite Hout by exact Hp. rewrite save_sprite_files.
        destruct (sprite_of o) as [[n img]|]; [|reflexivity].
        destruct (decide (sprite_output_path n = path)) as [<-|]; [|reflexivity].
        now rewrite sprite_output_path_in_dir in Hp.
      + intros H. apply Hall. rewrite save_sprite_entries. apply Forall_app. split.
        * eapply Forall_impl; [exact H|]. intros e [He1 He2]. split; [now apply Hstep|exact He2].
        * destruct (sprite_of o) as [[n img]|] eqn:Ho; [|constructor].
          constructor; [|constructor]. simpl. split; [|reflexivity].
          rewrite save_sprite_files, Ho. rewrite decide_True by reflexivity. eauto.
      + intros path H. now apply Hkeep, Hstep.
      + exists (match sprite_of o with
                | Some (n, img) =>
                    [SpriteEntry n (sprite_output_path n) (path_id o) (width img, height img)]
                | None => []
                end ++ added).
        split; [now rewrite Hadd, <- app_assoc|].
        intros Hnodup. rewrite map_app in Hnodup. apply NoDup_app in Hnodup as (Hn1 & Hdisj & Hn2).
        destruct (Hnd Hn2) as [Hrest Hin]. split.
        * intros path Hp. rewrite map_app, in_app_iff in Hp.
          rewrite Hrest by tauto. rewrite save_sprite_files.
          destruct (sprite_of o) as [[n img]|]; [|reflexivity].
          destruct (decide (sprite_output_path n = path)) as [<-|]; [|reflexivity].
          exfalso. apply Hp. left. now left.
        * intros o' n img [<-|Ho'] Hs.
          -- rewrite Hs in *. simpl in *. split; [|now left].
             rewrite Hrest.
             ++ rewrite save_sprite_files, Hs. now rewrite decide_True.
             ++ intros Hx. apply (Hdisj (sprite_output_path n)); [constructor|].
                now apply list_elem_of_In.
          -- destruct (Hin o' n img Ho' Hs) as [H1 H2]. split; [exact H1|].
             rewrite map_app, in_app_iff. now right. }
  destruct (Hgen objs ([], files)) as (Hids & Hout & Hall & _ & added & Hadd & Hnd).
  simpl in *. split; [exact Hids|]. split; [exact Hout|]. split; [apply Hall; constructor|].
  intros Hnodup o n img Ho Hs. rewrite Hadd in Hnodup.
  now apply (proj2 (Hnd Hnodup) o n img).
Qed.

(** The bundle with one sprite: its file is the sprite's image, without
    the grey tint of its renderer. *)
Lemma sprites_only_files_witness :
  NoDup (map se_file_path (fst (extract_sprites_only ∅ Examples.sprite_objects))) /\
  snd (extract_sprites_only ∅ Examples.sprite_objects) !! sprite_output_path "body_sprite"
    = Some (Examples.plain 2 2 (Pixel 200 100 50 255)).
Proof.
  assert (Hnd : NoDup (map se_file_path (fst (extract_sprites_only ∅ Examples.sprite_objects)))).
  { simpl. apply NoDup_singleton. }
  split; [exact Hnd|].
  destruct (sprites_only_files ∅ Examples.sprite_objects) as (_ & _ & _ & Hfile).
  refine (Hfile Hnd (RawObject 7 (Some (SpriteData "body_sprite"
                                          (Some (Examples.plain 2 2 (Pixel 200 100 50 255))))))
            "body_sprite" (Examples.plain 2 2 (Pixel 200 100 50 255)) _ eq_refl).
  do 5 right. now left.
Defined.

End bundle.
(** ** The window state *)

Section gui.
Import Raster Tint Extractor Compositor Gui.

Lemma name_in_In (n : string) (l : list string) : name_in n l = true <-> In n l.
Proof.
  unfold name_in. rewrite existsb_exists. split.
  - intros (x & Hx & Heq). apply String.eqb_eq in Heq. now subst.
  - intros H. exists n. split; [exact H|apply String.eqb_refl].
Qed.

Lemma name_in_app (n : string) (l1 l2 : list string) :
  name_in n (l1 ++ l2) = name_in n l1 || name_in n l2.
Proof. unfold name_in. apply existsb_app. Qed.

Lemma remove_first_In (n x : string) (l : list string) :
  In x (remove_first n l) -> In x l.
Proof.
  induction l as [|y l IH]; simpl; [tauto|].
  destruct (String.eqb y n); [now right|]. intros [->|H]; [now left|right; now apply IH].
Qed.

Lemma remove_first_NoDup (n : string) (l : list string) :
  NoDup l -> NoDup (remove_first n l).
Proof.
  induction 1 as [|y l Hy Hl IH]; simpl; [constructor|].
  destruct (String.eqb y n); [exact Hl|].
  constructor; [|exact IH]. rewrite list_elem_of_In in *. intros H. apply Hy.
  now apply (remove_first_In n).
Qed.

Lemma remove_first_gone (n : string) (l : list string) :
  NoDup l -> ~ In n (remove_first n l).
Proof.
  induction 1 as [|y l Hy Hl IH]; simpl; [tauto|].
  destruct (String.eqb_spec y n) as [->|Hne]; [now rewrite <- list_elem_of_In|].
  intros [H|H]; [contradiction|now apply IH].
Qed.

Lemma remove_first_other (n x : string) (l : list string) :
  x <> n -> In x l -> In x (remove_first n l).
Proof.
  intros Hx. induction l as [|y l IH]; simpl; [tauto|].
  destruct (String.eqb_spec y n) as [->|Hne].
  - intros [H|H]; [congruence|exact H].
  - intros [H|H]; [now left|right; now apply IH].
Qed.

(** X19. Ticking and unticking a part keeps the selection free of
    repetitions; afterwards the part is selected exactly when its box is
    ticked, and the other names are selected as before. The same update
    is made for the check boxes of the Streamlit page. *)
Theorem toggle_updates_selection (p : part) (checked : bool) (st : state) :
  NoDup (selected_sprites st) ->
  let st' := on_sprite_toggle p checked st in
  NoDup (selected_sprites st') /\
  name_in (name p) (selected_sprites st') = checked /\
  (forall n, n <> name p ->
     name_in n (selected_sprites st') = name_in n (selected_sprites st)) /\
  custom_depths st' = custom_depths st /\ custom_colors st' = custom_colors st.
Proof.
  intros Hnd. unfold on_sprite_toggle. simpl.
  destruct checked; destruct (name_in (name p) (selected_sprites st)) eqn:Hin.
  - repeat split; auto.
  - assert (Hnot : ~ In (name p) (selected_sprites st)).
    { intros H. apply name_in_In in H. congruence. }
    split; [|split; [|split; [|split; reflexivity]]].
    + apply NoDup_app. split; [exact Hnd|]. split; [|apply NoDup_singleton].
      intros x Hx Hx'. apply list_elem_of_singleton in Hx'. subst.
      now apply Hnot, list_elem_of_In.
    + rewrite name_in_app, Hin. simpl. now rewrite String.eqb_refl.
    + intros n Hn. rewrite name_in_app. simpl.
      destruct (String.eqb_spec n (name p)); [contradiction|]. now rewrite !orb_false_r.
  - split; [now apply remove_first_NoDup|]. split; [|split; [|split; reflexivity]].
    + destruct (name_in (name p) (remove_first (name p) (selected_sprites st))) eqn:H;
        [|reflexivity].
      apply name_in_In in H. now apply remove_first_gone in H.
    + intros n Hn.
      destruct (name_in n (selected_sprites st)) eqn:H.
      * apply name_in_In. apply remove_first_other; [exact Hn|now apply name_in_In].
      * destruct (name_in n (remove_first (name p) (selected_sprites st))) eqn:H';
          [|reflexivity].
        apply name_in_In, remove_first_In, name_in_In in H'. congruence.
  - repeat split; auto.
Qed.

Lemma toggle_updates_selection_witness :
  let st := State None ["a"; "b"] ∅ ∅ None in
  NoDup (selected_sprites st) /\
  selected_sprites (on_sprite_toggle Examples.part_a false st) = ["b"] /\
  name_in "a" (selected_sprites (on_sprite_toggle Examples.part_a false st)) = false.
Proof.
  intros st.
  assert (Hnd : NoDup (selected_sprites st)).
  { simpl. apply NoDup_cons. split; [|apply NoDup_singleton].
    intros H. apply list_elem_of_singleton in H. discriminate. }
  split; [exact Hnd|]. split; [reflexivity|].
  now destruct (toggle_updates_selection Examples.part_a false st Hnd) as (_ & H & _).
Defined.

(** X20. After "select all", generating the composite renders what the
    compositor renders when the selection is left out, with the depths
    and colours of the window; when that render raises, the error is
    reported and the window is left as it was; with nothing selected,
    generating the composite renders nothing and the window keeps the
    image it had. *)
Theorem select_all_renders_everything (files : gmap string image) (parts : list part)
    (st : state) :
  extraction_results st = Some parts -> parts <> [] ->
  let render := create_composite_image files parts None (Some (custom_depths st))
                  (Some (custom_colors st)) in
  (forall composite, render = Float.Ok composite ->
     composite_image (generate_composite files (select_all st)) = composite) /\
  (forall e, render = Float.Raise e ->
     generate_composite files (select_all st) = select_all st) /\
  generate_composite files (deselect_all st) = deselect_all st.
Proof.
  intros Hr Hne render. destruct st as [res sel depths colors img]. simpl in Hr. subst res.
  unfold generate_composite, select_all, deselect_all. simpl.
  assert (Hsel : is_empty (map name parts) = false)
    by (destruct parts; [now destruct Hne|reflexivity]).
  rewrite Hsel.
  change (create_composite_image files parts (Some (map name parts)) (Some depths)
            (Some colors)) with render.
  split; [|split; [|reflexivity]].
  - now intros composite ->.
  - now intros e ->.
Qed.

Lemma select_all_renders_everything_witness :
  let st := on_full_extraction Examples.two_parts initial in
  extraction_results st = Some Examples.two_parts /\
  composite_image (generate_composite Examples.opaque_under_half (select_all st)) =
    match create_composite_image Examples.opaque_under_half Examples.two_parts None (Some ∅)
            (Some ∅) with
    | Float.Ok composite => composite
    | Float.Raise _ => None
    end.
Proof.
  intros st. split; [reflexivity|].
  assert (Hne : Examples.two_parts <> []) by discriminate.
  destruct (select_all_renders_everything Examples.opaque_under_half Examples.two_parts st
              eq_refl Hne) as [H _].
  now apply H.
Defined.

Lemma any_value_insert (depths : gmap string Z) (n : string) (v : Z) :
  v <> 0 -> any_value (<[n := v]> depths) = true.
Proof.
  intros Hv. unfold any_value. apply existsb_exists. exists (n, v). split.
  - apply list_elem_of_In, elem_of_map_to_list, lookup_insert_eq.
  - simpl. now destruct (Z.eqb_spec v 0).
Qed.

(** X21. A depth entered for a part that is not zero becomes the key the
    part is sorted by, and the other parts keep their override or their
    sorting order; an entry that is not a number changes nothing. *)
Theorem entered_depth_is_sort_key (p : part) (v : Z) (st : state) :
  v <> 0 ->
  let st' := on_depth_change p (Some v) st in
  Order.key_in_use (Some (custom_depths st')) p = v /\
  (forall q, name q <> name p ->
     Order.key_in_use (Some (custom_depths st')) q = depth_or_order (custom_depths st) q) /\
  on_depth_change p None st = st.
Proof.
  intros Hv. simpl. unfold Order.key_in_use. rewrite any_value_insert by exact Hv.
  unfold depth_or_order. split; [now rewrite lookup_insert_eq|]. split; [|reflexivity].
  intros q Hq. now rewrite lookup_insert_ne by congruence.
Qed.

Lemma entered_depth_is_sort_key_witness :
  Order.key_in_use (Some (custom_depths (on_depth_change Examples.part_a (Some 7) initial)))
    Examples.part_a = 7.
Proof.
  now destruct (entered_depth_is_sort_key Examples.part_a 7 initial) as [H _].
Defined.

Lemma get_set_channel (ch : channel) (v : Float.float) (c : color) :
  get_channel ch (set_channel ch v c) = v.
Proof. now destruct ch. Qed.

Lemma get_set_channel_other (ch ch' : channel) (v : Float.float) (c : color) :
  ch' <> ch -> get_channel ch' (set_channel ch v c) = get_channel ch' c.
Proof. destruct ch, ch'; intros H; try reflexivity; now destruct H. Qed.

(** X22. Moving a colour slider of a part sets that channel of the
    part's custom colour and leaves the other channels as they were (as
    in the renderer's colour when the part had no custom colour yet) and
    the other parts untouched; resetting the colour of a part that had
    no custom colour before gives the earlier state back. *)
Theorem color_slider_sets_one_channel (p : part) (ch : channel) (v : Float.float)
    (st : state) :
  let before := default (initial_color p) (custom_colors st !! name p) in
  let st' := on_color_change p ch v st in
  (exists c, custom_colors st' !! name p = Some c /\
             get_channel ch c = v /\
             forall ch', ch' <> ch -> get_channel ch' c = get_channel ch' before) /\
  (forall n, n <> name p -> custom_colors st' !! n = custom_colors st !! n) /\
  (custom_colors st !! name p = None -> reset_part_color p st' = st).
Proof.
  intros before st'. unfold st', on_color_change. simpl. split; [|split].
  - eexists. split; [apply lookup_insert_eq|].
    unfold default in before. fold before. split.
    + apply get_set_channel.
    + intros ch' Hne. now apply get_set_channel_other.
  - intros n Hn. now rewrite lookup_insert_ne by congruence.
  - intros Hnone. unfold reset_part_color. simpl.
    rewrite delete_insert_eq, delete_id by exact Hnone. now destruct st.
Qed.

Lemma color_slider_sets_one_channel_witness :
  custom_colors initial !! name Examples.part_a = None /\
  custom_colors (on_color_change Examples.part_a G Examples.half initial) !! "a"
    = Some (Color Float.one Examples.half Float.one Float.one) /\
  reset_part_color Examples.part_a (on_color_change Examples.part_a G Examples.half initial)
    = initial.
Proof.
  split; [reflexivity|]. split; [reflexivity|].
  now apply (color_slider_sets_one_channel Examples.part_a G Examples.half initial).
Defined.

End gui.
(** ** The category frames *)

Section grouping.
Import Extractor Grouping.

Lemma file_part_parts (p : part) (g : groups) :
  Permutation (concat (map snd (file_part p g))) (concat (map snd g) ++ [p]).
Proof.
  induction g as [|[k ps] g IH]; simpl; [reflexivity|].
  destruct (String.eqb k (key_of p)); simpl.
  - rewrite <- !app_assoc. apply Permutation_app_head, Permutation_app_comm.
  - rewrite IH. now rewrite app_assoc.
Qed.

Lemma file_part_keys (p : part) (g : groups) :
  map fst (file_part p g) =
    if existsb (String.eqb (key_of p)) (map fst g) then map fst g
    else map fst g ++ [key_of p].
Proof.
  induction g as [|[k ps] g IH]; simpl; [reflexivity|].
  rewrite (String.eqb_sym (key_of p) k).
  destruct (String.eqb k (key_of p)); simpl; [reflexivity|].
  rewrite IH. now destruct (existsb _ _).
Qed.

Lemma file_part_key_in (p : part) (g : groups) (k : string) :
  In k (map fst (file_part p g)) <-> In k (map fst g) \/ k = key_of p.
Proof.
  rewrite file_part_keys. destruct (existsb _ _) eqn:He.
  - split; [now left|]. intros [H| ->]; [exact H|].
    apply existsb_exists in He as (x & Hx & Heq). apply String.eqb_eq in Heq. now subst.
  - rewrite in_app_iff. simpl. intuition.
Qed.

Lemma file_part_NoDup (p : part) (g : groups) :
  NoDup (map fst g) -> NoDup (map fst (file_part p g)).
Proof.
  intros Hnd. rewrite file_part_keys. destruct (existsb _ _) eqn:He; [exact Hnd|].
  apply NoDup_app. split; [exact Hnd|]. split; [|apply NoDup_singleton].
  intros x Hx Hx'. apply list_elem_of_singleton in Hx'. subst.
  assert (existsb (String.eqb (key_of p)) (map fst g) = true); [|congruence].
  apply existsb_exists. exists (key_of p).
  split; [now apply list_elem_of_In|apply String.eqb_refl].
Qed.

Lemma file_part_In (p : part) (g : groups) (k : string) (ps : list part) :
  NoDup (map fst g) -> In (k, ps) (file_part p g) ->
  (k <> key_of p /\ In (k, ps) g) \/
  (k = key_of p /\
   ((exists ps', In (k, ps') g /\ ps = ps' ++ [p]) \/
    (~ In k (map fst g) /\ ps = [p]))).
Proof.
  induction g as [|[k' ps'] g IH]; simpl; intros Hnd.
  - intros [[= <- <-]|[]]. right. split; [reflexivity|]. right. split; [tauto|reflexivity].
  - apply NoDup_cons in Hnd as [Hk' Hnd]. rewrite list_elem_of_In in Hk'.
    destruct (String.eqb_spec k' (key_of p)) as [Heq|Hne]; simpl.
    + intros [[= <- <-]|Hin].
      * right. split; [exact Heq|]. left. exists ps'. split; [now left|reflexivity].
      * left. split; [|now right]. intros Hk. apply Hk'. rewrite Heq, <- Hk.
        now apply (in_map fst) in Hin.
    + intros [[= <- <-]|Hin].
      * left. split; [exact Hne|now left].
      * destruct (IH Hnd Hin) as [[Hk H]|[Hk [(ps0 & H & Hps)|[H Hps]]]].
        -- left. split; [exact Hk|now right].
        -- right. split; [exact Hk|]. left. exists ps0. split; [now right|exact Hps].
        -- right. split; [exact Hk|]. right. split; [|exact Hps].
           intros [H'|H']; [congruence|contradiction].
Qed.

Lemma filed_under_app (k : string) (l : list part) (p : part) :
  filed_under k (l ++ [p]) =
    filed_under k l ++ (if String.eqb k (key_of p) then [p] else []).
Proof. unfold filed_under. rewrite List.filter_app. simpl. now destruct (String.eqb _ _). Qed.

Lemma filed_under_none (k : string) (l : list part) :
  (forall p, In p l -> key_of p <> k) -> filed_under k l = [].
Proof.
  induction l as [|q l IH]; intros H; [reflexivity|]. unfold filed_under. simpl.
  destruct (String.eqb_spec k (key_of q)) as [Heq|_].
  - exfalso. apply (H q); [now left|now symmetry].
  - apply IH. intros p Hp. apply H. now right.
Qed.

Lemma file_part_filed (g : groups) (l : list part) (p : part) :
  filed g l -> filed (file_part p g) (l ++ [p]).
Proof.
  intros (Hnd & Hg & Hl). split; [now apply file_part_NoDup|]. split.
  - intros k ps Hin. rewrite filed_under_app.
    destruct (file_part_In _ _ _ _ Hnd Hin) as [[Hk H]|[Hk [(ps0 & H & Hps)|[H Hps]]]].
    + destruct (Hg _ _ H) as [Hne Heq].
      destruct (String.eqb_spec k (key_of p)); [contradiction|].
      now rewrite app_nil_r.
    + destruct (Hg _ _ H) as [Hne Heq]. subst k ps. rewrite String.eqb_refl.
      split; [now destruct ps0|now rewrite <- Heq].
    + subst k ps. rewrite String.eqb_refl. split; [discriminate|].
      rewrite filed_under_none; [reflexivity|].
      intros q Hq Heq. apply H. rewrite <- Heq. now apply Hl.
  - intros q Hq. apply file_part_key_in. apply in_app_iff in Hq as [Hq|[<-|[]]].
    + left. now apply Hl.
    + now right.
Qed.

Lemma group_by_category_filed (l : list part) : filed (group_by_category l) l.
Proof.
  induction l as [|p l IH] using rev_ind.
  - split; [constructor|]. split; intros; contradiction.
  - unfold group_by_category. rewrite fold_left_app. simpl. now apply file_part_filed.
Qed.

Lemma group_by_category_parts (l : list part) :
  Permutation (concat (map snd (group_by_category l))) l.
Proof.
  induction l as [|p l IH] using rev_ind; [reflexivity|].
  unfold group_by_category. rewrite fold_left_app. simpl.
  rewrite file_part_parts. now apply Permutation_app_tail.
Qed.

(** X23. The category frames partition the part list: every frame has
    its own category string, is not empty and lists, in the order of the
    part list, the parts of its category and no others; every part has
    its frame; together the frames show each part once. *)
Theorem category_frames_partition (transform_data : list part) :
  let categories := group_by_category transform_data in
  NoDup (map fst categories) /\
  (forall k ps, In (k, ps) categories ->
     ps <> [] /\ ps = filed_under k transform_data /\
     forall p, In p ps -> Category.category_name (category p) = k) /\
  (forall p, In p transform_data ->
     exists ps, In (Category.category_name (category p), ps) categories /\ In p ps) /\
  Permutation (concat (map snd categories)) transform_data.
Proof.
  intros categories. destruct (group_by_category_filed transform_data) as (Hnd & Hg & Hl).
  split; [exact Hnd|]. split; [|split; [|apply group_by_category_parts]].
  - intros k ps Hin. destruct (Hg _ _ Hin) as [Hne Heq]. split; [exact Hne|].
    split; [exact Heq|]. intros p Hp. rewrite Heq in Hp.
    apply List.filter_In in Hp as [_ Hp]. apply String.eqb_eq in Hp. now symmetry.
  - intros p Hp. pose proof (Hl _ Hp) as Hkey.
    apply in_map_iff in Hkey as ([k ps] & Hk & Hin). simpl in Hk. subst k.
    exists ps. split; [exact Hin|]. destruct (Hg _ _ Hin) as [_ ->].
    apply List.filter_In. split; [exact Hp|apply String.eqb_refl].
Qed.

End grouping.
(** ** Extraction with a progress callback *)

Section progress.
Import Raster Tint Extractor.

Lemma not_sprite_skipped (obj : raw_object) (s : sprite_state) (st : Progress.loop_state) :
  Progress.is_sprite obj = false ->
  extract_sprite s obj = s /\ Progress.extract_sprite st obj = Progress.Returns st.
Proof.
  unfold Progress.is_sprite, extract_sprite, Progress.extract_sprite.
  destruct (read obj) as [[| | |n img|]|]; try discriminate; now split.
Qed.

Lemma sprite_step (obj : raw_object) (n : string) (sprite_image : option image)
    (st : Progress.loop_state) :
  read obj = Some (SpriteData n sprite_image) ->
  Progress.is_sprite obj = true /\
  Progress.extract_sprite st obj =
    match (match sprite_image with
           | Some _ => Some (sprite_output_path n)
           | None => Progress.ls_output_path st
           end) with
    | Some path =>
        Progress.Returns
          (Progress.LoopState (extract_sprite (Progress.ls_sprites st) obj)
             (match sprite_image with
              | Some _ => Some (sprite_output_path n)
              | None => Progress.ls_output_path st
              end)
             (Progress.ls_reported st ++ [Bundle.basename path]))
    | None => Progress.Raises Progress.UnboundLocal
    end.
Proof.
  intros Hr. unfold Progress.is_sprite, Progress.extract_sprite. now rewrite Hr.
Qed.

Lemma sprite_loop_outcome (objs : list raw_object) (st : Progress.loop_state) :
  match Progress.sprite_loop objs st with
  | Progress.Raises e =>
      e = Progress.UnboundLocal /\ Progress.ls_output_path st = None /\
      exists o n, Progress.first_sprite objs = Some o /\ read o = Some (SpriteData n None)
  | Progress.Returns ls =>
      Progress.ls_sprites ls = fold_left extract_sprite objs (Progress.ls_sprites st) /\
      length (Progress.ls_reported ls) =
        (length (Progress.ls_reported st) + length (List.filter Progress.is_sprite objs))%nat /\
      (Progress.ls_output_path st = None ->
       forall o n, Progress.first_sprite objs = Some o -> read o <> Some (SpriteData n None))
  end.
Proof.
  revert st. induction objs as [|obj objs IH]; intros st.
  - simpl. split; [reflexivity|]. split; [lia|]. intros _ o n [=].
  - cbn [Progress.sprite_loop]. unfold Progress.first_sprite.
    cbn [List.find List.filter fold_left].
    destruct (Progress.is_sprite obj) eqn:Hsp.
    + unfold Progress.is_sprite in Hsp.
      destruct (read obj) as [[| | |n sprite_image|]|] eqn:Hr; try discriminate.
      destruct (sprite_step obj n sprite_image st Hr) as [_ ->].
      destruct sprite_image as [img|]; [|destruct (Progress.ls_output_path st) as [path|] eqn:Hp].
      * match goal with |- context [Progress.sprite_loop objs ?s] =>
          specialize (IH s); destruct (Progress.sprite_loop objs s) as [ls|e] end.
        -- destruct IH as (Hs & Hl & _). split; [exact Hs|]. split.
           ++ rewrite Hl. cbn [Progress.ls_reported]. rewrite length_app. simpl. lia.
           ++ intros _ o n' [= <-]. rewrite Hr. discriminate.
        -- destruct IH as (_ & H & _). discriminate H.
      * match goal with |- context [Progress.sprite_loop objs ?s] =>
          specialize (IH s); destruct (Progress.sprite_loop objs s) as [ls|e] end.
        -- destruct IH as (Hs & Hl & _). split; [exact Hs|]. split.
           ++ rewrite Hl. cbn [Progress.ls_reported]. rewrite length_app. simpl. lia.
           ++ intros [=].
        -- destruct IH as (_ & H & _). discriminate H.
      * split; [reflexivity|]. split; [reflexivity|]. exists obj, n. now split.
    + destruct (not_sprite_skipped obj (Progress.ls_sprites st) st Hsp) as [-> ->].
      specialize (IH st). destruct (Progress.sprite_loop objs st); exact IH.
Qed.

(** X24. With a progress callback, full extraction fails on a bundle
    whose first readable sprite object has no image: the file name sent
    to the callback is read from a variable that only a sprite with an
    image binds. This is the only failure the callback adds; on every
    other bundle the call returns what it returns without a callback,
    having reported one file name per readable sprite object. *)
Theorem progress_report_reads_unbound_path (fuel : nat) (files : gmap string image)
    (objs : list raw_object) :
  (Progress.extract_character_parts fuel files objs = Progress.Raises Progress.UnboundLocal <->
   (exists forest, assemble_hierarchy (build_object_maps objs) fuel = Done forest) /\
   exists o n, Progress.first_sprite objs = Some o /\ read o = Some (SpriteData n None)) /\
  (Progress.extract_character_parts fuel files objs = Progress.Raises Progress.Recursion <->
   extract_character_parts fuel files objs = RecursionError) /\
  (forall r files' names,
     Progress.extract_character_parts fuel files objs = Progress.Returns (r, files', names) ->
     extract_character_parts fuel files objs = Done (r, files') /\
     length names = length (List.filter Progress.is_sprite objs)) /\
  (forall r files',
     extract_character_parts fuel files objs = Done (r, files') ->
     (forall o n, Progress.first_sprite objs = Some o -> read o <> Some (SpriteData n None)) ->
     exists names,
       Progress.extract_character_parts fuel files objs = Progress.Returns (r, files', names)).
Proof.
  unfold Progress.extract_character_parts, extract_character_parts.
  destruct (assemble_hierarchy (build_object_maps objs) fuel) as [forest|] eqn:Hh.
  - pose proof (sprite_loop_outcome objs
      (Progress.LoopState (SpriteState (join_components (build_object_maps objs)) ∅ files)
         None [])) as H.
    destruct (Progress.sprite_loop objs _) as [ls|e].
    + destruct H as (Hs & Hl & Hn). cbn [Progress.ls_sprites Progress.ls_reported] in Hs, Hl.
      split; [|split; [|split]].
      * split; [discriminate|]. intros (_ & o & n & Ho & Hr). now destruct (Hn eq_refl o n Ho).
      * split; discriminate.
      * intros r files' names [= <- <- <-]. rewrite Hs. split; [reflexivity|]. now rewrite Hl.
      * intros r files' [= <- <-] _. eexists. now rewrite Hs.
    + destruct H as (-> & _ & o & n & Ho & Hr). split; [|split; [|split]].
      * split; [|reflexivity]. intros _. split; [now exists forest|now exists o, n].
      * split; discriminate.
      * discriminate.
      * intros r files' _ Hn. now destruct (Hn o n Ho).
  - split; [|split; [|split]].
    + split; [discriminate|]. intros [[forest [=]] _].
    + now split.
    + discriminate.
    + discriminate.
Qed.

End progress.
